(** * Knapsack solver by genetic search: a shallow embedding of [app.py]

    The development follows the Flask application of the repository
    (revision [app_20241113232712.py]): the candidate class [Individual],
    the population initializer, tournament selection, single-point
    crossover, in-place mutation, the generation transition and the
    request handler [solve_knapsack].

    Python objects are references into an object store, because the
    program shares [Individual] objects between the old population, the
    next population and the best-so-far reference, and [mutate] writes
    through these references.  The [random] module is a tape of raw draws
    read through a cursor. *)

From Stdlib Require Import ZArith QArith Lia String DecimalString.
From stdpp Require Import base tactics option list sorting.

Local Open Scope Z_scope.

(** ** Data model *)

(** [@dataclass class Item]: name, weight, value. *)
Record Item := mkItem { name : string; weight : Z; value : Z }.

(** [class Individual]: the three attributes set by [__init__].  The
    class defines [__hash__] and no [__eq__], so two individuals are
    equal only when they are the same object. *)
Record Individual := mkIndividual {
  bits : list Z;
  items : list Item;
  max_weight : Z
}.

Definition sumZ (l : list Z) : Z := foldr Z.add 0 l.

(** [sum(bit * item.value for item, bit in zip(self.items, self.bits))] *)
Definition total_value (ind : Individual) : Z :=
  sumZ (map (fun '(item, bit) => bit * value item) (zip (items ind) (bits ind))).

(** [Individual.get_total_weight] *)
Definition get_total_weight (ind : Individual) : Z :=
  sumZ (map (fun '(item, bit) => bit * weight item) (zip (items ind) (bits ind))).

(** [Individual.fitness] *)
Definition fitness (ind : Individual) : Z :=
  let total_value := total_value ind in
  let total_weight := get_total_weight ind in
  if total_weight <=? max_weight ind then total_value
  else - Z.abs (total_weight - max_weight ind).

(** [Individual.get_selected_items]: one dictionary with the keys name,
    weight and value per item whose bit is 1; the dictionary is read as
    an [Item]. *)
Definition get_selected_items (ind : Individual) : list Item :=
  map fst (filter (fun p => snd p = 1) (zip (items ind) (bits ind))).

Definition is_bit (b : Z) : Prop := b = 0 \/ b = 1.

Definition nonneg_item (it : Item) : Prop := 0 <= weight it /\ 0 <= value it.

(** ** The process: object store and random source *)

(** A reference to an [Individual] object is its index in the store. *)
Abbreviation ref := nat.

(** [tape] holds the raw draws the process-wide generator of the
    [random] module delivers, [pos] counts the draws already consumed.
    [hsalt] fixes the order in which a [set] of individuals is iterated:
    it depends on the string hashes of the process, not on [random]. *)
Record World := mkWorld {
  heap : list Individual;
  tape : nat -> N;
  pos : nat;
  hsalt : nat -> N
}.

(** The exceptions the program can meet.  The one of [random.randint]
    carries the three numbers its message prints. *)
Inductive exn :=
| ValueError_empty_range (istart istop width : Z)   (* random.randint(a, b) with b < a *)
| ValueError_sample          (* random.sample larger than the population *)
| ValueError_max_empty       (* max() of an empty sequence without default *)
| AttributeError_NoneType.   (* None.fitness() *)

Inductive Outcome (A : Type) :=
| Ok (a : A) (w : World)
| Raise (e : exn) (w : World)
| OutOfFuel.
Arguments Ok {A} a w.
Arguments Raise {A} e w.
Arguments OutOfFuel {A}.

(** Computations of the program: state passing with exceptions. *)
Definition M (A : Type) : Type := World -> Outcome A.

Definition ret {A} (a : A) : M A := fun w => Ok a w.

Definition bind {A B} (m : M A) (k : A -> M B) : M B :=
  fun w => match m w with
           | Ok a w' => k a w'
           | Raise e w' => Raise e w'
           | OutOfFuel => OutOfFuel
           end.

Definition raise {A} (e : exn) : M A := fun w => Raise e w.

Definition out_of_fuel {A} : M A := fun _ => OutOfFuel.

Notation "'do' x <- m ; k" := (bind m (fun x => k))
  (at level 10, x name, m at level 100, k at level 200).
Notation "'run' m ; k" := (bind m (fun _ => k))
  (at level 10, m at level 100, k at level 200).

(** [for x in l: body(x)] *)
Fixpoint for_each {A} (l : list A) (body : A -> M unit) : M unit :=
  match l with
  | [] => ret tt
  | x :: l' => run body x; for_each l' body
  end.

(** [[f() for _ in range(n)]] *)
Fixpoint replicateM {A} (n : nat) (m : M A) : M (list A) :=
  match n with
  | O => ret []
  | S n' => do x <- m; do xs <- replicateM n' m; ret (x :: xs)
  end.

(** *** Object store *)

Definition default_individual : Individual := mkIndividual [] [] 0.

Definition deref (h : list Individual) (r : ref) : Individual :=
  nth r h default_individual.

(** [Individual(bits, items, max_weight)]: a new object. *)
Definition new_Individual (bs : list Z) (its : list Item) (mw : Z) : M ref :=
  fun w => Ok (length (heap w))
              (mkWorld (heap w ++ [mkIndividual bs its mw]) (tape w) (pos w) (hsalt w)).

Definition get (r : ref) : M Individual :=
  fun w => Ok (deref (heap w) r) w.

(** [individual.bits[i] = v] *)
Definition set_bit (r : ref) (i : nat) (v : Z) : M unit :=
  fun w =>
    let ind := deref (heap w) r in
    Ok tt (mkWorld (<[r := mkIndividual (<[i := v]> (bits ind)) (items ind) (max_weight ind)]> (heap w))
                   (tape w) (pos w) (hsalt w)).

(** *** The [random] module *)

Definition draw : M N :=
  fun w => Ok (tape w (pos w)) (mkWorld (heap w) (tape w) (S (pos w)) (hsalt w)).

(** An index below [n], [n > 0]. *)
Definition randbelow (n : nat) : M nat :=
  do raw <- draw; ret (N.to_nat (raw mod N.of_nat n)%N).

(** [random.choice([0, 1])] *)
Definition random_choice01 : M Z :=
  do j <- randbelow 2; ret (nth j [0; 1] 0).

(** [random.random()]: a multiple of 2^-53 in [0, 1). *)
Definition random_random : M Q :=
  do raw <- draw; ret (Z.of_N (raw mod 2 ^ 53)%N # 2 ^ 53).

(** [random.randint(a, b)], that is [randrange(a, b + 1)]: with
    [width = b + 1 - a] the result is [a + _randbelow(width)] when
    [width > 0], and a [ValueError] otherwise. *)
Definition random_randint (a b : Z) : M Z :=
  let istart := a in
  let istop := b + 1 in
  let width := istop - istart in
  if 0 <? width then do j <- randbelow (Z.to_nat width); ret (istart + Z.of_nat j)
  else raise (ValueError_empty_range istart istop width).

(** Picking [k] positions of [pool] without replacement, as
    [random.sample] does over its pool: the chosen slot is refilled with
    the last live element.  One index is drawn per pick. *)
Fixpoint sample_pool {A} (d : A) (pool : list A) (k : nat) : M (list A) :=
  match k with
  | O => ret []
  | S k' =>
      do j <- randbelow (length pool);
      let x := nth j pool d in
      let pool' := take (length pool - 1) (<[j := nth (length pool - 1) pool d]> pool) in
      do rest <- sample_pool d pool' k';
      ret (x :: rest)
  end.

(** [random.sample(population, k)].  For the sample sizes of this
    program (2 and 4) CPython copies the population into a pool when it
    has at most 21 members; over a longer population it draws positions
    of the population itself and draws again when a position was already
    taken.  Either way the sample is [k] members from pairwise distinct
    positions.  The embedding follows the pool at every length: which
    positions a given tape picks and how many draws are read is as in
    CPython for at most 21 members only, and the statements on picks
    and draw counts below are made for such populations. *)
Definition random_sample (population : list ref) (k : nat) : M (list ref) :=
  if (length population <? k)%nat then raise ValueError_sample
  else sample_pool 0%nat population k.

(** *** Sets of individuals *)

(** [population.add(individual)]: membership is by object identity. *)
Definition set_add (r : ref) (s : list ref) : list ref :=
  if decide (r ∈ s) then s else s ++ [r].

(** The order in which [list(population)] walks the set: some
    arrangement of its members, fixed by the hashes of the process. *)
Fixpoint arrange {A} (d : A) (salt : nat -> N) (i : nat) (pool : list A) (k : nat) : list A :=
  match k with
  | O => []
  | S k' =>
      let j := N.to_nat (salt i mod N.of_nat (length pool))%N in
      nth j pool d :: arrange d salt (S i) (take j pool ++ drop (S j) pool) k'
  end.

Definition list_of_set (s : list ref) : M (list ref) :=
  fun w => Ok (arrange 0%nat (hsalt w) 0 s (length s)) w.

(** ** The genetic operators *)

(** [[random.choice([0, 1]) for _ in range(len(items))]] *)
Definition random_bits (its : list Item) : M (list Z) :=
  replicateM (length its) random_choice01.

(** First loop of [generate_initial_population]; the recursion is on
    [max_attempts], which the loop decrements at every turn. *)
Fixpoint init_attempts (max_attempts : nat) (count : Z) (its : list Item) (mw : Z)
    (population : list ref) : M (list ref) :=
  match max_attempts with
  | O => ret population
  | S attempts' =>
      if Z.of_nat (length population) <? count then
        do bs <- random_bits its;
        do individual <- new_Individual bs its mw;
        init_attempts attempts' count its mw (set_add individual population)
      else ret population
  end.

(** Second loop of [generate_initial_population]: no bound of its own. *)
Fixpoint init_fill (fuel : nat) (count : Z) (its : list Item) (mw : Z)
    (population : list ref) : M (list ref) :=
  if Z.of_nat (length population) <? count then
    match fuel with
    | O => out_of_fuel
    | S fuel' =>
        do bs <- random_bits its;
        do individual <- new_Individual bs its mw;
        init_fill fuel' count its mw (set_add individual population)
    end
  else ret population.

Definition generate_initial_population (count : Z) (its : list Item) (mw : Z)
    : M (list ref) :=
  let population := [] in
  let max_attempts := count * 10 in
  do population <- init_attempts (Z.to_nat max_attempts) count its mw population;
  do population <- init_fill (Z.to_nat count) count its mw population;
  list_of_set population.

(** [max(l, key=lambda x: x.fitness())]: the first element of greatest
    fitness, [None] for the empty list. *)
Fixpoint max_by_fitness (h : list Individual) (l : list ref) : option ref :=
  match l with
  | [] => None
  | x :: l' =>
      match max_by_fitness h l' with
      | None => Some x
      | Some y => if fitness (deref h y) >? fitness (deref h x) then Some y else Some x
      end
  end.

(** [max(l, key=..., default=None)] *)
Definition max_fitness_default (l : list ref) : M (option ref) :=
  fun w => Ok (max_by_fitness (heap w) l) w.

(** [max(l, key=...)] without default: [ValueError] on the empty list. *)
Definition max_fitness (l : list ref) : M ref :=
  fun w => match max_by_fitness (heap w) l with
           | Some r => Ok r w
           | None => Raise ValueError_max_empty w
           end.

(** [selection] *)
Definition selection (population : list ref) : M (list ref) :=
  if (length population <? 4)%nat then
    random_sample population (Nat.min 2 (length population))
  else
    do tournament1 <- random_sample population 4;
    do winner1 <- max_fitness tournament1;
    do tournament2 <- random_sample population 4;
    do winner2 <- max_fitness tournament2;
    ret [winner1; winner2].

(** [crossover] *)
Definition crossover (parents : list ref) (its : list Item) (mw : Z) (crossover_rate : Q)
    : M (list ref) :=
  if (length parents <? 2)%nat then ret parents
  else
    do u <- random_random;
    if negb (Qle_bool u crossover_rate) then ret parents
    else
      do crossover_point <- random_randint 1 (Z.of_nat (length its) - 1);
      do parent0 <- get (nth 0 parents 0%nat);
      do parent1 <- get (nth 1 parents 0%nat);
      let p := Z.to_nat crossover_point in
      let child1_bits := take p (bits parent0) ++ drop p (bits parent1) in
      let child2_bits := take p (bits parent1) ++ drop p (bits parent0) in
      do child1 <- new_Individual child1_bits its mw;
      do child2 <- new_Individual child2_bits its mw;
      ret [child1; child2].

(** [mutate]: in place, through the references. *)
Definition mutate (individuals : list ref) (mutation_rate : Q) : M unit :=
  for_each individuals (fun individual =>
    do ind <- get individual;
    for_each (seq 0 (length (bits ind))) (fun i =>
      do u <- random_random;
      if negb (Qle_bool mutation_rate u) then
        do ind <- get individual;
        set_bit individual i (1 - nth i (bits ind) 0)
      else ret tt)).

(** [sorted(population, key=lambda x: x.fitness(), reverse=True)]: stable,
    so candidates of equal fitness keep their order. *)
Fixpoint insert_desc (h : list Individual) (x : ref) (l : list ref) : list ref :=
  match l with
  | [] => [x]
  | y :: l' =>
      if fitness (deref h y) <=? fitness (deref h x) then x :: y :: l'
      else y :: insert_desc h x l'
  end.

Definition sorted_desc (h : list Individual) (l : list ref) : list ref :=
  foldr (insert_desc h) [] l.

Definition sorted_by_fitness_desc (l : list ref) : M (list ref) :=
  fun w => Ok (sorted_desc (heap w) l) w.

(** [max(1, len(population) // 10)] *)
Definition elite_count (population : list ref) : nat :=
  Nat.max 1 (length population / 10).

(** The [while] loop of [next_generation]. *)
Fixpoint fill_next_gen (fuel : nat) (population : list ref) (its : list Item) (mw : Z)
    (crossover_rate mutation_rate : Q) (next_gen : list ref) : M (list ref) :=
  if (length next_gen <? length population)%nat then
    match fuel with
    | O => out_of_fuel
    | S fuel' =>
        do parents <- selection population;
        do children <- crossover parents its mw crossover_rate;
        run mutate children mutation_rate;
        fill_next_gen fuel' population its mw crossover_rate mutation_rate
                      (next_gen ++ children)
    end
  else ret next_gen.

(** [next_generation]; every turn of the loop appends at least one
    child, so [len(population)] turns are enough. *)
Definition next_generation (population : list ref) (its : list Item) (mw : Z)
    (crossover_rate mutation_rate : Q) : M (list ref) :=
  let elite_count := elite_count population in
  do sorted_population <- sorted_by_fitness_desc population;
  let next_gen := take elite_count sorted_population in
  do next_gen <- fill_next_gen (length population) population its mw
                   crossover_rate mutation_rate next_gen;
  ret (take (length population) next_gen).

(** ** The request handler *)

(** The JSON body of a request: the keys [solve_knapsack] reads, each
    present or absent.  Items arrive with a name and integer weight and
    value, on which [int(...)] is the identity.  The cap, the population
    size and the number of generations are integers, as the annotations
    [max_weight: int] and [count: int] have them; the two rates are
    floats, read as the rationals they denote.  Bodies outside this
    record are outside the embedding: a body that is not JSON makes
    [request.get_json()] raise, and a value of another type (an item
    without a weight, a string for [generations]) raises in the line
    that uses it; the handler answers all of these with status 500. *)
Record Request := mkRequest {
  req_max_weight : option Z;
  req_population_size : option Z;
  req_generations : option Z;
  req_crossover_rate : option Q;
  req_mutation_rate : option Q;
  req_items : option (list Item)
}.

(** The JSON answer and its HTTP status. *)
Inductive Response :=
| Result (selected_items : list Item) (total_value total_weight : Z)
| ErrorResponse (error : string) (status : Z).

(** The decimal rendering of an integer, as [%d] prints it. *)
Definition str_of_Z (z : Z) : string := NilZero.string_of_int (Z.to_int z).

(** [str(e)], in the wording of CPython 3.11. *)
Definition exn_str (e : exn) : string :=
  match e with
  | ValueError_empty_range istart istop width =>
      "empty range for randrange() (" ++ str_of_Z istart ++ ", " ++ str_of_Z istop
        ++ ", " ++ str_of_Z width ++ ")"
  | ValueError_sample => "Sample larger than population or is negative"
  | ValueError_max_empty => "max() arg is an empty sequence"
  | AttributeError_NoneType => "'NoneType' object has no attribute 'fitness'"
  end.

(** [try: body except Exception as e: handler(e)] *)
Definition try_except {A} (body : M A) (handler : exn -> M A) : M A :=
  fun w => match body w with
           | Raise e w' => handler e w'
           | o => o
           end.

(** An empty JSON object is falsy. *)
Definition empty_request (data : Request) : bool :=
  match req_max_weight data, req_population_size data, req_generations data,
        req_crossover_rate data, req_mutation_rate data, req_items data with
  | None, None, None, None, None, None => true
  | _, _, _, _, _, _ => false
  end.

(** [best_solution.fitness()] on a reference that may be [None]. *)
Definition fitness_of (r : option ref) : M Z :=
  match r with
  | Some r => do ind <- get r; ret (fitness ind)
  | None => raise AttributeError_NoneType
  end.

(** The loop state of [solve_knapsack]: the working population and the
    best-so-far reference. *)
Definition LoopState : Type := list ref * option ref.

(** One turn of [for _ in range(generations)]. *)
Definition generation_step (its : list Item) (mw : Z) (crossover_rate mutation_rate : Q)
    (st : LoopState) : M LoopState :=
  let '(population, best_solution) := st in
  do population <- next_generation population its mw crossover_rate mutation_rate;
  do current_best <- max_fitness population;
  do current_fitness <- fitness_of (Some current_best);
  do best_fitness <- fitness_of best_solution;
  if current_fitness >? best_fitness then ret (population, Some current_best)
  else ret (population, best_solution).

Fixpoint evolve (generations : nat) (its : list Item) (mw : Z)
    (crossover_rate mutation_rate : Q) (st : LoopState) : M LoopState :=
  match generations with
  | O => ret st
  | S g =>
      do st' <- generation_step its mw crossover_rate mutation_rate st;
      evolve g its mw crossover_rate mutation_rate st'
  end.

(** The projection of the best-so-far candidate onto the answer. *)
Definition project_result (mw : Z) (best_solution : option ref) : M Response :=
  match best_solution with
  | Some r =>
      do best <- get r;
      if get_total_weight best <=? mw then
        ret (Result (get_selected_items best) (fitness best) (get_total_weight best))
      else ret (Result [] 0 0)
  | None => ret (Result [] 0 0)
  end.

(** The search between validation and projection: initial population,
    its best individual, the generations. *)
Definition run_search (its : list Item) (mw population_size generations : Z)
    (crossover_rate mutation_rate : Q) : M LoopState :=
  do population <- generate_initial_population population_size its mw;
  do best_solution <- max_fitness_default population;
  evolve (Z.to_nat generations) its mw crossover_rate mutation_rate
         (population, best_solution).

(** The float literals [0.53] and [0.013]: the doubles nearest to them,
    [(0.53).as_integer_ratio()] and [(0.013).as_integer_ratio()]. *)
Definition default_crossover_rate : Q := 4773815605012726 # 9007199254740992.

Definition default_mutation_rate : Q := 7493989779944505 # 576460752303423488.

(** [solve_knapsack]; [data] is the value [request.get_json()] returned:
    [None] for the body [null], a record for an object. *)
Definition solve_knapsack (data : option Request) : M Response :=
  try_except
    (match data with
     | None => ret (ErrorResponse "Invalid input format, JSON required" 400)
     | Some data =>
         if empty_request data then
           ret (ErrorResponse "Invalid input format, JSON required" 400)
         else
           let max_weight := default 15 (req_max_weight data) in
           let population_size := default 6 (req_population_size data) in
           let generations := default 100 (req_generations data) in
           let crossover_rate := default default_crossover_rate (req_crossover_rate data) in
           let mutation_rate := default default_mutation_rate (req_mutation_rate data) in
           let items_data := default [] (req_items data) in
           match items_data with
           | [] => ret (ErrorResponse "No items provided" 400)
           | _ :: _ =>
               let items := items_data in
               do st <- run_search items max_weight population_size generations
                                   crossover_rate mutation_rate;
               project_result max_weight (snd st)
           end
     end)
    (fun e => ret (ErrorResponse ("An error occurred: " ++ exn_str e) 500)).

(** ** Sample runs *)

Definition tape_of (l : list N) : nat -> N := fun i => nth i l 0%N.

Definition world0 (draws : list N) : World := mkWorld [] (tape_of draws) 0 (fun _ => 0%N).

Definition catalog4 : list Item :=
  [mkItem "A" 2 3; mkItem "B" 3 4; mkItem "C" 4 5; mkItem "D" 5 6].

(** The value a computation returns, if it returns. *)
Definition value_of {A} (o : Outcome A) : option A :=
  match o with Ok a _ => Some a | _ => None end.

Definition response_of (o : Outcome Response) : option Response := value_of o.

(** ** Invariants of a run *)

(** What holds of an outcome: [Q] of the value and final world of a
    computation that returns, [E] of one that raises.  Running out of
    fuel is excluded. *)
Definition holds (E : Prop) {A} (o : Outcome A) (Q : A -> World -> Prop) : Prop :=
  match o with
  | Ok a w => Q a w
  | Raise _ _ => E
  | OutOfFuel => False
  end.

(** Partial correctness: an exception leaves nothing to show.  With
    [False] for [E] the computation is shown to return. *)
Definition post {A} (o : Outcome A) (Q : A -> World -> Prop) : Prop :=
  holds True o Q.

(** A candidate of the run over catalog [cat] and cap [mw]. *)
Definition wf_ind (cat : list Item) (mw : Z) (ind : Individual) : Prop :=
  items ind = cat /\ max_weight ind = mw /\
  length (bits ind) = length cat /\ Forall is_bit (bits ind).

(** Every object allocated since the call started (at store size [n0])
    is a candidate of the run. *)
Definition wf_store (cat : list Item) (mw : Z) (n0 : nat) (h : list Individual) : Prop :=
  forall (r : nat) (ind : Individual), (n0 <= r)%nat -> h !! r = Some ind -> wf_ind cat mw ind.

Definition inv (cat : list Item) (mw : Z) (n0 : nat) (w : World) : Prop :=
  wf_store cat mw n0 (heap w) /\ (n0 <= length (heap w))%nat.

(** A reference to an object of the run. *)
Definition live (n0 : nat) (w : World) (r : ref) : Prop :=
  (n0 <= r < length (heap w))%nat.

(** The world after a step of the run that started in [w]. *)
Definition later (cat : list Item) (mw : Z) (n0 : nat) (w w' : World) : Prop :=
  inv cat mw n0 w' /\ (length (heap w) <= length (heap w'))%nat.

(** A best-so-far reference is [None] or an object of the run. *)
Definition live_opt (n0 : nat) (w : World) (o : option nat) : Prop :=
  match o with Some r => live n0 w r | None => True end.

(** A loop state of the run: live population and best-so-far. *)
Definition state_ok (n0 : nat) (w : World) (st : LoopState) : Prop :=
  Forall (live n0 w) (fst st) /\ live_opt n0 w (snd st).

(** A population of [size] candidates, each an object in the store
    whose bit vector has one bit in {0,1} per catalog item. *)
Definition population_ok (cat : list Item) (size : Z) (w : World) (population : list nat) : Prop :=
  Z.of_nat (length population) = size /\
  Forall (fun r => (r < length (heap w))%nat /\
                   length (bits (deref (heap w) r)) = length cat /\
                   Forall is_bit (bits (deref (heap w) r))) population.

(** A computation that raises no exception. *)
Definition no_raise {A} (m : M A) : Prop :=
  forall w e w', m w <> Raise e w'.

(** ** Concrete runs *)

Definition catalog2 : list Item := [mkItem "A" 1 1; mkItem "B" 1 1].

Definition catalog1 : list Item := [mkItem "A" 1 1].

(** The world an outcome ends in. *)
Definition final_world {A} (o : Outcome A) (d : World) : World :=
  match o with
  | Ok _ w => w
  | Raise _ w => w
  | OutOfFuel => d
  end.

(** The fitness the best-so-far candidate has when the search ends. *)
Definition best_fitness (o : Outcome LoopState) : option Z :=
  match o with
  | Ok (_, Some r) w => Some (fitness (deref (heap w) r))
  | _ => None
  end.

(** Draws under which one generation leaves the parents unrecombined
    and flips the first bit of the first parent: the four bits of the two
    initial candidates; the two picks of [random.sample]; the crossover
    draw, read as 0.75, above the default rate; four mutation draws, the
    first read as 2^-7, below the default rate, the others as 0.5. *)
Definition flip_tape : list N :=
  [1; 1; 1; 0; 0; 0; 6755399441055744; 70368744177664;
   4503599627370496; 4503599627370496; 4503599627370496]%N.

(** Two parents over [catalog2] that agree on their first bit. *)
Definition parents_world (draws : list N) : World :=
  mkWorld [mkIndividual [0; 0] catalog2 2; mkIndividual [0; 1] catalog2 2]
          (tape_of draws) 0 (fun _ => 0%N).

(** A store of five candidates over [catalog4] with cap 5; the last one
    repeats the bits of the second. *)
Definition sample_store : World :=
  mkWorld [mkIndividual [1; 1; 0; 0] catalog4 5; mkIndividual [0; 0; 0; 0] catalog4 5;
           mkIndividual [1; 1; 1; 0] catalog4 5; mkIndividual [0; 0; 0; 1] catalog4 5;
           mkIndividual [0; 0; 0; 0] catalog4 5]
          (tape_of []) 0 (fun _ => 0%N).

Definition value_and_world {A} (o : Outcome A) : option (A * World) :=
  match o with Ok a w => Some (a, w) | _ => None end.

(** ** Runs that read the same draws *)

(** Two worlds with the same store whose generators deliver the same
    draws from now on, in processes with the same set iteration order. *)
Definition same_source (w1 w2 : World) : Prop :=
  heap w1 = heap w2 /\
  (forall i, hsalt w1 i = hsalt w2 i) /\
  (forall i, tape w1 (pos w1 + i)%nat = tape w2 (pos w2 + i)%nat).

Definition same_outcome {A} (o1 o2 : Outcome A) : Prop :=
  match o1, o2 with
  | Ok a w, Ok b w' => a = b /\ same_source w w'
  | Raise e w, Raise e' w' => e = e' /\ same_source w w'
  | OutOfFuel, OutOfFuel => True
  | _, _ => False
  end.

(** A computation whose outcome depends on the world only through the
    store, the coming draws and the set iteration order. *)
Definition respects {A} (m : M A) : Prop :=
  forall w1 w2, same_source w1 w2 -> same_outcome (m w1) (m w2).

(** ** Frames *)

(** Two objects that differ at most in the values of their bits. *)
Definition same_shape (a b : Individual) : Prop :=
  items a = items b /\ max_weight a = max_weight b /\
  length (bits a) = length (bits b).

(** From [w] to [w'] only bits of the objects listed in [l] may have
    changed: the store has the same size, every other object is as it
    was, and no object changed its catalog, cap or number of bits. *)
Definition touches_only (l : list nat) (w w' : World) : Prop :=
  length (heap w') = length (heap w) /\
  (forall r, r ∉ l -> deref (heap w') r = deref (heap w) r) /\
  (forall r, same_shape (deref (heap w') r) (deref (heap w) r)).

(** The body of the inner loop of [mutate], for bit [i] of [individual]. *)
Definition mutate_bit (individual : nat) (mutation_rate : Q) (i : nat) : M unit :=
  do u <- random_random;
  if negb (Qle_bool mutation_rate u) then
    do ind <- get individual;
    set_bit individual i (1 - nth i (bits ind) 0)
  else ret tt.

(** The world after one more draw. *)
Definition advance (k : nat) (w : World) : World :=
  mkWorld (heap w) (tape w) (pos w + k) (hsalt w).

(** Every bit flipped. *)
Definition flip_bits (bs : list Z) : list Z := map (fun b => 1 - b) bs.

(** The bits after the assignments [bits[i] = 1 - bits[i]] for
    [i = k, ..., k + m - 1], in this order. *)
Fixpoint flip_from (k m : nat) (bs : list Z) : list Z :=
  match m with
  | O => bs
  | S m' => flip_from (S k) m' (<[k := 1 - nth k bs 0]> bs)
  end.

(** [a] is at least as fit as [b] in store [h]. *)
Definition fitter_eq (h : list Individual) (a b : nat) : Prop :=
  fitness (deref h b) <= fitness (deref h a).

(** A store holding the candidates [1; 1] and [1; 0] over [catalog2],
    cap 2. *)
Definition two_candidates_world (draws : list N) : World :=
  mkWorld [mkIndividual [1; 1] catalog2 2; mkIndividual [1; 0] catalog2 2]
          (tape_of draws) 0 (fun _ => 0%N).

(** The HTTP status of an answer: [jsonify(...)] alone is a 200. *)
Definition status_of (r : Response) : Z :=
  match r with
  | Result _ _ _ => 200
  | ErrorResponse _ status => status
  end.

(** The request [data] with its [generations] key replaced. *)
Definition with_generations (g : option Z) (data : Request) : Request :=
  mkRequest (req_max_weight data) (req_population_size data) g
            (req_crossover_rate data) (req_mutation_rate data) (req_items data).

(** ** The Streamlit front end ([frontend_20241114005333.py]) *)

(** An entry of [st.session_state['items']]. *)
Record SessionItem := mkSessionItem {
  item_id : Z;
  item_name : string;
  item_weight : Z;
  item_value : Z
}.

(** [st.session_state]: the three keys the front end uses, each present
    or absent. *)
Record SessionState := mkSession {
  ss_items : option (list SessionItem);
  ss_next_id : option Z;
  ss_form_key : option Z
}.

(** [initialize_session_state], as defined last in the module. *)
Definition initialize_session_state (s : SessionState) : SessionState :=
  mkSession (Some (default [] (ss_items s)))
            (Some (default 0 (ss_next_id s)))
            (Some (default 0 (ss_form_key s))).

(** Truth value of a string and of an integer. *)
Definition truthy_str (s : string) : bool :=
  match s with EmptyString => false | _ => true end.

Definition truthy_int (z : Z) : bool := negb (z =? 0).

(** [add_item]: the returned flag and the new state; [None] stands for
    the [KeyError] of a missing session key. *)
Definition add_item (name : string) (weight value : Z) (s : SessionState)
    : option (bool * SessionState) :=
  if truthy_str name && truthy_int weight && truthy_int value then
    match ss_items s, ss_next_id s with
    | Some its, Some next_id =>
        Some (true,
              mkSession (Some (its ++ [mkSessionItem next_id name weight value]))
                        (Some (next_id + 1)) (ss_form_key s))
    | _, _ => None
    end
  else Some (false, s).

(** [delete_item] *)
Definition delete_item (id : Z) (s : SessionState) : option SessionState :=
  match ss_items s with
  | Some its =>
      Some (mkSession (Some (filter (fun it => item_id it <> id) its))
                      (ss_next_id s) (ss_form_key s))
  | None => None
  end.

(** [{k: v for k, v in item.items() if k != 'id'}] *)
Definition item_payload (it : SessionItem) : Item :=
  mkItem (item_name it) (item_weight it) (item_value it).

(** The JSON body [main] posts: the slider value and the items. *)
Definition request_of_session (max_weight : Z) (its : list SessionItem) : Request :=
  mkRequest (Some max_weight) None None None None (Some (map item_payload its)).

(** What the page shows after a click on the solve button. *)
Inductive Shown :=
| ShowAddItemsFirst
| ShowError (msg : string)
| ShowNoValidSolution
| ShowSolution (selected_items : list Item) (total_value total_weight : Z).

(** [display_results] *)
Definition display_results (sel : list Item) (tv tw : Z) : Shown :=
  if (tv =? 0) && match sel with [] => true | _ => false end
  then ShowNoValidSolution
  else ShowSolution sel tv tw.

(** The handler of the solve button in [main], with the POST to
    [/solve] answered by [solve_knapsack]. *)
Definition on_solve_click (max_weight : Z) (its : list SessionItem) : M Shown :=
  match its with
  | [] => ret ShowAddItemsFirst
  | _ :: _ =>
      do response <- solve_knapsack (Some (request_of_session max_weight its));
      match response with
      | ErrorResponse msg _ => ret (ShowError msg)
      | Result sel tv tw => ret (display_results sel tv tw)
      end
  end.

(** The ids in a session are pairwise distinct and below the counter. *)
Definition ids_ok (s : SessionState) : Prop :=
  exists its next_id,
    ss_items s = Some its /\ ss_next_id s = Some next_id /\
    NoDup (map item_id its) /\ Forall (fun it => item_id it < next_id) its.

(** Every item of a session has a name and a weight and value other
    than zero. *)
Definition items_filled (s : SessionState) : Prop :=
  exists its, ss_items s = Some its /\
    Forall (fun it => item_name it <> EmptyString /\ item_weight it <> 0 /\ item_value it <> 0) its.

(** ** Draws and stores of other processes *)

(** The world in which the generator delivers [raw] as its next draw. *)
Definition with_next_draw (raw : N) (w : World) : World :=
  mkWorld (heap w) (fun i => if (i =? pos w)%nat then raw else tape w i) (pos w) (hsalt w).

(** Two worlds whose generators deliver the same draws from now on, in
    processes with the same set iteration order; nothing is asked of
    the objects the two stores hold. *)
Definition same_draws (w1 w2 : World) : Prop :=
  (forall i, hsalt w1 i = hsalt w2 i) /\
  (forall i, tape w1 (pos w1 + i)%nat = tape w2 (pos w2 + i)%nat).

(** The world [w] with an empty store. *)
Definition fresh_process (w : World) : World :=
  mkWorld [] (tape w) (pos w) (hsalt w).

(** The world [w] in a process whose store already holds the objects
    [pre]: the objects of [w] come after them. *)
Definition lift (pre : list Individual) (w : World) : World :=
  mkWorld (pre ++ heap w) (tape w) (pos w) (hsalt w).

(** A reference of [w], seen in [lift pre w]. *)
Definition shift (pre : list Individual) (r : ref) : ref := (length pre + r)%nat.

Definition shift_state (pre : list Individual) (st : LoopState) : LoopState :=
  (map (shift pre) (fst st), option_map (shift pre) (snd st)).

Definition map_outcome {A B} (f : A -> B) (g : World -> World) (o : Outcome A) : Outcome B :=
  match o with
  | Ok a w => Ok (f a) (g w)
  | Raise e w => Raise e (g w)
  | OutOfFuel => OutOfFuel
  end.

(** [m'] does over [pre] what [m] does without it, up to the renaming
    [f] of the references in the result. *)
Definition lifts {A B} (pre : list Individual) (f : A -> B) (m : M A) (m' : M B) : Prop :=
  forall w, m' (lift pre w) = map_outcome f (lift pre) (m w).

(** * Properties *)

Example fitness_feasible :
  fitness (mkIndividual [1; 1; 0; 0]
             [mkItem "A" 2 3; mkItem "B" 3 4; mkItem "C" 4 5; mkItem "D" 5 6] 5) = 7.
Proof. reflexivity. Qed.

Example fitness_infeasible :
  fitness (mkIndividual [1; 1; 1; 0]
             [mkItem "A" 2 3; mkItem "B" 3 4; mkItem "C" 4 5; mkItem "D" 5 6] 5) = -4.
Proof. reflexivity. Qed.

Example run_generations_0 :
  response_of (solve_knapsack
     (Some (mkRequest (Some 5) (Some 2) (Some 0) None None (Some catalog4)))
     (world0 [1; 1; 0; 0; 1; 1; 1; 1]%N))
  = Some (Result [mkItem "A" 2 3; mkItem "B" 3 4] 7 5).
Proof. vm_compute. reflexivity. Qed.

(** Candidates [1;1;0;0] (fitness 7), [0;0;0;0] (fitness 0), [1;1;1;0]
    (fitness -4) and [0;0;0;1] (fitness 6) over [catalog4], cap 5. *)
Example sorted_by_fitness_sample :
  sorted_desc (heap sample_store) [1; 2; 3; 0; 1]%nat = [0; 3; 1; 1; 2]%nat.
Proof. reflexivity. Qed.

Example max_by_fitness_first_of_ties :
  max_by_fitness (heap sample_store) [2; 1; 4]%nat = Some 1%nat /\
  max_by_fitness (heap sample_store) [] = None.
Proof. split; reflexivity. Qed.

Example selection_tournaments :
  value_of (selection [0; 1; 2; 3; 4]%nat
                   (mkWorld (heap sample_store) (tape_of [1; 1; 1; 1; 4; 0; 0; 0]%N) 0 (fun _ => 0%N)))
  = Some [3; 0]%nat.
Proof. vm_compute. reflexivity. Qed.

Example crossover_at_point_2 :
  option_map (fun r => bits (deref (heap (snd r)) (nth 0 (fst r) 0%nat)))
    (value_and_world (crossover [0; 3]%nat catalog4 5 1
                       (mkWorld (heap sample_store) (tape_of [0; 1]%N) 0 (fun _ => 0%N))))
  = Some [1; 1; 0; 1].
Proof. vm_compute. reflexivity. Qed.

(** ** Fitness *)

Section Fitness.

Lemma sumZ_nonneg (l : list Z) : Forall (fun z => 0 <= z) l -> 0 <= sumZ l.
Proof. induction 1; simpl; lia. Qed.

Lemma total_value_nonneg (its : list Item) (bs : list Z) (mw : Z) :
  Forall nonneg_item its -> Forall is_bit bs ->
  0 <= total_value (mkIndividual bs its mw).
Proof.
  intros Hits Hbs. unfold total_value. simpl. apply sumZ_nonneg.
  revert bs Hbs. induction Hits as [|it its [_ Hv] _ IH]; intros bs Hbs; simpl.
  - constructor.
  - destruct Hbs as [|b bs Hb Hbs]; simpl; constructor.
    + destruct Hb; subst; lia.
    + apply IH, Hbs.
Qed.

(** With bits in {0,1}, the sums of [bit * field] are the sums over the
    selected items. *)
Lemma sum_selected (f : Item -> Z) (its : list Item) (bs : list Z) :
  Forall is_bit bs ->
  sumZ (map (fun '(item, bit) => bit * f item) (zip its bs))
  = sumZ (map f (map fst (filter (fun p => snd p = 1) (zip its bs)))).
Proof.
  intros Hbs. revert its. induction Hbs as [|b bs Hb _ IH]; intros [|it its]; simpl; try reflexivity.
  rewrite filter_cons. simpl. rewrite IH.
  destruct Hb; subst; case_decide; simpl; try lia; try congruence.
Qed.

End Fitness.

(** C2: fitness is the summed value of a feasible candidate and minus the
    overshoot of an infeasible one; it never exceeds the summed value,
    equals it exactly for feasible candidates, and is negative for
    infeasible ones. *)
Theorem fitness_value_or_penalty (ind : Individual) :
  Forall nonneg_item (items ind) -> Forall is_bit (bits ind) ->
  (get_total_weight ind <= max_weight ind -> fitness ind = total_value ind) /\
  (max_weight ind < get_total_weight ind ->
     fitness ind = - (get_total_weight ind - max_weight ind) /\ fitness ind < 0) /\
  fitness ind <= total_value ind /\
  (fitness ind = total_value ind <-> get_total_weight ind <= max_weight ind).
Proof.
  intros Hits Hbs.
  assert (Hv : 0 <= total_value ind).
  { destruct ind as [bs its mw]. apply total_value_nonneg; assumption. }
  unfold fitness.
  destruct (Z.leb_spec (get_total_weight ind) (max_weight ind)) as [Hle|Hgt].
  - repeat split; intros; try lia.
  - rewrite Z.abs_eq by lia. repeat split; intros; try lia.
Qed.

Lemma fitness_value_or_penalty_witness :
  let ind := mkIndividual [1; 1; 1; 0] catalog4 5 in
  fitness ind = -4 /\ fitness ind <= total_value ind /\ get_total_weight ind = 9.
Proof.
  intros ind.
  destruct (fitness_value_or_penalty ind) as (_ & H & Hle & _).
  - repeat (apply Forall_cons_2; [split; simpl; lia|]). apply Forall_nil_2.
  - simpl. repeat (apply Forall_cons_2; [first [left; reflexivity | right; reflexivity]|]).
    apply Forall_nil_2.
  - split; [|split; [exact Hle | reflexivity]].
    apply H. vm_compute. reflexivity.
Defined.

(** ** Reasoning about computations *)

Section Invariants.

Variable E : Prop.

Lemma post_bind {A B} (m : M A) (k : A -> M B) (w : World) (Q : B -> World -> Prop) :
  holds E (m w) (fun a w' => holds E (k a w') Q) -> holds E (bind m k w) Q.
Proof. unfold bind. destruct (m w); simpl; auto. Qed.

Lemma post_mono {A} (o : Outcome A) (Q Q' : A -> World -> Prop) :
  holds E o Q -> (forall a w, Q a w -> Q' a w) -> holds E o Q'.
Proof. destruct o; simpl; auto. Qed.

Lemma post_ret {A} (a : A) (w : World) (Q : A -> World -> Prop) :
  Q a w -> holds E (ret a w) Q.
Proof. auto. Qed.

Lemma post_get (r : ref) (w : World) (Q : Individual -> World -> Prop) :
  Q (deref (heap w) r) w -> holds E (get r w) Q.
Proof. auto. Qed.

Lemma later_refl cat mw n0 w : inv cat mw n0 w -> later cat mw n0 w w.
Proof. split; auto. Qed.

Lemma later_trans cat mw n0 w1 w2 w3 :
  later cat mw n0 w1 w2 -> later cat mw n0 w2 w3 -> later cat mw n0 w1 w3.
Proof. intros [_ H1] [H2 H3]. split; [assumption | lia]. Qed.

Lemma live_later cat mw n0 w w' r : later cat mw n0 w w' -> live n0 w r -> live n0 w' r.
Proof. intros [_ Hl] [H1 H2]. split; lia. Qed.

Lemma Forall_live_later cat mw n0 w w' (l : list ref) :
  later cat mw n0 w w' -> Forall (live n0 w) l -> Forall (live n0 w') l.
Proof.
  intros H Hl. eapply Forall_impl; [exact Hl|].
  intros r. apply (live_later _ _ _ _ _ _ H).
Qed.

Lemma deref_lookup (h : list Individual) (r : ref) :
  (r < length h)%nat -> h !! r = Some (deref h r).
Proof.
  intros Hr. unfold deref.
  destruct (nth_lookup_or_length h r default_individual) as [H|H]; [exact H | lia].
Qed.

Lemma live_wf cat mw n0 w r : inv cat mw n0 w -> live n0 w r -> wf_ind cat mw (deref (heap w) r).
Proof.
  intros [Hwf _] [H1 H2]. apply (Hwf r); [assumption|]. apply deref_lookup. assumption.
Qed.

(** *** The random primitives leave the store alone *)

Lemma randbelow_post (n : nat) (w : World) :
  holds E (randbelow n w) (fun j w' => heap w' = heap w /\ ((0 < n)%nat -> (j < n)%nat)).
Proof.
  unfold randbelow, bind, draw, ret. simpl. split; [reflexivity|].
  intros Hn. rewrite N2Nat.inj_mod, Nat2N.id. apply Nat.mod_upper_bound. lia.
Qed.

Lemma random_choice01_post (w : World) :
  holds E (random_choice01 w) (fun b w' => heap w' = heap w /\ is_bit b).
Proof.
  unfold random_choice01. apply post_bind.
  eapply post_mono; [apply randbelow_post|]. intros j w' [Hh Hj]. simpl.
  split; [assumption|].
  assert (j < 2)%nat by (apply Hj; lia).
  destruct j as [|[|j]]; [left | right | lia]; reflexivity.
Qed.

Lemma random_random_post (w : World) :
  holds E (random_random w) (fun _ w' => heap w' = heap w).
Proof. unfold random_random, bind, draw, ret. simpl. reflexivity. Qed.

Lemma random_randint_post (a b : Z) (w : World) :
  (b < a -> E) ->
  holds E (random_randint a b w) (fun p w' => heap w' = heap w /\ a <= p <= b).
Proof.
  intros HE. unfold random_randint. cbn zeta.
  destruct (Z.ltb_spec 0 (b + 1 - a)) as [Hlt|Hle]; [|apply HE; lia].
  apply post_bind. eapply post_mono; [apply randbelow_post|].
  intros j w' [Hh Hj]. simpl. split; [assumption|].
  assert (j < Z.to_nat (b + 1 - a))%nat by (apply Hj; lia). lia.
Qed.

Lemma sample_pool_post {A} (P : A -> Prop) (d : A) (k : nat) :
  forall (pool : list A) (w : World),
    Forall P pool -> (k <= length pool)%nat ->
    holds E (sample_pool d pool k w)
         (fun l w' => heap w' = heap w /\ length l = k /\ Forall P l).
Proof.
  induction k as [|k IH]; intros pool w HP Hk; simpl.
  - repeat split. constructor.
  - apply post_bind. eapply post_mono; [apply randbelow_post|].
    intros j w1 [Hh1 Hj]. apply post_bind.
    assert (Hj' : (j < length pool)%nat) by (apply Hj; lia).
    eapply post_mono.
    + apply IH.
      * apply Forall_take, Forall_insert; [assumption|].
        destruct (nth_lookup_or_length pool (length pool - 1) d) as [H|H]; [|lia].
        apply (Forall_lookup_1 P pool (length pool - 1)); assumption.
      * rewrite length_take, length_insert. lia.
    + intros rest w2 (Hh2 & Hlen & Hrest). simpl.
      split; [congruence|]. split; [lia|].
      constructor; [|assumption].
      destruct (nth_lookup_or_length pool j d) as [H|H]; [|lia].
      apply (Forall_lookup_1 P pool j); assumption.
Qed.

Lemma random_sample_post (P : ref -> Prop) (population : list ref) (k : nat) (w : World) :
  Forall P population -> ((length population < k)%nat -> E) ->
  holds E (random_sample population k w)
       (fun l w' => heap w' = heap w /\ length l = k /\ Forall P l).
Proof.
  intros HP HE. unfold random_sample.
  destruct (Nat.ltb_spec (length population) k) as [Hlt|Hge]; [exact (HE Hlt)|].
  apply sample_pool_post; assumption.
Qed.

(** *** Allocation and update keep the store well formed *)

Lemma new_Individual_post cat mw n0 (bs : list Z) (w : World) :
  inv cat mw n0 w -> length bs = length cat -> Forall is_bit bs ->
  holds E (new_Individual bs cat mw w)
       (fun r w' => later cat mw n0 w w' /\ live n0 w' r /\ r = length (heap w) /\
                    heap w' = heap w ++ [mkIndividual bs cat mw]).
Proof.
  intros [Hwf Hn] Hlen Hbits. simpl.
  assert (Hl : length (heap w ++ [mkIndividual bs cat mw]) = S (length (heap w))).
  { rewrite length_app. simpl. lia. }
  assert (Hwf' : wf_store cat mw n0 (heap w ++ [mkIndividual bs cat mw])).
  { intros r ind Hr Hlk.
    apply lookup_app_Some in Hlk as [Hlk | [Hge Hlk]].
    - apply (Hwf r); assumption.
    - apply list_lookup_singleton_Some in Hlk as [_ <-].
      repeat split; simpl; assumption. }
  unfold later, inv, live. simpl. rewrite Hl.
  split; [split; [split; [exact Hwf' | lia] | lia]|].
  split; [lia|]. split; reflexivity.
Qed.

Lemma set_bit_post cat mw n0 (r : ref) (i : nat) (v : Z) (w : World) :
  inv cat mw n0 w -> is_bit v ->
  holds E (set_bit r i v w)
       (fun _ w' => inv cat mw n0 w' /\ length (heap w') = length (heap w)).
Proof.
  intros [Hwf Hn] Hv. unfold inv. simpl. rewrite length_insert.
  split; [|reflexivity]. split; [|assumption].
  intros r' ind Hr' Hlk.
  apply list_lookup_insert_Some in Hlk as [(Heq & <- & Hlt) | [Hne Hlk]].
  - subst r'. destruct (Hwf r (deref (heap w) r) Hr' (deref_lookup _ _ Hlt)) as (H1 & H2 & H3 & H4).
    repeat split; simpl; try assumption.
    + rewrite length_insert. assumption.
    + apply Forall_insert; assumption.
  - apply (Hwf r'); assumption.
Qed.

Lemma random_bits_post (its : list Item) (w : World) :
  holds E (random_bits its w)
       (fun bs w' => heap w' = heap w /\ length bs = length its /\ Forall is_bit bs).
Proof.
  unfold random_bits. generalize (length its) as n. intros n. revert w.
  induction n as [|n IH]; intros w; simpl.
  - repeat split. constructor.
  - apply post_bind. eapply post_mono; [apply random_choice01_post|].
    intros b w1 [Hh1 Hb]. apply post_bind. eapply post_mono; [apply IH|].
    intros bs w2 (Hh2 & Hlen & Hbs). simpl.
    split; [congruence|]. split; [lia|]. constructor; assumption.
Qed.

(** A loop body that keeps a property of the world keeps it over the
    whole loop. *)
Lemma for_each_post {A} (I : World -> Prop) (body : A -> M unit) (l : list A) :
  (forall x w, I w -> holds E (body x w) (fun _ w' => I w')) ->
  forall w, I w -> holds E (for_each l body w) (fun _ w' => I w').
Proof.
  intros Hbody. induction l as [|x l IH]; intros w HI; simpl.
  - assumption.
  - apply post_bind. eapply post_mono; [apply Hbody; assumption|].
    intros u w1 HI1. apply IH. assumption.
Qed.

Lemma nth_is_bit (bs : list Z) (i : nat) : Forall is_bit bs -> is_bit (nth i bs 0).
Proof.
  intros H. destruct (nth_lookup_or_length bs i 0) as [Hl|Hl].
  - apply (Forall_lookup_1 _ _ _ _ H Hl).
  - rewrite nth_overflow by lia. left. reflexivity.
Qed.

Lemma flip_is_bit (b : Z) : is_bit b -> is_bit (1 - b).
Proof. intros [->| ->]; [right | left]; reflexivity. Qed.

Lemma mutate_post cat mw n0 (individuals : list ref) (rate : Q) (w : World) :
  inv cat mw n0 w -> Forall (live n0 w) individuals ->
  holds E (mutate individuals rate w)
       (fun _ w' => inv cat mw n0 w' /\ length (heap w') = length (heap w)).
Proof.
  intros Hinv Hlive. unfold mutate.
  set (I := fun w' => (inv cat mw n0 w' /\ length (heap w') = length (heap w))
                      /\ Forall (live n0 w') individuals).
  cut (holds E (for_each individuals
               (fun individual =>
                  do ind <- get individual;
                  for_each (seq 0 (length (bits ind)))
                    (fun i => do u <- random_random;
                              if negb (Qle_bool rate u)
                              then do ind0 <- get individual;
                                   set_bit individual i (1 - nth i (bits ind0) 0)
                              else ret tt)) w) (fun _ w' => I w')).
  { intros H. eapply post_mono; [exact H|]. intros u w1 [H1 _]. exact H1. }
  assert (HI : forall x w1, x ∈ individuals -> I w1 ->
     holds E ((do ind <- get x;
            for_each (seq 0 (length (bits ind)))
              (fun i => do u <- random_random;
                        if negb (Qle_bool rate u)
                        then do ind0 <- get x;
                             set_bit x i (1 - nth i (bits ind0) 0)
                        else ret tt)) w1) (fun _ w' => I w')).
  { intros x w1 Hx HI1. apply post_bind. simpl.
    apply for_each_post; [|assumption].
    intros i w2 [[Hinv2 Hlen2] Hlive2]. apply post_bind.
    eapply post_mono; [apply random_random_post|].
    intros u w3 Hh3.
    assert (HI3 : I w3).
    { unfold I, inv, live in *. rewrite Hh3. auto. }
    destruct (negb (Qle_bool rate u)); [|apply post_ret; assumption].
    apply post_bind. simpl.
    destruct HI3 as [[Hinv3 Hlen3] Hlive3].
    assert (Hx3 : live n0 w3 x).
    { rewrite Forall_forall in Hlive3. apply Hlive3. assumption. }
    pose proof (live_wf _ _ _ _ _ Hinv3 Hx3) as (_ & _ & _ & Hb).
    pose proof (set_bit_post cat mw n0 x i (1 - nth i (bits (deref (heap w3) x)) 0) w3
                  Hinv3 (flip_is_bit _ (nth_is_bit _ i Hb))) as Hs.
    simpl in Hs. destruct Hs as [Hinv4 Hlen4].
    split; [split; [assumption | simpl in *; congruence]|].
    eapply Forall_impl; [exact Hlive3|].
    intros r [Hr1 Hr2]. split; [assumption|]. simpl. rewrite length_insert. assumption. }
  assert (Hgen : forall l w1, (forall x, x ∈ l -> x ∈ individuals) -> I w1 ->
     holds E (for_each l
               (fun individual =>
                  do ind <- get individual;
                  for_each (seq 0 (length (bits ind)))
                    (fun i => do u <- random_random;
                              if negb (Qle_bool rate u)
                              then do ind0 <- get individual;
                                   set_bit individual i (1 - nth i (bits ind0) 0)
                              else ret tt)) w1) (fun _ w' => I w')).
  { induction l as [|x l IH]; intros w1 Hsub HI1; simpl.
    - assumption.
    - apply post_bind. eapply post_mono.
      + apply HI; [apply Hsub; left | assumption].
      + intros u w2 HI2. apply IH; [|assumption].
        intros y Hy. apply Hsub. right. assumption. }
  apply Hgen; [auto|]. unfold I. auto.
Qed.

(** *** Selection, crossover and the generation transition *)

Lemma max_by_fitness_elem (h : list Individual) (l : list ref) (r : ref) :
  max_by_fitness h l = Some r -> r ∈ l.
Proof.
  revert r. induction l as [|x l IH]; intros r; simpl; [discriminate|].
  destruct (max_by_fitness h l) as [y|].
  - destruct (fitness (deref h y) >? fitness (deref h x)); intros [= <-].
    + right. apply IH. reflexivity.
    + left.
  - intros [= <-]. left.
Qed.

Lemma max_by_fitness_nonempty (h : list Individual) (l : list ref) :
  l <> [] -> exists r, max_by_fitness h l = Some r.
Proof.
  destruct l as [|x l]; [congruence|]. intros _. simpl.
  destruct (max_by_fitness h l) as [y|]; [|eauto].
  destruct (fitness (deref h y) >? fitness (deref h x)); eauto.
Qed.

Lemma max_fitness_post (P : ref -> Prop) (l : list ref) (w : World) :
  Forall P l -> (l = [] -> E) ->
  holds E (max_fitness l w) (fun r w' => w' = w /\ P r /\ max_by_fitness (heap w) l = Some r).
Proof.
  intros HP HE. unfold max_fitness.
  destruct (max_by_fitness (heap w) l) as [r|] eqn:Hmax; simpl.
  - repeat split. rewrite Forall_forall in HP. apply HP.
    apply max_by_fitness_elem with (h := heap w). assumption.
  - apply HE. destruct l as [|x l]; [reflexivity|].
    destruct (max_by_fitness_nonempty (heap w) (x :: l)) as [r Hr]; [discriminate | congruence].
Qed.

Lemma selection_post (P : ref -> Prop) (population : list ref) (w : World) :
  Forall P population ->
  holds E (selection population w)
       (fun parents w' => heap w' = heap w /\ Forall P parents /\
                          length parents = Nat.min 2 (length population)).
Proof.
  intros HP. unfold selection.
  destruct (Nat.ltb_spec (length population) 4) as [Hlt|Hge].
  - eapply post_mono; [apply (random_sample_post P); [assumption | lia]|].
    intros l w' (H1 & H2 & H3). auto.
  - apply post_bind. eapply post_mono; [apply (random_sample_post P); [assumption | lia]|].
    intros t1 w1 (Hh1 & Hl1 & Ht1). apply post_bind.
    eapply post_mono; [apply (max_fitness_post P); [assumption | intros ->; discriminate]|].
    intros r1 w1' (-> & Hr1 & _). apply post_bind.
    eapply post_mono; [apply (random_sample_post P); [assumption | lia]|].
    intros t2 w2 (Hh2 & Hl2 & Ht2). apply post_bind.
    eapply post_mono; [apply (max_fitness_post P); [assumption | intros ->; discriminate]|].
    intros r2 w2' (-> & Hr2 & _). apply post_ret.
    split; [congruence|].
    split; [apply Forall_cons_2; [|apply Forall_cons_2; [|apply Forall_nil_2]]; assumption|].
    rewrite Nat.min_l by lia. reflexivity.
Qed.

Lemma crossover_post cat mw n0 (parents : list ref) (rate : Q) (w : World) :
  inv cat mw n0 w -> Forall (live n0 w) parents -> ((length cat < 2)%nat -> E) ->
  holds E (crossover parents cat mw rate w)
       (fun children w' => later cat mw n0 w w' /\ Forall (live n0 w') children /\
                           (length children = length parents \/ length children = 2%nat)).
Proof.
  intros Hinv Hlive HE. unfold crossover.
  destruct (Nat.ltb_spec (length parents) 2) as [Hlt|Hge].
  { apply post_ret. split; [apply later_refl; assumption|]. auto. }
  apply post_bind. eapply post_mono; [apply random_random_post|].
  intros u w1 Hh1.
  assert (Hinv1 : inv cat mw n0 w1) by (unfold inv in *; rewrite Hh1; assumption).
  assert (Hlive1 : Forall (live n0 w1) parents) by (unfold live in *; rewrite Hh1; assumption).
  assert (Hlat1 : later cat mw n0 w w1) by (split; [assumption | rewrite Hh1; lia]).
  destruct (negb (Qle_bool u rate)).
  { apply post_ret. auto. }
  apply post_bind. eapply post_mono; [apply random_randint_post; intros; apply HE; lia|].
  intros p w2 [Hh2 Hp].
  assert (Hinv2 : inv cat mw n0 w2) by (unfold inv in *; rewrite Hh2; assumption).
  assert (Hlive2 : Forall (live n0 w2) parents) by (unfold live in *; rewrite Hh2; assumption).
  apply post_bind, post_get. apply post_bind, post_get.
  destruct parents as [|r0 [|r1 parents]]; simpl in Hge; try lia. cbn [nth].
  apply Forall_cons in Hlive2 as [Hr0 Hrest]. apply Forall_cons in Hrest as [Hr1 _].
  destruct (live_wf _ _ _ _ _ Hinv2 Hr0) as (_ & _ & Hl0 & Hb0).
  destruct (live_wf _ _ _ _ _ Hinv2 Hr1) as (_ & _ & Hl1 & Hb1).
  set (b0 := bits (deref (heap w2) r0)) in *.
  set (b1 := bits (deref (heap w2) r1)) in *.
  assert (Hlen : forall x y : list Z, length x = length cat -> length y = length cat ->
                   length (take (Z.to_nat p) x ++ drop (Z.to_nat p) y) = length cat).
  { intros x y Hx Hy. rewrite length_app, length_take, length_drop. lia. }
  assert (Hbit : forall x y : list Z, Forall is_bit x -> Forall is_bit y ->
                   Forall is_bit (take (Z.to_nat p) x ++ drop (Z.to_nat p) y)).
  { intros x y Hx Hy. apply Forall_app. split; [apply Forall_take | apply Forall_drop]; assumption. }
  apply post_bind. eapply post_mono.
  { apply (new_Individual_post cat mw n0); [exact Hinv2 | apply Hlen | apply Hbit]; assumption. }
  intros c1 w3 (Hlat3 & Hc1 & _ & _).
  apply post_bind. eapply post_mono.
  { apply (new_Individual_post cat mw n0); [exact (proj1 Hlat3) | apply Hlen | apply Hbit]; assumption. }
  intros c2 w4 (Hlat4 & Hc2 & _ & _). simpl.
  split.
  - eapply later_trans; [|exact Hlat4]. eapply later_trans; [|exact Hlat3].
    split; [assumption|]. rewrite Hh2, Hh1. lia.
  - split; [|right; reflexivity].
    apply Forall_cons_2; [|apply Forall_cons_2; [assumption | apply Forall_nil_2]].
    apply (live_later _ _ _ _ _ _ Hlat4). assumption.
Qed.

Lemma insert_desc_Forall (P : ref -> Prop) h x l :
  P x -> Forall P l -> Forall P (insert_desc h x l).
Proof.
  intros Hx. induction 1 as [|y l Hy Hl IH]; simpl.
  - apply Forall_cons_2; [assumption | apply Forall_nil_2].
  - destruct (fitness (deref h y) <=? fitness (deref h x));
      repeat (apply Forall_cons_2; try assumption).
Qed.

Lemma sorted_desc_Forall (P : ref -> Prop) h l : Forall P l -> Forall P (sorted_desc h l).
Proof.
  induction 1 as [|x l Hx Hl IH]; simpl; [constructor|].
  apply insert_desc_Forall; assumption.
Qed.

Lemma insert_desc_length h x l : length (insert_desc h x l) = S (length l).
Proof.
  induction l as [|y l IH]; simpl; [reflexivity|].
  destruct (fitness (deref h y) <=? fitness (deref h x)); simpl; lia.
Qed.

Lemma sorted_desc_length h l : length (sorted_desc h l) = length l.
Proof.
  induction l as [|x l IH]; simpl; [reflexivity|].
  rewrite insert_desc_length. lia.
Qed.

Lemma fill_next_gen_post cat mw n0 (population : list ref) (cr mr : Q) (fuel : nat) :
  forall (next_gen : list ref) (w : World),
    inv cat mw n0 w -> Forall (live n0 w) population -> Forall (live n0 w) next_gen ->
    (length population <= fuel + length next_gen)%nat -> ((length cat < 2)%nat -> E) ->
    holds E (fill_next_gen fuel population cat mw cr mr next_gen w)
         (fun l w' => later cat mw n0 w w' /\ Forall (live n0 w') l /\
                      (length population <= length l)%nat /\
                      exists rest, l = next_gen ++ rest).
Proof.
  induction fuel as [|fuel IH]; intros next_gen w Hinv Hpop Hng Hfuel HE; simpl;
    destruct (Nat.ltb_spec (length next_gen) (length population)) as [Hlt|Hge]; try lia;
    try (apply post_ret; split; [apply later_refl; assumption|];
         split; [assumption|]; split; [lia|]; exists []; rewrite app_nil_r; reflexivity).
  apply post_bind. eapply post_mono; [apply (selection_post (live n0 w)); assumption|].
  intros parents w1 (Hh1 & Hpar & Hplen).
  assert (Hinv1 : inv cat mw n0 w1) by (unfold inv in *; rewrite Hh1; assumption).
  assert (Heq1 : forall l, Forall (live n0 w) l -> Forall (live n0 w1) l).
  { intros l. unfold live. rewrite Hh1. auto. }
  apply post_bind. eapply post_mono; [apply (crossover_post cat mw n0); auto|].
  intros children w2 (Hlat2 & Hch & Hclen).
  apply post_bind. eapply post_mono; [apply (mutate_post cat mw n0); [apply Hlat2 | assumption]|].
  intros u w3 [Hinv3 Hlen3].
  assert (Hlat13 : later cat mw n0 w1 w3).
  { split; [assumption|]. destruct Hlat2 as [_ Hl2]. lia. }
  assert (Hkeep : forall l, Forall (live n0 w) l -> Forall (live n0 w3) l).
  { intros l Hl. apply (Forall_live_later _ _ _ _ _ _ Hlat13). auto. }
  eapply post_mono.
  - apply IH; [assumption | auto | | | assumption].
    + apply Forall_app. split; [auto|].
      eapply Forall_impl; [exact Hch|]. intros r [Hr1 Hr2]. split; lia.
    + rewrite length_app. lia.
  - intros l w4 (Hlat4 & Hl & Hlen & rest & ->). simpl.
    split.
    + eapply later_trans; [|exact Hlat4].
      split; [assumption|]. destruct Hlat13 as [_ H13]. rewrite <- Hh1. assumption.
    + split; [assumption|]. split; [assumption|].
      exists (children ++ rest). rewrite app_assoc. reflexivity.
Qed.

Lemma elite_count_le (population : list ref) :
  population <> [] -> (elite_count population <= length population)%nat.
Proof.
  intros Hne. unfold elite_count.
  assert (1 <= length population)%nat by (destruct population; [congruence | simpl; lia]).
  pose proof (Nat.Div0.div_le_upper_bound (length population) 10 (length population)) as Hd.
  apply Nat.max_lub; [assumption|]. apply Hd. lia.
Qed.

Lemma next_generation_post cat mw n0 (population : list ref) (cr mr : Q) (w : World) :
  inv cat mw n0 w -> Forall (live n0 w) population -> ((length cat < 2)%nat -> E) ->
  holds E (next_generation population cat mw cr mr w)
       (fun l w' => later cat mw n0 w w' /\ Forall (live n0 w') l /\
                    length l = length population /\
                    take (elite_count population) l
                    = take (elite_count population) (sorted_desc (heap w) population)).
Proof.
  intros Hinv Hpop HE. unfold next_generation. apply post_bind.
  unfold sorted_by_fitness_desc. cbn [holds].
  apply post_bind. eapply post_mono.
  - apply (fill_next_gen_post cat mw n0); [assumption | assumption | | lia | assumption].
    apply Forall_take, sorted_desc_Forall. assumption.
  - intros l w' (Hlat & Hl & Hlen & rest & ->). simpl.
    split; [assumption|]. split; [apply Forall_take; assumption|].
    split; [rewrite length_take; lia|].
    destruct population as [|x population].
    + reflexivity.
    + set (pop := x :: population) in *.
      assert (He : (elite_count pop <= length pop)%nat) by (apply elite_count_le; discriminate).
      rewrite take_take, Nat.min_l by assumption.
      rewrite take_app_le.
      * rewrite take_take, Nat.min_id. reflexivity.
      * rewrite length_take, sorted_desc_length. lia.
Qed.

(** *** The initial population *)

Lemma arrange_post {A} (P : A -> Prop) (d : A) (salt : nat -> N) (k : nat) :
  forall (i : nat) (pool : list A),
    Forall P pool -> (k <= length pool)%nat ->
    length (arrange d salt i pool k) = k /\ Forall P (arrange d salt i pool k).
Proof.
  induction k as [|k IH]; intros i pool HP Hk; simpl.
  - split; [reflexivity | constructor].
  - set (j := N.to_nat (salt i mod N.of_nat (length pool))%N).
    assert (Hj : (j < length pool)%nat).
    { unfold j. rewrite N2Nat.inj_mod, Nat2N.id. apply Nat.mod_upper_bound. lia. }
    destruct (IH (S i) (take j pool ++ drop (S j) pool)) as [Hlen HF].
    + apply Forall_app. split; [apply Forall_take | apply Forall_drop]; assumption.
    + rewrite length_app, length_take, length_drop. lia.
    + split; [lia|]. apply Forall_cons_2; [|assumption].
      destruct (nth_lookup_or_length pool j d) as [H|H]; [|lia].
      apply (Forall_lookup_1 P pool j); assumption.
Qed.

Lemma set_add_fresh (r : ref) (s : list ref) :
  Forall (fun x => (x < r)%nat) s -> set_add r s = s ++ [r].
Proof.
  intros Hs. unfold set_add. case_decide as Hin; [|reflexivity].
  rewrite Forall_forall in Hs. apply Hs in Hin. lia.
Qed.

(** One draw of the initializer: a fresh object joins the set. *)
Lemma init_draw_post cat mw n0 (population : list ref) (w : World) :
  inv cat mw n0 w -> Forall (live n0 w) population ->
  holds E ((do bs <- random_bits cat; new_Individual bs cat mw) w)
       (fun r w' => later cat mw n0 w w' /\ Forall (live n0 w') (set_add r population) /\
                    length (set_add r population) = S (length population)).
Proof.
  intros Hinv Hpop. apply post_bind. eapply post_mono; [apply random_bits_post|].
  intros bs w1 (Hh1 & Hlen & Hbs).
  assert (Hinv1 : inv cat mw n0 w1) by (unfold inv in *; rewrite Hh1; assumption).
  eapply post_mono; [apply (new_Individual_post cat mw n0); assumption|].
  intros r w2 (Hlat & Hr & Hrl & _). simpl.
  assert (Hlat' : later cat mw n0 w w2).
  { split; [apply Hlat|]. destruct Hlat as [_ Hl]. rewrite <- Hh1. assumption. }
  rewrite set_add_fresh.
  - split; [assumption|]. split.
    + apply Forall_app. split.
      * apply (Forall_live_later _ _ _ _ _ _ Hlat'). assumption.
      * apply Forall_cons_2; [assumption | apply Forall_nil_2].
    + rewrite length_app. simpl. lia.
  - eapply Forall_impl; [exact Hpop|]. intros x [_ Hx]. rewrite Hrl, Hh1. assumption.
Qed.

Lemma init_attempts_post cat mw n0 (count : Z) (attempts : nat) :
  forall (population : list ref) (w : World),
    inv cat mw n0 w -> Forall (live n0 w) population ->
    Z.of_nat (length population) <= Z.max 0 count ->
    Z.max 0 count <= Z.of_nat (length population) + Z.of_nat attempts ->
    holds E (init_attempts attempts count cat mw population w)
         (fun l w' => later cat mw n0 w w' /\ Forall (live n0 w') l /\
                      Z.of_nat (length l) = Z.max 0 count).
Proof.
  induction attempts as [|a IH]; intros population w Hinv Hpop Hle Hge; simpl.
  - split; [apply later_refl; assumption|]. split; [assumption | lia].
  - destruct (Z.ltb_spec (Z.of_nat (length population)) count) as [Hlt|Hnlt].
    + pose proof (init_draw_post cat mw n0 population w Hinv Hpop) as Hd.
      unfold bind in Hd |- *.
      destruct (random_bits cat w) as [bs w1| |]; try exact Hd.
      destruct (new_Individual bs cat mw w1) as [r w2| |]; try exact Hd.
      simpl in Hd. destruct Hd as (Hlat & Hl & Hlen).
      eapply post_mono; [apply IH; [apply Hlat | assumption | lia | lia]|].
      intros l w3 (Hlat3 & Hl3 & Hlen3). simpl.
      split; [eapply later_trans; eassumption | auto].
    + split; [apply later_refl; assumption|]. split; [assumption | lia].
Qed.

(** The second loop finds the population complete and does not run. *)
Lemma init_fill_complete (fuel : nat) (count : Z) its mw (population : list ref) (w : World) :
  count <= Z.of_nat (length population) ->
  init_fill fuel count its mw population w = Ok population w.
Proof.
  intros H. destruct fuel; simpl;
    (destruct (Z.ltb_spec (Z.of_nat (length population)) count); [lia | reflexivity]).
Qed.

Lemma generate_initial_population_post cat mw (count : Z) (w : World) :
  holds E (generate_initial_population count cat mw w)
       (fun l w' => later cat mw (length (heap w)) w w' /\
                    Forall (live (length (heap w)) w') l /\
                    Z.of_nat (length l) = Z.max 0 count).
Proof.
  unfold generate_initial_population.
  assert (Hinv : inv cat mw (length (heap w)) w).
  { split; [|lia]. intros r ind Hr Hlk. apply lookup_lt_Some in Hlk. lia. }
  apply post_bind. eapply post_mono.
  - apply (init_attempts_post cat mw (length (heap w)));
      [assumption | constructor | cbn [length]; lia | cbn [length]; lia].
  - intros l w1 (Hlat & Hl & Hlen). apply post_bind.
    rewrite init_fill_complete by lia. unfold list_of_set. cbn [holds].
    destruct (arrange_post (live (length (heap w)) w1) 0%nat (hsalt w1) (length l) 0%nat l Hl)
      as [Ha1 Ha2]; [lia|].
    split; [assumption|]. split; [assumption |].
    rewrite <- Hlen. f_equal. exact Ha1.
Qed.

(** *** The generational loop *)

Lemma fitness_of_post (o : option ref) (w : World) :
  (o = None -> E) -> holds E (fitness_of o w) (fun _ w' => w' = w).
Proof. intros HE. destruct o; simpl; auto. Qed.

Lemma generation_step_post cat mw n0 (cr mr : Q) (st : LoopState) (w : World) :
  inv cat mw n0 w -> state_ok n0 w st ->
  ((length cat < 2)%nat -> E) -> (fst st = [] -> E) -> (snd st = None -> E) ->
  holds E (generation_step cat mw cr mr st w)
       (fun st' w' => later cat mw n0 w w' /\ state_ok n0 w' st' /\
                      length (fst st') = length (fst st) /\ snd st' <> None).
Proof.
  intros Hinv [Hpop Hbest] HE Hne Hsome. destruct st as [population best].
  unfold generation_step. simpl in Hpop, Hbest, Hne, Hsome.
  apply post_bind. eapply post_mono; [apply (next_generation_post cat mw n0); assumption|].
  intros pop' w1 (Hlat & Hpop' & Hlen & _).
  apply post_bind. eapply post_mono.
  { apply (max_fitness_post (live n0 w1)); [assumption|].
    intros ->. apply Hne. destruct population; [reflexivity | discriminate]. }
  intros cur w1' (-> & Hcur & _).
  apply post_bind. eapply post_mono; [apply fitness_of_post; discriminate|].
  intros f1 w1' ->.
  apply post_bind.
  destruct best as [b|]; [|exact (Hsome eq_refl)].
  eapply post_mono; [apply fitness_of_post; discriminate|].
  intros f2 w1' ->.
  assert (Hbest1 : live n0 w1 b).
  { apply (live_later _ _ _ _ _ _ Hlat). assumption. }
  destruct (f1 >? f2); apply post_ret; unfold state_ok; cbn [fst snd live_opt];
    (split; [assumption|]); (split; [split; assumption|]); (split; [assumption | discriminate]).
Qed.

Lemma evolve_post cat mw n0 (cr mr : Q) (g : nat) :
  forall (st : LoopState) (w : World),
    inv cat mw n0 w -> state_ok n0 w st ->
    ((length cat < 2)%nat -> E) -> (fst st = [] -> E) -> (snd st = None -> E) ->
    holds E (evolve g cat mw cr mr st w)
         (fun st' w' => later cat mw n0 w w' /\ state_ok n0 w' st' /\
                        length (fst st') = length (fst st)).
Proof.
  induction g as [|g IH]; intros st w Hinv Hst HE Hne Hsome; simpl.
  - split; [apply later_refl; assumption|]. split; [assumption | reflexivity].
  - apply post_bind. eapply post_mono; [apply (generation_step_post cat mw n0); assumption|].
    intros st1 w1 (Hlat1 & Hst1 & Hlen1 & Hsome1).
    eapply post_mono.
    + apply IH; [apply Hlat1 | assumption | assumption | | ].
      * intros H1. apply Hne. rewrite H1 in Hlen1. destruct (fst st); [reflexivity | discriminate].
      * intros H1. contradiction.
    + intros st2 w2 (Hlat2 & Hst2 & Hlen2). simpl.
      split; [eapply later_trans; eassumption|]. split; [assumption | congruence].
Qed.

Lemma live_population_ok cat mw n0 (size : Z) (w : World) (population : list ref) :
  inv cat mw n0 w -> Forall (live n0 w) population ->
  Z.of_nat (length population) = size -> population_ok cat size w population.
Proof.
  intros Hinv Hpop Hlen. split; [assumption|].
  eapply Forall_impl; [exact Hpop|]. intros r Hr.
  destruct (live_wf _ _ _ _ _ Hinv Hr) as (_ & _ & H1 & H2).
  destruct Hr as [_ Hr]. auto.
Qed.

Lemma run_search_post cat mw (size generations : Z) (cr mr : Q) (w : World) :
  ((length cat < 2)%nat -> E) -> (size <= 0 -> E) ->
  holds E (run_search cat mw size generations cr mr w)
       (fun st w' => inv cat mw (length (heap w)) w' /\ state_ok (length (heap w)) w' st /\
                     Z.of_nat (length (fst st)) = Z.max 0 size).
Proof.
  intros HE Hsize. unfold run_search. apply post_bind.
  eapply post_mono; [apply generate_initial_population_post|].
  intros pop w1 (Hlat & Hpop & Hlen). apply post_bind.
  unfold max_fitness_default. cbn [holds].
  eapply post_mono.
  - apply (evolve_post cat mw (length (heap w))); [apply Hlat | | assumption | |].
    + split; [exact Hpop|]. simpl.
      destruct (max_by_fitness (heap w1) pop) as [r|] eqn:Hmax; simpl; [|exact I].
      apply max_by_fitness_elem in Hmax. rewrite Forall_forall in Hpop. apply Hpop. assumption.
    + simpl. intros ->. apply Hsize. simpl in Hlen. lia.
    + simpl. intros Hnone. apply Hsize.
      destruct pop as [|x pop]; [simpl in Hlen; lia|].
      destruct (max_by_fitness_nonempty (heap w1) (x :: pop)) as [r Hr]; [discriminate | congruence].
  - intros st w2 (Hlat2 & Hst & Hlen2). simpl in Hlen2.
    split; [apply Hlat2|]. split; [assumption | congruence].
Qed.

End Invariants.

(** *** The initializer raises nothing *)

Lemma no_raise_bind {A B} (m : M A) (k : A -> M B) :
  no_raise m -> (forall a, no_raise (k a)) -> no_raise (bind m k).
Proof.
  intros Hm Hk w e w'. unfold bind.
  destruct (m w) as [a w1|e1 w1|] eqn:E.
  - apply Hk.
  - exfalso. apply (Hm w e1 w1). assumption.
  - discriminate.
Qed.

Lemma no_raise_ret {A} (a : A) : no_raise (ret a).
Proof. intros w e w'. discriminate. Qed.

Lemma no_raise_random_bits (its : list Item) : no_raise (random_bits its).
Proof.
  unfold random_bits. induction (length its) as [|n IH]; simpl.
  - apply no_raise_ret.
  - apply no_raise_bind; [intros w e w'; discriminate|].
    intros b. apply no_raise_bind; [assumption|]. intros bs. apply no_raise_ret.
Qed.

Lemma no_raise_init_attempts (count : Z) its mw (attempts : nat) :
  forall population, no_raise (init_attempts attempts count its mw population).
Proof.
  induction attempts as [|a IH]; intros population; simpl.
  - apply no_raise_ret.
  - destruct (Z.of_nat (length population) <? count); [|apply no_raise_ret].
    apply no_raise_bind; [apply no_raise_random_bits|]. intros bs.
    apply no_raise_bind; [intros w e w'; discriminate|]. intros r. apply IH.
Qed.

Lemma no_raise_init_fill (count : Z) its mw (fuel : nat) :
  forall population, no_raise (init_fill fuel count its mw population).
Proof.
  induction fuel as [|f IH]; intros population; simpl;
    (destruct (Z.of_nat (length population) <? count); [|apply no_raise_ret]).
  - intros w e w'. discriminate.
  - apply no_raise_bind; [apply no_raise_random_bits|]. intros bs.
    apply no_raise_bind; [intros w e w'; discriminate|]. intros r. apply IH.
Qed.

Lemma no_raise_generate_initial_population (count : Z) its mw :
  no_raise (generate_initial_population count its mw).
Proof.
  unfold generate_initial_population.
  apply no_raise_bind; [apply no_raise_init_attempts|]. intros p1.
  apply no_raise_bind; [apply no_raise_init_fill|]. intros p2.
  intros w e w'. discriminate.
Qed.

Lemma post_no_raise {A} (m : M A) (w : World) (Q : A -> World -> Prop) :
  no_raise m -> post (m w) Q -> exists a w', m w = Ok a w' /\ Q a w'.
Proof.
  intros Hn Hp. destruct (m w) as [a w'|e w'|] eqn:E.
  - eauto.
  - exfalso. apply (Hn w e w'). assumption.
  - destruct Hp.
Qed.

(** C6: the initializer returns exactly [size] candidates; after any
    number of generations the working population still has [size]
    candidates, and a single transition keeps the size of the population
    it starts from; every candidate of every one of these populations has
    one bit in {0,1} per catalog item.  The generations end in an
    exception only over a catalog of fewer than two items, or with an
    empty population. *)
Theorem population_size_and_bits (cat : list Item) (mw size : Z) (cr mr : Q) (w : World) :
  0 <= size ->
  exists population w1,
    generate_initial_population size cat mw w = Ok population w1 /\
    population_ok cat size w1 population /\
    (forall g : nat,
       holds ((length cat < 2)%nat \/ size = 0)
             (evolve g cat mw cr mr (population, max_by_fitness (heap w1) population) w1)
             (fun st w2 => population_ok cat size w2 (fst st))) /\
    (forall (w2 : World) (population2 : list ref),
       later cat mw (length (heap w)) w1 w2 ->
       Forall (live (length (heap w)) w2) population2 ->
       holds (length cat < 2)%nat
             (next_generation population2 cat mw cr mr w2)
             (fun population3 w3 =>
                length population3 = length population2 /\
                population_ok cat (Z.of_nat (length population2)) w3 population3)).
Proof.
  intros Hsize.
  destruct (post_no_raise _ w _ (no_raise_generate_initial_population size cat mw)
              (generate_initial_population_post True cat mw size w))
    as (population & w1 & Hrun & Hlat & Hpop & Hlen).
  rewrite Z.max_r in Hlen by assumption.
  exists population, w1. split; [assumption|].
  split; [apply (live_population_ok cat mw (length (heap w))); [apply Hlat | assumption..]|].
  split.
  - intros g. eapply post_mono.
    + apply (evolve_post _ cat mw (length (heap w))); [apply Hlat | | | |]; cbn [fst snd].
      * split; [assumption|]. cbn [snd].
        destruct (max_by_fitness (heap w1) population) as [r|] eqn:Hmax; simpl; [|exact I].
        apply max_by_fitness_elem in Hmax. rewrite Forall_forall in Hpop. apply Hpop. assumption.
      * intros H. left. exact H.
      * intros ->. right. simpl in Hlen. lia.
      * intros Hnone. right. destruct population as [|x l]; [simpl in Hlen; lia|].
        destruct (max_by_fitness_nonempty (heap w1) (x :: l)) as [r Hr]; [discriminate | congruence].
    + intros st w2 (Hlat2 & [Hpop2 _] & Hlen2). simpl in Hlen2.
      apply (live_population_ok cat mw (length (heap w))); [apply Hlat2 | assumption | congruence].
  - intros w2 population2 Hlat2 Hpop2. eapply post_mono.
    + apply (next_generation_post _ cat mw (length (heap w))); [apply Hlat2 | assumption | auto].
    + intros population3 w3 (Hlat3 & Hpop3 & Hlen3 & _). split; [assumption|].
      apply (live_population_ok cat mw (length (heap w))); [apply Hlat3 | assumption | congruence].
Qed.

Lemma population_size_and_bits_witness :
  exists population w1,
    generate_initial_population 2 catalog4 5 (world0 [1; 1; 0; 0; 1; 1; 1; 1]%N)
    = Ok population w1 /\
    population_ok catalog4 2 w1 population.
Proof.
  destruct (population_size_and_bits catalog4 5 2 default_crossover_rate default_mutation_rate
              (world0 [1; 1; 0; 0; 1; 1; 1; 1]%N))
    as (population & w1 & Hrun & Hok & _).
  - lia.
  - exists population, w1. split; assumption.
Defined.

(** ** The answer of [solve_knapsack] *)

(** The answer computed from the best-so-far candidate [best] under cap
    [mw]: its selected items with their summed value and weight when it
    fits, the empty knapsack otherwise. *)
Lemma project_result_spec cat mw n0 (best : option ref) (w : World) :
  inv cat mw n0 w -> live_opt n0 w best ->
  exists sel tv tw,
    project_result mw best w = Ok (Result sel tv tw) w /\
    match best with
    | Some r =>
        let b := deref (heap w) r in
        (get_total_weight b <= mw ->
           sel = get_selected_items b /\ tv = sumZ (map value sel) /\
           tw = sumZ (map weight sel) /\ tw = get_total_weight b) /\
        (mw < get_total_weight b -> sel = [] /\ tv = 0 /\ tw = 0)
    | None => sel = [] /\ tv = 0 /\ tw = 0
    end.
Proof.
  intros Hinv Hbest. destruct best as [r|]; simpl.
  - destruct (live_wf _ _ _ _ _ Hinv Hbest) as (_ & Hmw & _ & Hbits).
    unfold bind, get.
    destruct (Z.leb_spec (get_total_weight (deref (heap w) r)) mw) as [Hle|Hgt].
    + eexists _, _, _. split; [reflexivity|]. split; [|lia]. intros _.
      split; [reflexivity|]. unfold fitness. rewrite Hmw.
      destruct (Z.leb_spec (get_total_weight (deref (heap w) r)) mw); [|lia].
      unfold total_value, get_total_weight, get_selected_items.
      rewrite !sum_selected by assumption. auto.
    + eexists _, _, _. split; [reflexivity|]. split; [lia | auto].
  - eexists _, _, _. split; [reflexivity | auto].
Qed.

(** C1, as the code has it: a success answer of [solve_knapsack] is the
    projection of the final best-so-far candidate, its selected items
    with their summed value and weight when its weight is within the cap
    and the empty knapsack otherwise; when the cap is not negative the
    reported weight never exceeds it. *)
Theorem solve_result_within_cap (data : Request) (w w' : World)
    (sel : list Item) (tv tw : Z) :
  solve_knapsack (Some data) w = Ok (Result sel tv tw) w' ->
  let cat := default [] (req_items data) in
  let mw := default 15 (req_max_weight data) in
  (0 <= mw -> tw <= mw) /\
  exists st : LoopState,
    run_search cat mw (default 6 (req_population_size data))
               (default 100 (req_generations data))
               (default default_crossover_rate (req_crossover_rate data))
               (default default_mutation_rate (req_mutation_rate data)) w = Ok st w' /\
    match snd st with
    | Some r =>
        let b := deref (heap w') r in
        (get_total_weight b <= mw ->
           sel = get_selected_items b /\ tv = sumZ (map value sel) /\
           tw = sumZ (map weight sel) /\ tw = get_total_weight b) /\
        (mw < get_total_weight b -> sel = [] /\ tv = 0 /\ tw = 0)
    | None => sel = [] /\ tv = 0 /\ tw = 0
    end.
Proof.
  intros Hrun cat mw. unfold solve_knapsack, try_except in Hrun.
  destruct (empty_request data); [discriminate|].
  fold cat mw in Hrun.
  destruct cat as [|it cat'] eqn:Ecat; [discriminate|]. rewrite <- Ecat in *.
  unfold bind in Hrun.
  pose proof (run_search_post True cat mw (default 6 (req_population_size data))
                (default 100 (req_generations data))
                (default default_crossover_rate (req_crossover_rate data))
                (default default_mutation_rate (req_mutation_rate data)) w
                (fun _ => I) (fun _ => I)) as Hpost.
  destruct (run_search cat mw _ _ _ _ w) as [st w1|e w1|]; [| discriminate | discriminate].
  destruct Hpost as (Hinv & [_ Hbest] & _).
  destruct (project_result_spec cat mw _ (snd st) w1 Hinv Hbest)
    as (sel1 & tv1 & tw1 & Hproj & Hshape).
  rewrite Hproj in Hrun. injection Hrun as -> -> -> ->.
  split.
  - intros Hmw. destruct (snd st) as [r|].
    + destruct Hshape as [Hfit Hover].
      destruct (Z.le_gt_cases (get_total_weight (deref (heap w') r)) mw) as [Hle|Hgt].
      * destruct (Hfit Hle) as (_ & _ & _ & ->). assumption.
      * destruct (Hover Hgt) as (_ & _ & ->). assumption.
    + destruct Hshape as (_ & _ & ->). assumption.
  - exists st. split; [reflexivity | exact Hshape].
Qed.

Lemma solve_result_within_cap_witness :
  let data := mkRequest (Some 5) (Some 2) (Some 0) None None (Some catalog4) in
  let w := world0 [1; 1; 0; 0; 1; 1; 1; 1]%N in
  solve_knapsack (Some data) w
  = Ok (Result [mkItem "A" 2 3; mkItem "B" 3 4] 7 5) (final_world (solve_knapsack (Some data) w) w)
  /\ (0 <= 5 -> 5 <= 5).
Proof.
  intros data w.
  assert (H : solve_knapsack (Some data) w
              = Ok (Result [mkItem "A" 2 3; mkItem "B" 3 4] 7 5)
                   (final_world (solve_knapsack (Some data) w) w))
    by (vm_compute; reflexivity).
  split; [exact H|].
  exact (proj1 (solve_result_within_cap data w _ _ _ _ H)).
Defined.

(** Over a catalog of at least two items and with a population of at
    least one candidate, [solve_knapsack] answers with a result: nothing
    raises and the loops end. *)
Lemma solve_returns_result (data : Request) (w : World) :
  (2 <= length (default [] (req_items data)))%nat ->
  1 <= default 6 (req_population_size data) ->
  exists sel tv tw w', solve_knapsack (Some data) w = Ok (Result sel tv tw) w'.
Proof.
  intros Hcat Hsize. unfold solve_knapsack, try_except.
  assert (Hne : empty_request data = false).
  { unfold empty_request. destruct (req_items data); [|simpl in Hcat; lia].
    destruct (req_max_weight data), (req_population_size data), (req_generations data),
      (req_crossover_rate data), (req_mutation_rate data); reflexivity. }
  rewrite Hne.
  set (cat := default [] (req_items data)) in *.
  set (mw := default 15 (req_max_weight data)).
  destruct cat as [|it cat'] eqn:Ecat; [simpl in Hcat; lia|]. rewrite <- Ecat in *.
  pose proof (run_search_post False cat mw (default 6 (req_population_size data))
                (default 100 (req_generations data))
                (default default_crossover_rate (req_crossover_rate data))
                (default default_mutation_rate (req_mutation_rate data)) w) as Hs.
  unfold bind.
  destruct (run_search cat mw _ _ _ _ w) as [st w1|e w1|]; cbn [holds] in Hs.
  - destruct Hs as (Hinv & [_ Hbest] & _); [lia | lia |].
    destruct (project_result_spec cat mw _ (snd st) w1 Hinv Hbest)
      as (sel & tv & tw & Hproj & _).
    rewrite Hproj. eauto.
  - exfalso. apply Hs; lia.
  - exfalso. apply Hs; lia.
Qed.

(** C1 as stated fails for a negative cap: the empty knapsack is
    reported with weight 0, which is above a cap of -1. *)
Lemma negative_cap_reports_weight_above_cap :
  let data := mkRequest (Some (-1)) (Some 1) (Some 0) None None (Some catalog1) in
  exists sel tv tw,
    response_of (solve_knapsack (Some data) (world0 [0]%N)) = Some (Result sel tv tw) /\
    tw > default 15 (req_max_weight data).
Proof.
  exists [], 0, 0. split; [vm_compute; reflexivity | simpl; lia].
Qed.

(** ** Aliasing between generations *)

(** The best-so-far reference changes only for a candidate of strictly
    greater fitness, both read in the store after the transition. *)
Lemma generation_step_replaces_on_greater its mw cr mr
    (population population' : list ref) (best : ref) (best' : option ref) (w w' : World) :
  generation_step its mw cr mr (population, Some best) w = Ok (population', best') w' ->
  best' = Some best \/
  exists c, best' = Some c /\
            fitness (deref (heap w') c) > fitness (deref (heap w') best).
Proof.
  unfold generation_step, bind, max_fitness, fitness_of, bind, get, ret.
  destruct (next_generation population its mw cr mr w) as [l w1| |]; try discriminate.
  destruct (max_by_fitness (heap w1) l) as [c|]; try discriminate.
  destruct (Z.gtb_spec (fitness (deref (heap w1) c)) (fitness (deref (heap w1) best)))
    as [Hgt|Hle]; intros [= <- <- <-].
  - right. exists c. split; [reflexivity | lia].
  - left. reflexivity.
Qed.

(** The elite references open the next population. *)
Lemma elite_references_carried cat mw n0 (population : list ref) (cr mr : Q) (w : World) :
  inv cat mw n0 w -> Forall (live n0 w) population ->
  post (next_generation population cat mw cr mr w)
       (fun l _ => take (elite_count population) l
                   = take (elite_count population) (sorted_desc (heap w) population)).
Proof.
  intros Hinv Hpop. eapply post_mono; [apply (next_generation_post True cat mw n0); auto|].
  intros l w' (_ & _ & _ & H). exact H.
Qed.

(** C3: on this run the best-so-far candidate has fitness 2 after the
    initial population and fitness 1 one generation later: [mutate]
    wrote through the reference the best-so-far variable still holds.
    The answer of [solve_knapsack] drops from value 2 to value 1. *)
Theorem best_so_far_fitness_drops :
  best_fitness (run_search catalog2 2 2 0 default_crossover_rate default_mutation_rate
                           (world0 flip_tape)) = Some 2 /\
  best_fitness (run_search catalog2 2 2 1 default_crossover_rate default_mutation_rate
                           (world0 flip_tape)) = Some 1 /\
  response_of (solve_knapsack
     (Some (mkRequest (Some 2) (Some 2) (Some 0) None None (Some catalog2))) (world0 flip_tape))
  = Some (Result catalog2 2 2) /\
  response_of (solve_knapsack
     (Some (mkRequest (Some 2) (Some 2) (Some 1) None None (Some catalog2))) (world0 flip_tape))
  = Some (Result [mkItem "B" 1 1] 1 1).
Proof. repeat split; vm_compute; reflexivity. Qed.

(** C4: on this run the elite of the initial population is the candidate
    with bits [1; 1]; after the transition both candidates of the next
    population have bits [0; 1]: the elite object was carried over and
    then mutated in place as an unrecombined parent. *)
Theorem elite_bits_lost_in_next_generation :
  exists population w1 population' w2,
    generate_initial_population 2 catalog2 2 (world0 flip_tape) = Ok population w1 /\
    map (fun r => bits (deref (heap w1) r))
        (take (elite_count population) (sorted_desc (heap w1) population)) = [[1; 1]] /\
    next_generation population catalog2 2 default_crossover_rate default_mutation_rate w1
    = Ok population' w2 /\
    map (fun r => bits (deref (heap w2) r)) population' = [[0; 1]; [0; 1]].
Proof.
  eexists _, _, _, _.
  split; [vm_compute; reflexivity|].
  split; [vm_compute; reflexivity|].
  split; vm_compute; reflexivity.
Qed.

(** ** Distinctness in the initializer *)

Lemma random_bits_draws (its : list Item) (w : World) :
  post (random_bits its w)
       (fun _ w' => heap w' = heap w /\ pos w' = (pos w + length its)%nat).
Proof.
  unfold random_bits. generalize (length its) as n. intros n. revert w.
  induction n as [|n IH]; intros w; simpl.
  - split; [reflexivity | lia].
  - apply post_bind. unfold random_choice01, randbelow, bind at 1 2, draw, ret. cbn [post holds].
    apply post_bind. eapply post_mono; [apply IH|].
    intros bs w2 [Hh Hp]. simpl in Hh, Hp |- *. split; [assumption | lia].
Qed.

(** The first loop of the initializer turns every draw into a member of
    the population: after [k] turns, [k] bit vectors were drawn and [k]
    candidates were added. *)
Lemma init_attempts_draws (count : Z) its mw (attempts : nat) :
  forall (population : list ref) (w : World),
    Forall (fun x => (x < length (heap w))%nat) population ->
    post (init_attempts attempts count its mw population w)
         (fun l w' =>
            let k := Nat.min attempts (Z.to_nat (count - Z.of_nat (length population))) in
            pos w' = (pos w + k * length its)%nat /\
            length (heap w') = (length (heap w) + k)%nat /\
            length l = (length population + k)%nat /\
            Forall (fun x => (x < length (heap w'))%nat) l).
Proof.
  induction attempts as [|a IH]; intros population w Hpop; cbn [init_attempts].
  - apply post_ret. cbn zeta. rewrite Nat.min_0_l.
    split; [lia|]. split; [lia|]. split; [lia | assumption].
  - destruct (Z.ltb_spec (Z.of_nat (length population)) count) as [Hlt|Hge].
    + apply post_bind. eapply post_mono; [apply random_bits_draws|].
      intros bs w1 [Hh1 Hp1]. apply post_bind. unfold new_Individual at 1. cbn [post holds].
      set (w2 := mkWorld (heap w1 ++ [mkIndividual bs its mw]) (tape w1) (pos w1) (hsalt w1)).
      assert (Hfresh : set_add (length (heap w1)) population = population ++ [length (heap w1)]).
      { apply set_add_fresh. rewrite Hh1. assumption. }
      rewrite Hfresh.
      assert (Hl2 : length (heap w2) = S (length (heap w))).
      { unfold w2. cbn [heap]. rewrite length_app, Hh1. cbn [length]. lia. }
      eapply post_mono.
      * apply IH. apply Forall_app. split.
        -- eapply Forall_impl; [exact Hpop|]. intros x Hx. cbn beta in Hx. lia.
        -- apply Forall_cons_2; [rewrite Hl2, Hh1; lia | apply Forall_nil_2].
      * intros l w3 (H1 & H2 & H3 & H4).
        rewrite length_app in H1, H2, H3. cbn [length] in H1, H2, H3.
        replace (Nat.min (S a) (Z.to_nat (count - Z.of_nat (length population))))
          with (S (Nat.min a (Z.to_nat (count - Z.of_nat (length population + 1)%nat)))) by lia.
        unfold w2 in H1. cbn [pos] in H1.
        split; [rewrite Nat.mul_succ_l; lia|]. split; [lia|]. split; [lia | assumption].
    + apply post_ret.
      replace (Nat.min (S a) (Z.to_nat (count - Z.of_nat (length population)))) with 0%nat by lia.
      split; [lia|]. split; [lia|]. split; [lia | assumption].
Qed.

(** No draw of the initializer is rejected: it returns after [count]
    draws of a bit vector, with [count] new objects. *)
Lemma initializer_accepts_every_draw (count : Z) its mw (w : World) :
  0 <= count ->
  exists population w1,
    generate_initial_population count its mw w = Ok population w1 /\
    length population = Z.to_nat count /\
    length (heap w1) = (length (heap w) + Z.to_nat count)%nat /\
    pos w1 = (pos w + Z.to_nat count * length its)%nat.
Proof.
  intros Hc. unfold generate_initial_population.
  pose proof (init_attempts_draws count its mw (Z.to_nat (count * 10)) [] w (Forall_nil_2 _)) as H.
  pose proof (no_raise_init_attempts count its mw (Z.to_nat (count * 10)) [] w) as Hn.
  unfold bind at 1.
  destruct (init_attempts (Z.to_nat (count * 10)) count its mw [] w) as [l w1|e w1|];
    [|exfalso; apply (Hn e w1); reflexivity | destruct H].
  cbn [post holds] in H. cbn zeta in H. cbn [length] in H.
  replace (Nat.min (Z.to_nat (count * 10)) (Z.to_nat (count - Z.of_nat 0)))
    with (Z.to_nat count) in H by lia.
  destruct H as (H1 & H2 & H3 & H4).
  unfold bind. rewrite init_fill_complete by lia. unfold list_of_set.
  eexists _, _. split; [reflexivity|].
  destruct (arrange_post (fun _ => True) 0%nat (hsalt w1) (length l) 0%nat l) as [Ha _].
  - apply Forall_true. auto.
  - lia.
  - split; [rewrite Ha; lia|]. split; lia.
Qed.

(** C7: with two draws of the same bit vector the initializer returns
    both candidates after two draws, far inside its budget of 20: set
    membership is by object identity, so no draw is ever rejected. *)
Theorem initializer_keeps_equal_bit_vectors :
  exists population w1,
    generate_initial_population 2 catalog1 1 (world0 [0; 0]%N) = Ok population w1 /\
    map (fun r => bits (deref (heap w1) r)) population = [[0]; [0]] /\
    pos w1 = 2%nat.
Proof.
  eexists _, _. split; [vm_compute; reflexivity|].
  split; vm_compute; reflexivity.
Qed.

(** ** Crossover *)

Lemma take_drop_eq_left (p : nat) (x y : list Z) :
  take p x ++ drop p y = x <-> drop p x = drop p y.
Proof.
  split; intros H.
  - rewrite <- (take_drop p x) in H at 2. apply app_inv_head in H. congruence.
  - rewrite <- H. apply take_drop.
Qed.

Lemma take_drop_eq_right (p : nat) (x y : list Z) :
  take p x ++ drop p y = y <-> take p x = take p y.
Proof.
  split; intros H.
  - rewrite <- (take_drop p y) in H at 2. apply app_inv_tail in H. assumption.
  - rewrite H. apply take_drop.
Qed.

Lemma deref_new_first (h : list Individual) (a b : Individual) :
  deref (h ++ [a; b]) (length h) = a.
Proof.
  unfold deref. rewrite app_nth2 by lia.
  replace (length h - length h)%nat with 0%nat by lia. reflexivity.
Qed.

Lemma deref_new_second (h : list Individual) (a b : Individual) :
  deref (h ++ [a; b]) (S (length h)) = b.
Proof.
  unfold deref. rewrite app_nth2 by lia.
  replace (S (length h) - length h)%nat with 1%nat by lia. reflexivity.
Qed.

(** In every window of [m] consecutive raw draws exactly one has the
    residue [t] modulo [m]. *)
Lemma window_residue (m t base : N) :
  (0 < m)%N -> (t < m)%N ->
  exists raw : N,
    (base <= raw < base + m)%N /\
    forall raw' : N, (base <= raw' < base + m)%N -> ((raw' mod m)%N = t <-> raw' = raw).
Proof.
  intros Hm Ht.
  pose proof (N.div_mod base m ltac:(lia)) as Hb.
  pose proof (N.mod_lt base m ltac:(lia)) as Hr.
  set (k := (base / m)%N) in *. set (r := (base mod m)%N) in *.
  assert (Hres : forall c : N, ((m * c + t) mod m)%N = t).
  { intros c. rewrite N.add_comm, N.mul_comm, N.Div0.mod_add. apply N.mod_small. exact Ht. }
  assert (Huniq : forall c raw' : N,
             (base <= m * c + t < base + m)%N -> (base <= raw' < base + m)%N ->
             (raw' mod m)%N = t -> raw' = (m * c + t)%N).
  { intros c raw' Hc Hw Hmod.
    pose proof (N.div_mod raw' m ltac:(lia)) as Hd. rewrite Hmod in Hd.
    assert ((raw' / m)%N = c) by nia. subst c. exact Hd. }
  destruct (N.le_gt_cases r t) as [Hle|Hgt].
  - exists (m * k + t)%N. split; [lia|]. intros raw' Hw. split.
    + apply Huniq; [lia | exact Hw].
    + intros ->. apply Hres.
  - exists (m * (k + 1) + t)%N. split; [lia|]. intros raw' Hw. split.
    + apply Huniq; [lia | exact Hw].
    + intros ->. apply Hres.
Qed.

(** What [random.randint(1, n - 1)] returns when the next draw is [raw]. *)
Lemma random_randint_point (n : nat) (w : World) :
  (2 <= n)%nat ->
  random_randint 1 (Z.of_nat n - 1) w
  = Ok (Z.of_nat (S (N.to_nat (tape w (pos w) mod N.of_nat (n - 1)))))
       (mkWorld (heap w) (tape w) (S (pos w)) (hsalt w)).
Proof.
  intros Hn. unfold random_randint. cbn zeta.
  destruct (Z.ltb_spec 0 (Z.of_nat n - 1 + 1 - 1)) as [_|Hle]; [|lia].
  replace (Z.to_nat (Z.of_nat n - 1 + 1 - 1)) with (n - 1)%nat by lia.
  unfold randbelow, bind, draw, ret. f_equal. lia.
Qed.

(** C5, as the code has it: over a catalog of at least two items, with
    two parents and a recombination draw not above the rate, crossover
    cuts at the point [p] that [random.randint(1, |catalog| - 1)] returns
    on the next draw, [p = 1 + (draw mod (|catalog| - 1))], and returns
    exactly two new candidates with bits [parent0[:p] + parent1[p:]] and
    [parent1[:p] + parent0[p:]], leaving the parents as they were.  The
    point is uniform over [1, |catalog| - 1]: in every window of
    [|catalog| - 1] consecutive values of the draw each point is returned
    for exactly one value.  The children differ from the parent they took
    their head from exactly when the parents differ from [p] on, and from
    the other parent exactly when the parents differ before [p]. *)
Theorem crossover_single_point (parents : list ref) (cat : list Item) (mw : Z)
    (rate u : Q) (w w1 : World) :
  (2 <= length parents)%nat -> (2 <= length cat)%nat ->
  random_random w = Ok u w1 -> Qle_bool u rate = true ->
  (exists (p : nat) (w2 w' : World),
    let b0 := bits (deref (heap w) (nth 0 parents 0%nat)) in
    let b1 := bits (deref (heap w) (nth 1 parents 0%nat)) in
    let child1 := length (heap w) in
    let child2 := S (length (heap w)) in
    random_randint 1 (Z.of_nat (length cat) - 1) w1 = Ok (Z.of_nat p) w2 /\
    p = S (N.to_nat (tape w1 (pos w1) mod N.of_nat (length cat - 1))) /\
    crossover parents cat mw rate w = Ok [child1; child2] w' /\
    (1 <= p <= length cat - 1)%nat /\
    heap w' = heap w ++ [mkIndividual (take p b0 ++ drop p b1) cat mw;
                         mkIndividual (take p b1 ++ drop p b0) cat mw] /\
    pos w' = S (S (pos w)) /\
    bits (deref (heap w') child1) = take p b0 ++ drop p b1 /\
    bits (deref (heap w') child2) = take p b1 ++ drop p b0 /\
    ((bits (deref (heap w') child1) <> b0 /\ bits (deref (heap w') child2) <> b1)
       <-> drop p b0 <> drop p b1) /\
    ((bits (deref (heap w') child1) <> b1 /\ bits (deref (heap w') child2) <> b0)
       <-> take p b0 <> take p b1)) /\
  (forall (q : nat) (base : N),
     (1 <= q <= length cat - 1)%nat ->
     exists raw : N,
       (base <= raw < base + N.of_nat (length cat - 1))%N /\
       forall raw' : N,
         (base <= raw' < base + N.of_nat (length cat - 1))%N ->
         (value_of (random_randint 1 (Z.of_nat (length cat) - 1) (with_next_draw raw' w1))
          = Some (Z.of_nat q) <-> raw' = raw)).
Proof.
  intros Hpar Hcat Hu Hle.
  assert (Hw1 : w1 = mkWorld (heap w) (tape w) (S (pos w)) (hsalt w)).
  { unfold random_random, bind, draw, ret in Hu. injection Hu as _ <-. reflexivity. }
  split.
  - set (j := N.to_nat (tape w1 (pos w1) mod N.of_nat (length cat - 1))).
    assert (Hj : (j < length cat - 1)%nat).
    { unfold j. rewrite N2Nat.inj_mod, Nat2N.id. apply Nat.mod_upper_bound. lia. }
    exists (S j), (mkWorld (heap w1) (tape w1) (S (pos w1)) (hsalt w1)),
      (mkWorld (heap w ++ [mkIndividual
                            (take (S j) (bits (deref (heap w) (nth 0 parents 0%nat))) ++
                             drop (S j) (bits (deref (heap w) (nth 1 parents 0%nat)))) cat mw;
                          mkIndividual
                            (take (S j) (bits (deref (heap w) (nth 1 parents 0%nat))) ++
                             drop (S j) (bits (deref (heap w) (nth 0 parents 0%nat)))) cat mw])
               (tape w) (S (S (pos w))) (hsalt w)).
    cbn zeta.
    split; [apply random_randint_point; exact Hcat|].
    split; [reflexivity|].
    split.
    { unfold crossover.
      destruct (Nat.ltb_spec (length parents) 2) as [Hlt|_]; [lia|].
      unfold bind at 1. rewrite Hu, Hle. cbn [negb].
      unfold bind at 1. rewrite (random_randint_point (length cat) w1 Hcat). fold j.
      rewrite Nat2Z.id. unfold bind, ret, get, new_Individual. cbn [heap tape pos hsalt].
      rewrite Hw1. cbn [heap tape pos hsalt].
      rewrite length_app. cbn [length].
      rewrite <- app_assoc. cbn [app].
      replace (length (heap w) + 1)%nat with (S (length (heap w))) by lia.
      reflexivity. }
    split; [lia|].
    split; [reflexivity|]. split; [reflexivity|].
    cbn [heap]. rewrite !deref_new_first, !deref_new_second. cbn [bits].
    split; [reflexivity|]. split; [reflexivity|].
    rewrite !take_drop_eq_left, !take_drop_eq_right.
    split; split; intros H; intuition congruence.
  - intros q base Hq.
    destruct (window_residue (N.of_nat (length cat - 1)) (N.of_nat (q - 1)) base)
      as (raw & Hraw & Huniq); [lia | lia |].
    exists raw. split; [exact Hraw|]. intros raw' Hw.
    rewrite <- (Huniq raw' Hw).
    rewrite (random_randint_point (length cat) (with_next_draw raw' w1) Hcat).
    cbn [value_of with_next_draw tape pos]. rewrite Nat.eqb_refl.
    split.
    + intros [= H]. lia.
    + intros H. f_equal. rewrite H. lia.
Qed.

Lemma crossover_single_point_witness :
  exists (p : nat) (w' : World),
    crossover [0; 1]%nat catalog2 2 1 (parents_world [0; 0]%N) = Ok [2; 3]%nat w' /\
    (1 <= p <= 1)%nat /\
    bits (deref (heap w') 2) = take p [0; 0] ++ drop p [0; 1] /\
    exists raw : N,
      (5 <= raw < 6)%N /\
      value_of (random_randint 1 (Z.of_nat (length catalog2) - 1)
                  (with_next_draw raw
                     (mkWorld (heap (parents_world [0; 0]%N)) (tape_of [0; 0]%N) 1
                              (fun _ => 0%N)))) = Some 1.
Proof.
  destruct (crossover_single_point [0; 1]%nat catalog2 2 1 (0 # 2 ^ 53)
              (parents_world [0; 0]%N)
              (mkWorld (heap (parents_world [0; 0]%N)) (tape_of [0; 0]%N) 1 (fun _ => 0%N)))
    as [(p & w2 & w' & _ & _ & Hrun & Hp & _ & _ & Hc1 & _) Huni].
  - simpl. lia.
  - simpl. lia.
  - reflexivity.
  - reflexivity.
  - exists p, w'. split; [exact Hrun|]. split; [exact Hp|]. split; [exact Hc1|].
    destruct (Huni 1%nat 5%N) as (raw & Hraw & Hiff); [simpl; lia|].
    exists raw. split; [simpl in Hraw; lia|].
    apply (proj2 (Hiff raw Hraw)). reflexivity.
Defined.

(** C5 as stated fails: over a catalog of two items the first child of
    parents [0; 0] and [0; 1] is [0; 1], the second parent. *)
Lemma crossover_child_equals_parent :
  (1 < length catalog2)%nat /\
  exists c1 c2 w',
    crossover [0; 1]%nat catalog2 2 1 (parents_world [0; 0]%N) = Ok [c1; c2] w' /\
    bits (deref (heap w') c1) = bits (deref (heap w') 1).
Proof.
  split; [simpl; lia|].
  eexists _, _, _. split; vm_compute; reflexivity.
Qed.

(** ** Validation *)

(** C8: with the items absent or empty the answer is an error message,
    not a result, and the world is as before the call: no candidate was
    allocated and no random draw was made. *)
Theorem solve_without_items (data : option Request) (w : World) :
  (data = None \/ exists d, data = Some d /\ (req_items d = None \/ req_items d = Some [])) ->
  exists (msg : string),
    solve_knapsack data w = Ok (ErrorResponse msg 400) w /\
    (msg = "No items provided" \/ msg = "Invalid input format, JSON required")%string.
Proof.
  intros [-> | (d & -> & Hitems)]; unfold solve_knapsack, try_except.
  - eexists. split; [reflexivity | right; reflexivity].
  - destruct (empty_request d).
    + eexists. split; [reflexivity | right; reflexivity].
    + assert (E : default [] (req_items d) = []) by (destruct Hitems as [-> | ->]; reflexivity).
      rewrite E. eexists. split; [reflexivity | left; reflexivity].
Qed.

Lemma solve_without_items_witness :
  exists msg : string,
    solve_knapsack (Some (mkRequest (Some 5) None None None None (Some []))) (world0 [1; 0]%N)
    = Ok (ErrorResponse msg 400) (world0 [1; 0]%N).
Proof.
  destruct (solve_without_items
              (Some (mkRequest (Some 5) None None None None (Some []))) (world0 [1; 0]%N))
    as (msg & Hrun & _).
  - right. eexists. split; [reflexivity | right; reflexivity].
  - exists msg. exact Hrun.
Defined.

(** ** Randomness *)

Section Respects.

Lemma respects_ret {A} (a : A) : respects (ret a).
Proof. intros w1 w2 H. simpl. auto. Qed.

Lemma respects_raise {A} (e : exn) : respects (@raise A e).
Proof. intros w1 w2 H. simpl. auto. Qed.

Lemma respects_out_of_fuel {A} : respects (@out_of_fuel A).
Proof. intros w1 w2 H. exact I. Qed.

Lemma respects_bind {A B} (m : M A) (k : A -> M B) :
  respects m -> (forall a, respects (k a)) -> respects (bind m k).
Proof.
  intros Hm Hk w1 w2 H. unfold bind. specialize (Hm w1 w2 H).
  destruct (m w1) as [a1 v1|e1 v1|], (m w2) as [a2 v2|e2 v2|]; simpl in Hm; try contradiction.
  - destruct Hm as [<- Hv]. apply Hk. assumption.
  - exact Hm.
  - exact I.
Qed.

Lemma respects_draw : respects draw.
Proof.
  intros w1 w2 (Hh & Hs & Ht). simpl. split.
  - specialize (Ht 0%nat). rewrite !Nat.add_0_r in Ht. exact Ht.
  - split; [exact Hh|]. split; [exact Hs|]. simpl. intros i.
    specialize (Ht (S i)). rewrite !Nat.add_succ_r in Ht. exact Ht.
Qed.

(** A computation that reads the store and changes nothing. *)
Lemma respects_read {A} (f : list Individual -> A) :
  respects (fun w => Ok (f (heap w)) w).
Proof. intros w1 w2 H. simpl. destruct H as (Hh & Hs & Ht). rewrite Hh. repeat split; auto. Qed.

Lemma respects_get (r : ref) : respects (get r).
Proof. apply (respects_read (fun h => deref h r)). Qed.

Lemma respects_new_Individual bs its mw : respects (new_Individual bs its mw).
Proof.
  intros w1 w2 (Hh & Hs & Ht). simpl. rewrite Hh. repeat split; auto.
Qed.

Lemma respects_set_bit r i v : respects (set_bit r i v).
Proof.
  intros w1 w2 (Hh & Hs & Ht). simpl. rewrite Hh. repeat split; auto.
Qed.

Lemma arrange_ext {A} (d : A) (s1 s2 : nat -> N) (k : nat) :
  (forall i, s1 i = s2 i) ->
  forall i pool, arrange d s1 i pool k = arrange d s2 i pool k.
Proof.
  intros Hs. induction k as [|k IH]; intros i pool; simpl; [reflexivity|].
  rewrite Hs, IH. reflexivity.
Qed.

Lemma respects_list_of_set (s : list ref) : respects (list_of_set s).
Proof.
  intros w1 w2 (Hh & Hs & Ht). unfold list_of_set. simpl.
  split; [apply arrange_ext; assumption|]. repeat split; auto.
Qed.

Lemma respects_max_fitness (l : list ref) : respects (max_fitness l).
Proof.
  intros w1 w2 H. unfold max_fitness. destruct H as (Hh & Hs & Ht). rewrite Hh.
  destruct (max_by_fitness (heap w2) l); simpl; repeat split; auto.
Qed.

Lemma respects_try_except {A} (body : M A) (handler : exn -> M A) :
  respects body -> (forall e, respects (handler e)) -> respects (try_except body handler).
Proof.
  intros Hb Hh w1 w2 H. unfold try_except. specialize (Hb w1 w2 H).
  destruct (body w1) as [a1 v1|e1 v1|], (body w2) as [a2 v2|e2 v2|]; simpl in Hb;
    try contradiction; try exact Hb.
  destruct Hb as [<- Hv]. apply Hh. assumption.
Qed.

Ltac respects_step :=
  lazymatch goal with
  | |- respects (bind _ _) => apply respects_bind; [|intro]
  | |- respects (ret _) => apply respects_ret
  | |- respects (raise _) => apply respects_raise
  | |- respects out_of_fuel => apply respects_out_of_fuel
  | |- respects (get _) => apply respects_get
  | |- respects draw => apply respects_draw
  | |- respects (new_Individual _ _ _) => apply respects_new_Individual
  | |- respects (set_bit _ _ _) => apply respects_set_bit
  | |- respects (list_of_set _) => apply respects_list_of_set
  | |- respects (max_fitness _) => apply respects_max_fitness
  | |- respects (if ?b then _ else _) => destruct b
  | |- respects (match ?x with _ => _ end) => destruct x
  end.

Ltac respects_auto := repeat respects_step; auto.

Lemma respects_for_each {A} (l : list A) (body : A -> M unit) :
  (forall x, respects (body x)) -> respects (for_each l body).
Proof. intros Hb. induction l; simpl; respects_auto. Qed.

Lemma respects_replicateM {A} (n : nat) (m : M A) :
  respects m -> respects (replicateM n m).
Proof. intros Hm. induction n; simpl; respects_auto. Qed.

Lemma respects_randbelow (n : nat) : respects (randbelow n).
Proof. unfold randbelow. respects_auto. Qed.

Lemma respects_random_random : respects random_random.
Proof. unfold random_random. respects_auto. Qed.

Lemma respects_random_randint a b : respects (random_randint a b).
Proof. unfold random_randint. respects_auto. apply respects_randbelow. Qed.

Lemma respects_random_bits its : respects (random_bits its).
Proof.
  unfold random_bits. apply respects_replicateM. unfold random_choice01.
  respects_auto. apply respects_randbelow.
Qed.

Lemma respects_sample_pool {A} (d : A) (k : nat) :
  forall pool, respects (sample_pool d pool k).
Proof.
  induction k as [|k IH]; intros pool; simpl; respects_auto. apply respects_randbelow.
Qed.

Lemma respects_random_sample population k : respects (random_sample population k).
Proof. unfold random_sample. respects_auto. apply respects_sample_pool. Qed.

Lemma respects_init_attempts count its mw (attempts : nat) :
  forall population, respects (init_attempts attempts count its mw population).
Proof.
  induction attempts as [|a IH]; intros population; simpl; respects_auto.
  apply respects_random_bits.
Qed.

Lemma respects_init_fill count its mw (fuel : nat) :
  forall population, respects (init_fill fuel count its mw population).
Proof.
  induction fuel as [|f IH]; intros population; simpl; respects_auto.
  apply respects_random_bits.
Qed.

Lemma respects_generate_initial_population count its mw :
  respects (generate_initial_population count its mw).
Proof.
  unfold generate_initial_population. respects_auto.
  - apply respects_init_attempts.
  - apply respects_init_fill.
Qed.

Lemma respects_selection population : respects (selection population).
Proof. unfold selection. respects_auto; apply respects_random_sample. Qed.

Lemma respects_crossover parents its mw rate : respects (crossover parents its mw rate).
Proof.
  unfold crossover. respects_auto.
  - apply respects_random_random.
  - apply respects_random_randint.
Qed.

Lemma respects_mutate individuals rate : respects (mutate individuals rate).
Proof.
  unfold mutate. apply respects_for_each. intros r. respects_auto.
  apply respects_for_each. intros i. respects_auto. apply respects_random_random.
Qed.

Lemma respects_fill_next_gen population its mw cr mr (fuel : nat) :
  forall next_gen, respects (fill_next_gen fuel population its mw cr mr next_gen).
Proof.
  induction fuel as [|f IH]; intros next_gen; simpl; respects_auto.
  - apply respects_selection.
  - apply respects_crossover.
  - apply respects_mutate.
Qed.

Lemma respects_next_generation population its mw cr mr :
  respects (next_generation population its mw cr mr).
Proof.
  unfold next_generation. respects_auto.
  - apply (respects_read (fun h => sorted_desc h population)).
  - apply respects_fill_next_gen.
Qed.

Lemma respects_fitness_of o : respects (fitness_of o).
Proof. unfold fitness_of. respects_auto. Qed.

Lemma respects_generation_step its mw cr mr st : respects (generation_step its mw cr mr st).
Proof.
  unfold generation_step. destruct st as [population best]. respects_auto.
  - apply respects_next_generation.
  - apply respects_fitness_of.
  - apply respects_fitness_of.
Qed.

Lemma respects_evolve its mw cr mr (g : nat) :
  forall st, respects (evolve g its mw cr mr st).
Proof.
  induction g as [|g IH]; intros st; simpl; respects_auto.
  apply respects_generation_step.
Qed.

Lemma respects_run_search its mw size generations cr mr :
  respects (run_search its mw size generations cr mr).
Proof.
  unfold run_search. respects_auto.
  - apply respects_generate_initial_population.
  - apply (respects_read (fun h => max_by_fitness h a)).
  - apply respects_evolve.
Qed.

Lemma respects_project_result mw best : respects (project_result mw best).
Proof. unfold project_result. respects_auto. Qed.

Lemma respects_solve_knapsack data : respects (solve_knapsack data).
Proof.
  unfold solve_knapsack. apply respects_try_except; [|intros e; apply respects_ret].
  destruct data as [data|]; [|apply respects_ret].
  destruct (empty_request data); [apply respects_ret|].
  destruct (default [] (req_items data)); [apply respects_ret|].
  respects_auto.
  - apply respects_run_search.
  - apply respects_project_result.
Qed.

End Respects.

(** * Further properties of the operators *)

(** ** Selection *)

Lemma randbelow_draws (n : nat) (w : World) :
  exists j, randbelow n w = Ok j (mkWorld (heap w) (tape w) (S (pos w)) (hsalt w)).
Proof. eexists. reflexivity. Qed.

Lemma sample_pool_draws {A} (d : A) (k : nat) :
  forall (pool : list A) (w : World),
    post (sample_pool d pool k w) (fun _ w' => pos w' = (pos w + k)%nat).
Proof.
  induction k as [|k IH]; intros pool w; simpl.
  - unfold post. simpl. lia.
  - unfold post. apply post_bind.
    destruct (randbelow_draws (length pool) w) as [j ->]. cbn [holds].
    apply post_bind. eapply post_mono; [apply IH|].
    intros rest w2 Hp. simpl in Hp |- *. lia.
Qed.

Lemma selection_draws (population : list ref) (w : World) :
  post (selection population w)
       (fun _ w' => pos w' = (pos w + if (length population <? 4)%nat
                                      then Nat.min 2 (length population) else 8)%nat).
Proof.
  unfold selection. destruct (length population <? 4)%nat.
  - unfold random_sample. destruct (length population <? _)%nat; [exact I|].
    apply sample_pool_draws.
  - unfold post. apply post_bind. unfold random_sample at 1.
    destruct (length population <? 4)%nat; [exact I|].
    eapply post_mono; [apply sample_pool_draws|]. intros t1 w1 Hp1.
    apply post_bind. unfold max_fitness at 1.
    destruct (max_by_fitness (heap w1) t1); [|exact I]. cbn [holds].
    apply post_bind. unfold random_sample at 1.
    destruct (length population <? 4)%nat; [exact I|].
    eapply post_mono; [apply sample_pool_draws|]. intros t2 w2 Hp2.
    apply post_bind. unfold max_fitness at 1.
    destruct (max_by_fitness (heap w2) t2); [|exact I]. cbn [holds].
    apply post_ret. cbn beta in Hp1, Hp2. lia.
Qed.

(** Over a population of at most 21 candidates, where [random.sample]
    works on a pool, [selection] never raises: it returns
    [min(2, len(population))] parents, each a member of the population,
    reads the store without changing it, and consumes that many draws
    when the population has fewer than four candidates and eight draws
    otherwise. *)
Theorem selection_returns_members (population : list ref) (w : World) :
  (length population <= 21)%nat ->
  exists parents w',
    selection population w = Ok parents w' /\
    heap w' = heap w /\
    length parents = Nat.min 2 (length population) /\
    (forall r, r ∈ parents -> r ∈ population) /\
    pos w' = (pos w + if (length population <? 4)%nat
                      then Nat.min 2 (length population) else 8)%nat.
Proof.
  intros _.
  pose proof (selection_post False (fun r => r ∈ population) population w) as Hs.
  pose proof (selection_draws population w) as Hd.
  destruct (selection population w) as [parents w'| |]; cbn [post holds] in Hs, Hd.
  - destruct Hs as (Hh & Hin & Hlen); [apply Forall_forall; auto|].
    exists parents, w'. split; [reflexivity|]. split; [assumption|].
    split; [assumption|]. split; [|assumption].
    rewrite Forall_forall in Hin. exact Hin.
  - exfalso. apply Hs. apply Forall_forall. auto.
  - exfalso. apply Hs. apply Forall_forall. auto.
Qed.

Lemma selection_returns_members_witness :
  let w := mkWorld (heap sample_store) (tape_of [1; 1; 1; 1; 4; 0; 0; 0]%N) 0 (fun _ => 0%N) in
  exists w',
    selection [0; 1; 2; 3; 4]%nat w = Ok [3; 0]%nat w' /\ pos w' = 8%nat.
Proof.
  intros w.
  destruct (selection_returns_members [0; 1; 2; 3; 4]%nat w)
    as (parents & w' & Hrun & _ & _ & _ & Hpos); [simpl; lia|].
  exists w'. split; [|exact Hpos].
  rewrite Hrun. f_equal.
  assert (H : value_of (selection [0; 1; 2; 3; 4]%nat w) = Some [3; 0]%nat)
    by (vm_compute; reflexivity).
  rewrite Hrun in H. injection H as ->. reflexivity.
Defined.

(** ** Crossover *)

(** What [crossover] can return: the parents as they came, with the
    store as it was, or two new objects cut from the first two parents
    at a point [p]. *)
Lemma crossover_cases (parents : list ref) (cat : list Item) (mw : Z) (rate : Q)
    (w w' : World) (children : list ref) :
  crossover parents cat mw rate w = Ok children w' ->
  (children = parents /\ heap w' = heap w) \/
  (2 <= length parents)%nat /\
  exists p : nat,
    let b0 := bits (deref (heap w) (nth 0 parents 0%nat)) in
    let b1 := bits (deref (heap w) (nth 1 parents 0%nat)) in
    (1 <= p <= length cat - 1)%nat /\
    children = [length (heap w); S (length (heap w))] /\
    heap w' = heap w ++ [mkIndividual (take p b0 ++ drop p b1) cat mw;
                         mkIndividual (take p b1 ++ drop p b0) cat mw].
Proof.
  unfold crossover.
  destruct (Nat.ltb_spec (length parents) 2) as [Hlt|Hge].
  { intros [= <- <-]. left. split; reflexivity. }
  unfold bind at 1, random_random, bind at 1, draw, ret at 1.
  set (u := (Z.of_N (tape w (pos w) mod 2 ^ 53)%N # 2 ^ 53)).
  destruct (negb (Qle_bool u rate)).
  { intros [= <- <-]. left. split; reflexivity. }
  unfold random_randint. cbn zeta.
  destruct (Z.ltb_spec 0 (Z.of_nat (length cat) - 1 + 1 - 1)) as [Hcat|Hle]; [|discriminate].
  unfold bind, randbelow, bind, draw, ret, get, new_Individual. cbn [heap tape pos hsalt].
  set (j := N.to_nat (_ mod _)%N).
  assert (Hj : (j < Z.to_nat (Z.of_nat (length cat) - 1 + 1 - 1))%nat).
  { unfold j. rewrite N2Nat.inj_mod, Nat2N.id. apply Nat.mod_upper_bound. lia. }
  intros [= <- <-]. right. split; [assumption|].
  exists (S j). cbn zeta.
  replace (Z.to_nat (1 + Z.of_nat j)) with (S j) by lia.
  split; [lia|]. split.
  - rewrite length_app. cbn [length]. f_equal. f_equal. lia.
  - cbn [heap]. rewrite <- app_assoc. reflexivity.
Qed.

Lemma zip_sum_crossed (f : Item -> Z) (p : nat) :
  forall (its : list Item) (x y : list Z),
    length x = length y ->
    sumZ (map (fun '(item, bit) => bit * f item) (zip its (take p x ++ drop p y))) +
    sumZ (map (fun '(item, bit) => bit * f item) (zip its (take p y ++ drop p x)))
    = sumZ (map (fun '(item, bit) => bit * f item) (zip its x)) +
      sumZ (map (fun '(item, bit) => bit * f item) (zip its y)).
Proof.
  induction p as [|p IH]; intros its x y Hlen.
  - rewrite !take_0, !drop_0. simpl. lia.
  - destruct x as [|a x], y as [|b y]; try discriminate; [reflexivity|].
    destruct its as [|it its]; [reflexivity|].
    simpl in Hlen. injection Hlen as Hlen. specialize (IH its x y Hlen).
    simpl. simpl in IH. lia.
Qed.

(** The summed weight and the summed value of the pair [crossover]
    returns are those of the pair it was given, recombined or not. *)
Theorem crossover_conserves_totals (cat : list Item) (mw : Z) (n0 : nat)
    (r0 r1 : ref) (rate : Q) (w w' : World) (children : list ref) :
  inv cat mw n0 w -> live n0 w r0 -> live n0 w r1 ->
  crossover [r0; r1] cat mw rate w = Ok children w' ->
  sumZ (map (fun c => get_total_weight (deref (heap w') c)) children)
  = get_total_weight (deref (heap w) r0) + get_total_weight (deref (heap w) r1) /\
  sumZ (map (fun c => total_value (deref (heap w') c)) children)
  = total_value (deref (heap w) r0) + total_value (deref (heap w) r1).
Proof.
  intros Hinv H0 H1 Hrun.
  destruct (live_wf _ _ _ _ _ Hinv H0) as (Hi0 & _ & Hl0 & _).
  destruct (live_wf _ _ _ _ _ Hinv H1) as (Hi1 & _ & Hl1 & _).
  apply crossover_cases in Hrun as [[-> Hh] | (_ & p & Hp & -> & Hh)].
  - rewrite Hh. simpl. split; lia.
  - cbn zeta in Hh. cbn [nth] in Hh. rewrite Hh. cbn [map sumZ foldr].
    rewrite deref_new_first, deref_new_second.
    unfold get_total_weight, total_value. cbn [items bits]. rewrite Hi0, Hi1.
    rewrite !Z.add_0_r.
    split; apply zip_sum_crossed; congruence.
Qed.

(** [random.random()] lies in [0, 1). *)
Lemma random_random_range (w : World) :
  exists u, random_random w = Ok u (mkWorld (heap w) (tape w) (S (pos w)) (hsalt w)) /\
            (0 <= u)%Q /\ (u < 1)%Q.
Proof.
  eexists. split; [reflexivity|].
  assert (H : (tape w (pos w) mod 2 ^ 53 < 2 ^ 53)%N) by (apply N.mod_upper_bound; discriminate).
  split.
  - unfold Qle. cbn [Qnum Qden]. rewrite Z.mul_0_l, Z.mul_1_r. apply N2Z.is_nonneg.
  - unfold Qlt. cbn [Qnum Qden]. rewrite Z.mul_1_r, Z.mul_1_l.
    apply N2Z.inj_lt in H. exact H.
Qed.

Lemma parents_world_inv (draws : list N) : inv catalog2 2 0 (parents_world draws).
Proof.
  split; [|simpl; lia].
  intros r ind _ Hlk. destruct r as [|[|r]]; simpl in Hlk; [| |discriminate];
    injection Hlk as <-; (split; [reflexivity|]); (split; [reflexivity|]);
    (split; [reflexivity|]); simpl;
    repeat (apply Forall_cons_2; [first [left; reflexivity | right; reflexivity]|]);
    apply Forall_nil_2.
Qed.

Lemma crossover_conserves_totals_witness :
  let w := parents_world [0; 0]%N in
  let w' := final_world (crossover [0; 1]%nat catalog2 2 1 w) w in
  crossover [0; 1]%nat catalog2 2 1 w = Ok [2; 3]%nat w' /\
  sumZ (map (fun c => get_total_weight (deref (heap w') c)) [2; 3]%nat) = 0 + 1.
Proof.
  intros w w'.
  assert (Hrun : crossover [0; 1]%nat catalog2 2 1 w = Ok [2; 3]%nat w')
    by (vm_compute; reflexivity).
  split; [exact Hrun|].
  refine (proj1 (crossover_conserves_totals catalog2 2 0 0 1 1 w w' [2; 3]%nat
                   (parents_world_inv _) _ _ Hrun)).
  - split; simpl; lia.
  - split; simpl; lia.
Defined.

(** With [crossover_rate < 0] no draw of [random.random()] is at or below
    the rate: the parents come back unrecombined, nothing is allocated,
    one draw is consumed. *)
Theorem crossover_rate_negative (parents : list ref) (cat : list Item) (mw : Z)
    (rate : Q) (w : World) :
  (rate < 0)%Q -> (2 <= length parents)%nat ->
  crossover parents cat mw rate w
  = Ok parents (mkWorld (heap w) (tape w) (S (pos w)) (hsalt w)).
Proof.
  intros Hrate Hpar. unfold crossover.
  destruct (Nat.ltb_spec (length parents) 2) as [Hlt|_]; [lia|].
  destruct (random_random_range w) as (u & Hu & H0 & H1).
  unfold bind. rewrite Hu.
  destruct (Qle_bool u rate) eqn:Hle; [|reflexivity].
  apply Qle_bool_imp_le in Hle. exfalso.
  apply (Qlt_not_le _ _ Hrate). apply (Qle_trans _ u); assumption.
Qed.

Lemma crossover_rate_negative_witness :
  crossover [0; 1]%nat catalog2 2 (-1 # 2) (parents_world [5; 7]%N)
  = Ok [0; 1]%nat (mkWorld (heap (parents_world [5; 7]%N)) (tape_of [5; 7]%N) 1 (fun _ => 0%N)).
Proof.
  apply (crossover_rate_negative [0; 1]%nat catalog2 2 (-1 # 2) (parents_world [5; 7]%N)).
  - reflexivity.
  - simpl. lia.
Defined.

(** With [crossover_rate >= 1], two parents and a catalog of at least
    two items, every call recombines: two new objects are allocated and
    returned, and two draws are consumed. *)
Theorem crossover_rate_one (parents : list ref) (cat : list Item) (mw : Z)
    (rate : Q) (w : World) :
  (1 <= rate)%Q -> (2 <= length parents)%nat -> (2 <= length cat)%nat ->
  exists w',
    crossover parents cat mw rate w = Ok [length (heap w); S (length (heap w))] w' /\
    length (heap w') = (length (heap w) + 2)%nat /\
    pos w' = (pos w + 2)%nat /\
    take (length (heap w)) (heap w') = heap w.
Proof.
  intros Hrate Hpar Hcat. unfold crossover.
  destruct (Nat.ltb_spec (length parents) 2) as [Hlt|_]; [lia|].
  destruct (random_random_range w) as (u & Hu & H0 & H1).
  unfold bind at 1. rewrite Hu.
  assert (Hle : Qle_bool u rate = true).
  { apply Qle_bool_iff. apply Qlt_le_weak. apply (Qlt_le_trans _ 1); assumption. }
  rewrite Hle. cbn [negb]. unfold random_randint. cbn zeta.
  destruct (Z.ltb_spec 0 (Z.of_nat (length cat) - 1 + 1 - 1)) as [_|Hlt]; [|lia].
  unfold bind, randbelow, bind, draw, ret, get, new_Individual. cbn [heap tape pos hsalt].
  eexists. split; [|split; [|split]].
  - rewrite length_app. cbn [length].
    replace (length (heap w) + 1)%nat with (S (length (heap w))) by lia. reflexivity.
  - cbn [heap]. rewrite !length_app. cbn [length]. lia.
  - cbn [pos]. lia.
  - cbn [heap]. rewrite <- app_assoc. apply take_app_length.
Qed.

Lemma crossover_rate_one_witness :
  exists w',
    crossover [0; 1]%nat catalog2 2 1 (parents_world [5; 7]%N) = Ok [2; 3]%nat w' /\
    pos w' = 2%nat.
Proof.
  destruct (crossover_rate_one [0; 1]%nat catalog2 2 1 (parents_world [5; 7]%N))
    as (w' & Hrun & _ & Hpos & _).
  - unfold Qle. simpl. lia.
  - simpl. lia.
  - simpl. lia.
  - exists w'. split; [exact Hrun | exact Hpos].
Defined.

(** ** Mutation *)

Lemma mutate_unfold (individuals : list ref) (rate : Q) :
  mutate individuals rate
  = for_each individuals (fun individual =>
      do ind <- get individual;
      for_each (seq 0 (length (bits ind))) (mutate_bit individual rate)).
Proof. reflexivity. Qed.

Lemma deref_insert_ne (h : list Individual) (r r' : ref) (x : Individual) :
  r' <> r -> deref (<[r := x]> h) r' = deref h r'.
Proof.
  intros Hne. unfold deref. rewrite !nth_lookup, list_lookup_insert_ne by congruence.
  reflexivity.
Qed.

Lemma deref_insert_eq (h : list Individual) (r : ref) (x : Individual) :
  (r < length h)%nat -> deref (<[r := x]> h) r = x.
Proof.
  intros Hr. unfold deref. rewrite nth_lookup, list_lookup_insert_eq by assumption.
  reflexivity.
Qed.

Lemma same_shape_refl (a : Individual) : same_shape a a.
Proof. repeat split. Qed.

Lemma same_shape_trans (a b c : Individual) :
  same_shape a b -> same_shape b c -> same_shape a c.
Proof. intros (H1 & H2 & H3) (H4 & H5 & H6). repeat split; congruence. Qed.

Lemma touches_only_refl (l : list ref) (w : World) : touches_only l w w.
Proof. split; [reflexivity|]. split; [reflexivity | intros r; apply same_shape_refl]. Qed.

Lemma touches_only_trans (l : list ref) (w1 w2 w3 : World) :
  touches_only l w1 w2 -> touches_only l w2 w3 -> touches_only l w1 w3.
Proof.
  intros (H1 & H2 & H3) (H4 & H5 & H6). split; [congruence|]. split.
  - intros r Hr. rewrite H5, H2 by assumption. reflexivity.
  - intros r. eapply same_shape_trans; [apply H6 | apply H3].
Qed.

Lemma touches_only_mono (l l' : list ref) (w w' : World) :
  (forall r, r ∈ l -> r ∈ l') -> touches_only l w w' -> touches_only l' w w'.
Proof.
  intros Hsub (H1 & H2 & H3). split; [assumption|]. split; [|assumption].
  intros r Hr. apply H2. intros Hin. apply Hr, Hsub, Hin.
Qed.

Lemma set_bit_touches (r : ref) (i : nat) (v : Z) (w : World) :
  exists w', set_bit r i v w = Ok tt w' /\ touches_only [r] w w' /\ pos w' = pos w.
Proof.
  eexists. split; [reflexivity|]. split; [|reflexivity].
  split; [apply length_insert|]. cbn [heap]. split.
  - intros r' Hr'. apply deref_insert_ne. intros ->. apply Hr'. left.
  - intros r'. destruct (decide (r' = r)) as [->|Hne].
    + destruct (Nat.lt_ge_cases r (length (heap w))) as [Hlt|Hge].
      * rewrite deref_insert_eq by assumption.
        split; [reflexivity|]. split; [reflexivity|]. apply length_insert.
      * rewrite list_insert_ge by assumption. apply same_shape_refl.
    + rewrite deref_insert_ne by assumption. apply same_shape_refl.
Qed.

Lemma mutate_bit_touches (r : ref) (rate : Q) (i : nat) (w : World) :
  exists w', mutate_bit r rate i w = Ok tt w' /\ touches_only [r] w w' /\
             pos w' = S (pos w).
Proof.
  unfold mutate_bit, bind at 1, random_random, bind at 1, draw, ret at 1.
  match goal with |- context [negb ?b] => destruct (negb b) end.
  - unfold bind, get.
    match goal with |- context [set_bit r i ?v ?w1] =>
      destruct (set_bit_touches r i v w1) as (w' & Hrun & Ht & Hp) end.
    exists w'. split; [exact Hrun|]. split; [exact Ht | exact Hp].
  - eexists. split; [reflexivity|]. split; [|reflexivity].
    apply (touches_only_refl [r] (mkWorld (heap w) (tape w) (S (pos w)) (hsalt w))).
Qed.

Lemma mutate_bits_touches (r : ref) (rate : Q) (idxs : list nat) :
  forall w, exists w',
    for_each idxs (mutate_bit r rate) w = Ok tt w' /\ touches_only [r] w w' /\
    pos w' = (pos w + length idxs)%nat.
Proof.
  induction idxs as [|i idxs IH]; intros w; simpl.
  - exists w. split; [reflexivity|]. split; [apply touches_only_refl | lia].
  - destruct (mutate_bit_touches r rate i w) as (w1 & Hrun1 & Ht1 & Hp1).
    destruct (IH w1) as (w2 & Hrun2 & Ht2 & Hp2).
    exists w2. unfold bind. rewrite Hrun1. split; [exact Hrun2|].
    split; [eapply touches_only_trans; eassumption | lia].
Qed.

Lemma mutate_frame (individuals : list ref) (rate : Q) (w : World) :
  exists w',
    mutate individuals rate w = Ok tt w' /\
    touches_only individuals w w' /\
    pos w' = (pos w + sum_list (map (fun r => length (bits (deref (heap w) r))) individuals))%nat.
Proof.
  rewrite mutate_unfold.
  assert (H : forall l w0, (forall r, r ∈ l -> r ∈ individuals) -> exists w',
    for_each l (fun individual =>
      do ind <- get individual;
      for_each (seq 0 (length (bits ind))) (mutate_bit individual rate)) w0 = Ok tt w' /\
    touches_only individuals w0 w' /\
    pos w' = (pos w0 + sum_list (map (fun r => length (bits (deref (heap w0) r))) l))%nat).
  { induction l as [|x l IH]; intros w0 Hsub; simpl.
    - exists w0. split; [reflexivity|]. split; [apply touches_only_refl | lia].
    - destruct (mutate_bits_touches x rate (seq 0 (length (bits (deref (heap w0) x)))) w0)
        as (w1 & Hrun1 & Ht1 & Hp1).
      destruct (IH w1) as (w2 & Hrun2 & Ht2 & Hp2).
      { intros r Hr. apply Hsub. right. assumption. }
      exists w2. unfold bind at 1. unfold bind at 1, get. rewrite Hrun1.
      split; [exact Hrun2|].
      assert (Ht1' : touches_only individuals w0 w1).
      { apply (touches_only_mono [x]); [|assumption].
        intros r Hr. apply list_elem_of_singleton in Hr as ->. apply Hsub. left. }
      split; [eapply touches_only_trans; eassumption|].
      rewrite Hp2, Hp1, length_seq. rewrite <- Nat.add_assoc. f_equal. f_equal.
      f_equal. apply map_ext. intros r.
      destruct Ht1 as (_ & _ & Hshape). destruct (Hshape r) as (_ & _ & ->). reflexivity. }
  apply H. auto.
Qed.

(** [mutate] never raises and touches nothing but bits of the
    individuals it is given: the store keeps its size, every other object
    is as it was, no object changes its catalog, its cap or the length of
    its bit vector; one draw is consumed per bit of every listed
    individual. *)
Theorem mutate_touches_only_given (individuals : list ref) (rate : Q) (w : World) :
  exists w',
    mutate individuals rate w = Ok tt w' /\
    (length (heap w') = length (heap w) /\
     (forall r, r ∉ individuals -> deref (heap w') r = deref (heap w) r) /\
     (forall r, items (deref (heap w') r) = items (deref (heap w) r) /\
                max_weight (deref (heap w') r) = max_weight (deref (heap w) r) /\
                length (bits (deref (heap w') r)) = length (bits (deref (heap w) r)))) /\
    pos w' = (pos w + sum_list (map (fun r => length (bits (deref (heap w) r))) individuals))%nat.
Proof.
  destruct (mutate_frame individuals rate w) as (w' & Hrun & (Hlen & Hother & Hshape) & Hpos).
  exists w'. split; [exact Hrun|]. split; [|exact Hpos].
  split; [exact Hlen|]. split; [exact Hother|].
  intros r. destruct (Hshape r) as (H1 & H2 & H3).
  split; [exact H1|]. split; [exact H2 | exact H3].
Qed.

Lemma mutate_bit_keeps (r : ref) (rate : Q) (i : nat) (w : World) :
  (rate <= 0)%Q ->
  mutate_bit r rate i w = Ok tt (mkWorld (heap w) (tape w) (S (pos w)) (hsalt w)).
Proof.
  intros Hrate. unfold mutate_bit.
  destruct (random_random_range w) as (u & Hu & H0 & _).
  unfold bind. rewrite Hu.
  assert (Hle : Qle_bool rate u = true).
  { apply Qle_bool_iff. apply (Qle_trans _ 0); assumption. }
  rewrite Hle. reflexivity.
Qed.

Lemma mutate_bits_keep (r : ref) (rate : Q) (idxs : list nat) :
  (rate <= 0)%Q ->
  forall w, exists w', for_each idxs (mutate_bit r rate) w = Ok tt w' /\ heap w' = heap w.
Proof.
  intros Hrate. induction idxs as [|i idxs IH]; intros w; simpl.
  - exists w. split; reflexivity.
  - unfold bind. rewrite mutate_bit_keeps by assumption.
    destruct (IH (mkWorld (heap w) (tape w) (S (pos w)) (hsalt w))) as (w' & Hrun & Hh).
    exists w'. split; assumption.
Qed.

(** With [mutation_rate <= 0] no draw of [random.random()] is below the
    rate: [mutate] leaves every bit of every individual as it was. *)
Theorem mutate_rate_zero (individuals : list ref) (rate : Q) (w : World) :
  (rate <= 0)%Q ->
  exists w', mutate individuals rate w = Ok tt w' /\ heap w' = heap w.
Proof.
  intros Hrate. rewrite mutate_unfold. revert w.
  induction individuals as [|x l IH]; intros w; simpl.
  - exists w. split; reflexivity.
  - unfold bind at 1. unfold bind at 1, get.
    destruct (mutate_bits_keep x rate (seq 0 (length (bits (deref (heap w) x)))) Hrate w)
      as (w1 & Hrun1 & Hh1).
    rewrite Hrun1. destruct (IH w1) as (w2 & Hrun2 & Hh2).
    exists w2. split; [exact Hrun2 | congruence].
Qed.

Lemma mutate_rate_zero_witness :
  exists w', mutate [0; 1]%nat 0 (parents_world [1; 2; 3; 4]%N) = Ok tt w' /\
             heap w' = heap (parents_world [1; 2; 3; 4]%N).
Proof.
  apply (mutate_rate_zero [0; 1]%nat 0 (parents_world [1; 2; 3; 4]%N)).
  unfold Qle. simpl. lia.
Defined.

Lemma flip_from_lookup (m : nat) :
  forall (k : nat) (bs : list Z) (i : nat),
    flip_from k m bs !! i
    = if decide (k <= i < k + m)%nat then (fun b => 1 - b) <$> bs !! i else bs !! i.
Proof.
  induction m as [|m IH]; intros k bs i; simpl.
  - case_decide; [lia | reflexivity].
  - rewrite IH. destruct (decide (i = k)) as [->|Hne].
    + rewrite decide_False by lia. rewrite decide_True by lia.
      destruct (bs !! k) as [x|] eqn:Hk.
      * rewrite list_lookup_insert_eq by (apply lookup_lt_Some in Hk; assumption).
        rewrite (nth_lookup_Some _ _ _ _ Hk). reflexivity.
      * rewrite list_insert_ge by (apply lookup_ge_None; assumption).
        rewrite Hk. reflexivity.
    + rewrite list_lookup_insert_ne by congruence.
      repeat case_decide; try lia; reflexivity.
Qed.

Lemma flip_from_all (bs : list Z) : flip_from 0 (length bs) bs = flip_bits bs.
Proof.
  apply list_eq. intros i. rewrite flip_from_lookup. unfold flip_bits.
  rewrite list_lookup_fmap. case_decide as H; [reflexivity|].
  rewrite lookup_ge_None_2 by lia. reflexivity.
Qed.

Lemma mutate_bit_flips (r : ref) (rate : Q) (i : nat) (w : World) :
  (1 <= rate)%Q ->
  mutate_bit r rate i w
  = set_bit r i (1 - nth i (bits (deref (heap w) r)) 0)
            (mkWorld (heap w) (tape w) (S (pos w)) (hsalt w)).
Proof.
  intros Hrate. unfold mutate_bit.
  destruct (random_random_range w) as (u & Hu & _ & H1).
  unfold bind at 1. rewrite Hu.
  assert (Hle : Qle_bool rate u = false).
  { destruct (Qle_bool rate u) eqn:E; [|reflexivity].
    apply Qle_bool_imp_le in E. exfalso.
    apply (Qlt_not_le _ _ H1). apply (Qle_trans _ rate); assumption. }
  rewrite Hle. reflexivity.
Qed.

Lemma mutate_bits_flip (r : ref) (rate : Q) (m : nat) :
  (1 <= rate)%Q ->
  forall (k : nat) (w : World),
    (r < length (heap w))%nat ->
    exists w',
      for_each (seq k m) (mutate_bit r rate) w = Ok tt w' /\
      heap w' = <[r := mkIndividual (flip_from k m (bits (deref (heap w) r)))
                                    (items (deref (heap w) r))
                                    (max_weight (deref (heap w) r))]> (heap w).
Proof.
  intros Hrate. induction m as [|m IH]; intros k w Hr; simpl.
  - exists w. split; [reflexivity|]. symmetry. apply list_insert_id.
    rewrite (deref_lookup _ _ Hr). f_equal. destruct (deref (heap w) r). reflexivity.
  - unfold bind. rewrite mutate_bit_flips by assumption. unfold set_bit. cbn [heap tape pos hsalt].
    match goal with |- context [for_each _ _ ?w1] => destruct (IH (S k) w1) as (w' & Hrun & Hh) end.
    { cbn [heap]. rewrite length_insert. assumption. }
    exists w'. split; [exact Hrun|]. rewrite Hh. cbn [heap].
    rewrite deref_insert_eq by assumption. cbn [bits items max_weight].
    apply list_insert_insert_eq.
Qed.

(** With [mutation_rate >= 1] every draw of [random.random()] is below
    the rate: [mutate] flips every bit of every individual it is given
    (each listed once, each in the store). *)
Theorem mutate_rate_one (individuals : list ref) (rate : Q) (w : World) :
  (1 <= rate)%Q -> NoDup individuals ->
  Forall (fun r => (r < length (heap w))%nat) individuals ->
  exists w',
    mutate individuals rate w = Ok tt w' /\
    forall r, r ∈ individuals ->
              bits (deref (heap w') r) = flip_bits (bits (deref (heap w) r)).
Proof.
  intros Hrate. revert w.
  induction individuals as [|x l IH]; intros w Hnd Hvalid.
  - exists w. split; [reflexivity|]. intros r Hr. inversion Hr.
  - apply NoDup_cons in Hnd as [Hx Hnd]. apply Forall_cons in Hvalid as [Hxv Hlv].
    destruct (mutate_bits_flip x rate (length (bits (deref (heap w) x))) Hrate 0 w Hxv)
      as (w1 & Hrun1 & Hh1).
    rewrite flip_from_all in Hh1.
    assert (Hlen1 : length (heap w1) = length (heap w)) by (rewrite Hh1; apply length_insert).
    destruct (IH w1 Hnd) as (w2 & Hrun2 & Hflip).
    { eapply Forall_impl; [exact Hlv|]. intros r Hr. simpl in Hr |- *. lia. }
    destruct (mutate_frame l rate w1) as (w2' & Hrun2' & (_ & Hframe & _) & _).
    assert (w2' = w2) by congruence. subst w2'.
    exists w2. split.
    + rewrite mutate_unfold. cbn [for_each]. unfold bind at 1. unfold bind at 1, get.
      rewrite Hrun1. rewrite mutate_unfold in Hrun2. exact Hrun2.
    + intros r Hr. apply elem_of_cons in Hr as [->|Hr].
      * rewrite Hframe by assumption. rewrite Hh1, deref_insert_eq by assumption. reflexivity.
      * rewrite Hflip by assumption. rewrite Hh1, deref_insert_ne; [reflexivity|].
        intros ->. apply Hx. assumption.
Qed.

Lemma mutate_rate_one_witness :
  exists w', mutate [0; 1]%nat 1 (parents_world [1; 2; 3; 4]%N) = Ok tt w' /\
             bits (deref (heap w') 1) = flip_bits [0; 1].
Proof.
  destruct (mutate_rate_one [0; 1]%nat 1 (parents_world [1; 2; 3; 4]%N))
    as (w' & Hrun & Hflip).
  - unfold Qle. simpl. lia.
  - apply NoDup_cons. split; [|apply NoDup_singleton].
    intros H. apply list_elem_of_singleton in H. discriminate.
  - apply Forall_cons_2; [simpl; lia|]. apply Forall_cons_2; [simpl; lia | apply Forall_nil_2].
  - exists w'. split; [exact Hrun|]. apply (Hflip 1%nat). right. left.
Defined.

(** ** Elitism *)

Lemma insert_desc_perm (h : list Individual) (x : ref) (l : list ref) :
  insert_desc h x l ≡ₚ x :: l.
Proof.
  induction l as [|y l IH]; simpl; [reflexivity|].
  destruct (fitness (deref h y) <=? fitness (deref h x)); [reflexivity|].
  rewrite IH. apply perm_swap.
Qed.

Lemma sorted_desc_perm (h : list Individual) (l : list ref) : sorted_desc h l ≡ₚ l.
Proof.
  induction l as [|x l IH]; simpl; [reflexivity|].
  rewrite insert_desc_perm. apply perm_skip. exact IH.
Qed.

Lemma insert_desc_sorted (h : list Individual) (x : ref) (l : list ref) :
  StronglySorted (fitter_eq h) l -> StronglySorted (fitter_eq h) (insert_desc h x l).
Proof.
  induction 1 as [|y l Hs IH Hy]; simpl.
  - apply SSorted_cons; [constructor | apply Forall_nil_2].
  - destruct (Z.leb_spec (fitness (deref h y)) (fitness (deref h x))) as [Hle|Hgt].
    + apply SSorted_cons; [apply SSorted_cons; assumption|].
      apply Forall_cons_2; [exact Hle|].
      eapply Forall_impl; [exact Hy|]. intros z Hz. unfold fitter_eq in *. lia.
    + apply SSorted_cons; [exact IH|].
      rewrite insert_desc_perm. apply Forall_cons_2; [|assumption].
      unfold fitter_eq. lia.
Qed.

Lemma sorted_desc_sorted (h : list Individual) (l : list ref) :
  StronglySorted (fitter_eq h) (sorted_desc h l).
Proof.
  induction l as [|x l IH]; simpl; [constructor|].
  apply insert_desc_sorted. exact IH.
Qed.

(** The elite that opens the next population is a fittest part of the
    current one: the current population splits into the first
    [elite_count] candidates of the next population and the others, and
    no other candidate was fitter than an elite one when the transition
    started. *)
Theorem elite_are_fittest (cat : list Item) (mw : Z) (n0 : nat) (population : list ref)
    (cr mr : Q) (w w' : World) (population' : list ref) :
  inv cat mw n0 w -> Forall (live n0 w) population ->
  next_generation population cat mw cr mr w = Ok population' w' ->
  exists others,
    take (elite_count population) population' ++ others ≡ₚ population /\
    forall e x, e ∈ take (elite_count population) population' -> x ∈ others ->
                fitness (deref (heap w) x) <= fitness (deref (heap w) e).
Proof.
  intros Hinv Hpop Hrun.
  pose proof (next_generation_post True cat mw n0 population cr mr w Hinv Hpop (fun _ => I)) as H.
  rewrite Hrun in H. destruct H as (_ & _ & _ & Helite).
  exists (drop (elite_count population) (sorted_desc (heap w) population)).
  rewrite Helite. split.
  - rewrite take_drop. apply sorted_desc_perm.
  - intros e x He Hx.
    refine (StronglySorted_app_1_elem_of (fitter_eq (heap w)) _ _ e x _ He Hx).
    rewrite take_drop. apply sorted_desc_sorted.
Qed.

Lemma inv_of_Forall (cat : list Item) (mw : Z) (w : World) :
  Forall (wf_ind cat mw) (heap w) -> inv cat mw 0 w.
Proof.
  intros H. split; [|lia]. intros r ind _ Hlk. apply (Forall_lookup_1 _ _ _ _ H Hlk).
Qed.

Lemma two_candidates_world_inv (draws : list N) : inv catalog2 2 0 (two_candidates_world draws).
Proof.
  apply inv_of_Forall. simpl.
  repeat (apply Forall_cons_2;
          [split; [reflexivity|]; split; [reflexivity|]; split; [reflexivity|]; simpl;
           repeat (apply Forall_cons_2; [first [left; reflexivity | right; reflexivity]|]);
           apply Forall_nil_2|]).
  apply Forall_nil_2.
Qed.

Lemma elite_are_fittest_witness :
  let w := two_candidates_world (drop 4 flip_tape) in
  let out := next_generation [0; 1]%nat catalog2 2
                             default_crossover_rate default_mutation_rate w in
  out = Ok [0; 0]%nat (final_world out w) /\
  exists others, take 1 [0; 0]%nat ++ others ≡ₚ [0; 1]%nat.
Proof.
  intros w out.
  assert (Hrun : out = Ok [0; 0]%nat (final_world out w)) by (vm_compute; reflexivity).
  split; [exact Hrun|].
  destruct (elite_are_fittest catalog2 2 0 [0; 1]%nat default_crossover_rate default_mutation_rate w
              (final_world out w) [0; 0]%nat) as (others & Hperm & _).
  - apply two_candidates_world_inv.
  - apply Forall_cons_2; [split; simpl; lia|].
    apply Forall_cons_2; [split; simpl; lia | apply Forall_nil_2].
  - exact Hrun.
  - exists others. exact Hperm.
Defined.

(** ** The initial population *)

Lemma random_bits_returns (its : list Item) (w : World) :
  exists bs w1,
    random_bits its w = Ok bs w1 /\
    heap w1 = heap w /\ pos w1 = (pos w + length its)%nat /\
    length bs = length its /\ Forall is_bit bs.
Proof.
  pose proof (random_bits_post True its w) as H1.
  pose proof (random_bits_draws its w) as H2.
  pose proof (no_raise_random_bits its w) as H3.
  destruct (random_bits its w) as [bs w1|e w1|]; cbn [post holds] in H1, H2.
  - destruct H1 as (Hh & Hl & Hb). destruct H2 as [_ Hp].
    exists bs, w1. repeat split; assumption.
  - exfalso. apply (H3 e w1). reflexivity.
  - destruct H1.
Qed.

Lemma init_attempts_exact (count : Z) (its : list Item) (mw : Z) (attempts : nat) :
  forall (population : list ref) (w : World),
    Forall (fun x => (x < length (heap w))%nat) population ->
    exists l w' news,
      init_attempts attempts count its mw population w = Ok l w' /\
      l = population ++ seq (length (heap w)) (length news) /\
      heap w' = heap w ++ news /\
      length news = Nat.min attempts (Z.to_nat (count - Z.of_nat (length population))) /\
      Forall (wf_ind its mw) news /\
      pos w' = (pos w + length news * length its)%nat.
Proof.
  induction attempts as [|a IH]; intros population w Hpop; cbn [init_attempts].
  - exists population, w, []. cbn [length seq]. rewrite !app_nil_r.
    repeat split; try reflexivity; try lia. apply Forall_nil_2.
  - destruct (Z.ltb_spec (Z.of_nat (length population)) count) as [Hlt|Hge].
    + destruct (random_bits_returns its w) as (bs & w1 & Hrun & Hh1 & Hp1 & Hlen & Hbits).
      unfold bind at 1. rewrite Hrun. unfold bind at 1, new_Individual at 1.
      rewrite set_add_fresh by (rewrite Hh1; assumption).
      match goal with |- context [init_attempts a count its mw ?p ?w2] =>
        destruct (IH p w2) as (l & w' & news & Hrun2 & Hl & Hh & Hn & Hwf & Hp) end.
      { cbn [heap]. rewrite length_app, Hh1. cbn [length]. apply Forall_app. split.
        - eapply Forall_impl; [exact Hpop|]. intros x Hx. simpl in Hx. lia.
        - apply Forall_cons_2; [lia | apply Forall_nil_2]. }
      cbn [heap pos] in Hl, Hh, Hp. rewrite length_app in Hl, Hn. cbn [length] in Hl, Hn.
      rewrite Hh1 in Hl, Hh. rewrite Hp1 in Hp.
      exists l, w', (mkIndividual bs its mw :: news).
      split; [exact Hrun2|]. cbn [length seq].
      split; [rewrite Hl, <- app_assoc; cbn [app];
              replace (length (heap w) + 1)%nat with (S (length (heap w))) by lia; reflexivity|].
      split; [rewrite Hh, <- app_assoc; reflexivity|].
      split; [lia|].
      split; [apply Forall_cons_2; [repeat split; assumption | assumption]|].
      rewrite Hp. rewrite Nat.mul_succ_l. lia.
    + exists population, w, []. cbn [length seq]. rewrite !app_nil_r.
      split; [reflexivity|]. split; [reflexivity|]. split; [reflexivity|].
      split; [lia|]. split; [apply Forall_nil_2 | lia].
Qed.

Lemma arrange_perm {A} (d : A) (salt : nat -> N) (k : nat) :
  forall (i : nat) (pool : list A), k = length pool -> arrange d salt i pool k ≡ₚ pool.
Proof.
  induction k as [|k IH]; intros i pool Hk; simpl.
  - destruct pool; [reflexivity | discriminate].
  - set (j := N.to_nat (salt i mod N.of_nat (length pool))%N).
    assert (Hj : (j < length pool)%nat).
    { unfold j. rewrite N2Nat.inj_mod, Nat2N.id. apply Nat.mod_upper_bound. lia. }
    rewrite IH by (rewrite length_app, length_take, length_drop; lia).
    destruct (nth_lookup_or_length pool j d) as [Hlk|Hge]; [|lia].
    rewrite <- (take_drop_middle pool j (nth j pool d) Hlk) at 4.
    apply Permutation_middle.
Qed.

Lemma generate_initial_population_exact (count : Z) (its : list Item) (mw : Z) (w : World) :
  exists population w1,
    generate_initial_population count its mw w = Ok population w1 /\
    population ≡ₚ seq (length (heap w)) (Z.to_nat count) /\
    take (length (heap w)) (heap w1) = heap w /\
    length (heap w1) = (length (heap w) + Z.to_nat count)%nat /\
    Forall (fun r => wf_ind its mw (deref (heap w1) r)) population /\
    pos w1 = (pos w + Z.to_nat count * length its)%nat.
Proof.
  unfold generate_initial_population.
  destruct (init_attempts_exact count its mw (Z.to_nat (count * 10)) [] w (Forall_nil_2 _))
    as (l & w1 & news & Hrun & Hl & Hh & Hn & Hwf & Hp).
  cbn [length app] in Hl, Hn.
  replace (Nat.min (Z.to_nat (count * 10)) (Z.to_nat (count - Z.of_nat 0)))
    with (Z.to_nat count) in Hn by lia.
  unfold bind at 1. rewrite Hrun. unfold bind.
  rewrite init_fill_complete by (rewrite Hl, length_seq; lia).
  unfold list_of_set. eexists _, _. split; [reflexivity|].
  assert (Hperm : arrange 0%nat (hsalt w1) 0 l (length l) ≡ₚ seq (length (heap w)) (Z.to_nat count)).
  { rewrite arrange_perm by reflexivity. rewrite Hl, Hn. reflexivity. }
  split; [exact Hperm|].
  split; [rewrite Hh; apply take_app_length|].
  split; [rewrite Hh, length_app; lia|].
  split; [|rewrite Hp, Hn; reflexivity].
  rewrite Hperm. apply Forall_forall. intros r Hr.
  apply elem_of_seq in Hr. unfold deref. rewrite Hh, app_nth2 by lia.
  destruct (nth_lookup_or_length news (r - length (heap w)) default_individual) as [Hlk|Hge]; [|lia].
  apply (Forall_lookup_1 _ _ _ _ Hwf Hlk).
Qed.

(** The initializer never raises and never rejects a draw: for every
    [count] it returns [max(count, 0)] new objects, each listed once,
    each a candidate over the catalog with bits in {0,1}; the objects
    already in the store are untouched, and one draw is consumed per bit. *)
Theorem initializer_returns_new_objects (count : Z) (its : list Item) (mw : Z) (w : World) :
  exists population w1,
    generate_initial_population count its mw w = Ok population w1 /\
    length population = Z.to_nat count /\
    NoDup population /\
    (forall r, r ∈ population -> (length (heap w) <= r < length (heap w1))%nat) /\
    take (length (heap w)) (heap w1) = heap w /\
    length (heap w1) = (length (heap w) + Z.to_nat count)%nat /\
    Forall (fun r => wf_ind its mw (deref (heap w1) r)) population /\
    pos w1 = (pos w + Z.to_nat count * length its)%nat.
Proof.
  destruct (generate_initial_population_exact count its mw w)
    as (population & w1 & Hrun & Hperm & Hpre & Hlen & Hwf & Hpos).
  exists population, w1. split; [exact Hrun|].
  split; [rewrite Hperm; apply length_seq|].
  split; [rewrite Hperm; apply NoDup_seq|].
  split; [|split; [exact Hpre|]; split; [exact Hlen|]; split; [exact Hwf | exact Hpos]].
  intros r Hr. rewrite Hperm in Hr. apply elem_of_seq in Hr. lia.
Qed.

(** ** Answers of [solve_knapsack] *)

Lemma max_by_fitness_spec (h : list Individual) (l : list ref) (b : ref) :
  max_by_fitness h l = Some b ->
  b ∈ l /\ forall x, x ∈ l -> fitness (deref h x) <= fitness (deref h b).
Proof.
  revert b. induction l as [|y l IH]; intros b; simpl; [discriminate|].
  destruct (max_by_fitness h l) as [m|] eqn:Hm.
  - destruct (IH m eq_refl) as [Hin Hmax].
    destruct (Z.gtb_spec (fitness (deref h m)) (fitness (deref h y))) as [Hgt|Hle];
      intros [= <-]; (split; [first [left | right; exact Hin]|]); intros x Hx;
      apply elem_of_cons in Hx as [->|Hx]; try lia; specialize (Hmax x Hx); lia.
  - intros [= <-]. split; [left|]. intros x Hx.
    apply elem_of_cons in Hx as [->|Hx]; [lia|].
    destruct l as [|z l]; [inversion Hx|].
    destruct (max_by_fitness_nonempty h (z :: l)) as [r Hr]; [discriminate | congruence].
Qed.

Lemma fst_zip_sublist {A B} (l : list A) (k : list B) : (zip l k).*1 `sublist_of` l.
Proof.
  revert k. induction l as [|x l IH]; intros [|y k]; simpl.
  - constructor.
  - constructor.
  - apply sublist_nil_l.
  - apply sublist_skip. apply IH.
Qed.

Lemma get_selected_items_sublist (ind : Individual) :
  get_selected_items ind `sublist_of` items ind.
Proof.
  unfold get_selected_items. etransitivity; [|apply (fst_zip_sublist _ (bits ind))].
  apply fmap_sublist. apply sublist_filter.
Qed.


(** The answer computed from a best-so-far reference: always a result,
    whose items are selected from the catalog in catalog order and whose
    totals are the sums over these items. *)
Lemma project_result_shape cat mw n0 (best : option ref) (w : World) :
  inv cat mw n0 w -> live_opt n0 w best ->
  exists sel tv tw,
    project_result mw best w = Ok (Result sel tv tw) w /\
    sel `sublist_of` cat /\ tv = sumZ (map value sel) /\ tw = sumZ (map weight sel).
Proof.
  intros Hinv Hbest.
  destruct (project_result_spec cat mw n0 best w Hinv Hbest) as (sel & tv & tw & Hrun & Hshape).
  exists sel, tv, tw. split; [exact Hrun|].
  destruct best as [r|].
  - destruct (live_wf _ _ _ _ _ Hinv Hbest) as (Hitems & _).
    destruct Hshape as [Hfit Hover].
    destruct (Z.le_gt_cases (get_total_weight (deref (heap w) r)) mw) as [Hle|Hgt].
    + destruct (Hfit Hle) as (-> & -> & Htw & _).
      split; [rewrite <- Hitems; apply get_selected_items_sublist|].
      split; [reflexivity | exact Htw].
    + destruct (Hover Hgt) as (-> & -> & ->).
      split; [apply sublist_nil_l | split; reflexivity].
  - destruct Hshape as (-> & -> & ->).
    split; [apply sublist_nil_l | split; reflexivity].
Qed.



Lemma generate_initial_population_empty (count : Z) (its : list Item) (mw : Z) (w : World) :
  count <= 0 -> generate_initial_population count its mw w = Ok [] w.
Proof.
  intros Hc. unfold generate_initial_population.
  replace (Z.to_nat (count * 10)) with 0%nat by lia.
  replace (Z.to_nat count) with 0%nat by lia.
  unfold bind. cbn [init_attempts init_fill ret length].
  destruct (Z.ltb_spec (Z.of_nat 0) count) as [Hlt|_]; [lia|]. reflexivity.
Qed.

Lemma run_search_empty (its : list Item) (mw size g : Z) (cr mr : Q) (w : World) :
  size <= 0 ->
  run_search its mw size g cr mr w = evolve (Z.to_nat g) its mw cr mr ([], None) w.
Proof.
  intros Hsize. unfold run_search, bind.
  rewrite generate_initial_population_empty by assumption. reflexivity.
Qed.

Lemma evolve_empty_raises (g : nat) (its : list Item) (mw : Z) (cr mr : Q) (w : World) :
  evolve (S g) its mw cr mr ([], None) w = Raise ValueError_max_empty w.
Proof. reflexivity. Qed.

(** With [population_size <= 0] and a non-empty catalog nothing is drawn
    and nothing is allocated: the answer is the empty knapsack when there
    is no generation to run, and the error of [max()] on an empty
    population, with status 500, as soon as there is one. *)
Theorem solve_with_empty_population (data : Request) (w : World) :
  default [] (req_items data) <> [] ->
  default 6 (req_population_size data) <= 0 ->
  (default 100 (req_generations data) <= 0 ->
     solve_knapsack (Some data) w = Ok (Result [] 0 0) w) /\
  (1 <= default 100 (req_generations data) ->
     solve_knapsack (Some data) w
     = Ok (ErrorResponse "An error occurred: max() arg is an empty sequence" 500) w).
Proof.
  intros Hitems Hsize. unfold solve_knapsack, try_except.
  assert (Hne : empty_request data = false).
  { unfold empty_request. destruct (req_items data); [|contradiction Hitems; reflexivity].
    destruct (req_max_weight data), (req_population_size data), (req_generations data),
      (req_crossover_rate data), (req_mutation_rate data); reflexivity. }
  rewrite Hne. destruct (default [] (req_items data)) as [|it cat]; [contradiction|].
  split; intros Hg; unfold bind at 1; rewrite run_search_empty by assumption.
  - replace (Z.to_nat (default 100 (req_generations data))) with 0%nat by lia.
    reflexivity.
  - destruct (Z.to_nat (default 100 (req_generations data))) as [|g] eqn:Eg; [lia|].
    rewrite evolve_empty_raises. reflexivity.
Qed.

Lemma solve_with_empty_population_witness :
  solve_knapsack (Some (mkRequest None (Some 0) (Some 3) None None (Some catalog1)))
                 (world0 [1; 0]%N)
  = Ok (ErrorResponse "An error occurred: max() arg is an empty sequence" 500) (world0 [1; 0]%N).
Proof.
  apply (solve_with_empty_population
           (mkRequest None (Some 0) (Some 3) None None (Some catalog1)) (world0 [1; 0]%N)).
  - discriminate.
  - simpl. lia.
  - simpl. lia.
Defined.

(** With [generations <= 0] the answer is the projection of the fittest
    candidate of the initial population, the first one among equally fit
    candidates: no transition runs. *)
Theorem solve_without_generations (data : Request) (w : World) :
  default [] (req_items data) <> [] ->
  default 100 (req_generations data) <= 0 ->
  let cat := default [] (req_items data) in
  let mw := default 15 (req_max_weight data) in
  exists population w1,
    generate_initial_population (default 6 (req_population_size data)) cat mw w
    = Ok population w1 /\
    solve_knapsack (Some data) w
    = project_result mw (max_by_fitness (heap w1) population) w1 /\
    (population <> [] -> exists b, max_by_fitness (heap w1) population = Some b) /\
    (forall b, max_by_fitness (heap w1) population = Some b ->
       b ∈ population /\
       forall x, x ∈ population ->
                 fitness (deref (heap w1) x) <= fitness (deref (heap w1) b)).
Proof.
  intros Hitems Hg cat mw.
  destruct (generate_initial_population_exact (default 6 (req_population_size data)) cat mw w)
    as (population & w1 & Hrun & Hperm & Hpre & Hlen & Hwf & _).
  exists population, w1. split; [exact Hrun|].
  split; [|split; [apply max_by_fitness_nonempty | apply max_by_fitness_spec]].
  unfold solve_knapsack, try_except.
  assert (Hne : empty_request data = false).
  { unfold empty_request. destruct (req_items data); [|contradiction Hitems; reflexivity].
    destruct (req_max_weight data), (req_population_size data), (req_generations data),
      (req_crossover_rate data), (req_mutation_rate data); reflexivity. }
  rewrite Hne. fold cat mw. destruct cat as [|it cat'] eqn:Ecat; [contradiction|].
  rewrite <- Ecat in *.
  unfold bind at 1, run_search, bind at 1. rewrite Hrun.
  unfold bind at 1, max_fitness_default.
  replace (Z.to_nat (default 100 (req_generations data))) with 0%nat by lia.
  cbn [evolve ret snd].
  assert (Hinv : inv cat mw (length (heap w)) w1 /\
                 live_opt (length (heap w)) w1 (max_by_fitness (heap w1) population)).
  { pose proof (generate_initial_population_post True cat mw
                  (default 6 (req_population_size data)) w) as Hp.
    rewrite Hrun in Hp. destruct Hp as (Hlat & Hlive & _). split; [apply Hlat|].
    destruct (max_by_fitness (heap w1) population) as [b|] eqn:Hb; [|exact I].
    apply max_by_fitness_elem in Hb. rewrite Forall_forall in Hlive. apply Hlive, Hb. }
  destruct Hinv as [Hinv Hbest].
  destruct (project_result_spec cat mw _ _ w1 Hinv Hbest) as (sel & tv & tw & Hproj & _).
  rewrite Hproj. reflexivity.
Qed.

Lemma solve_without_generations_witness :
  let data := mkRequest (Some 5) (Some 2) (Some 0) None None (Some catalog4) in
  let w := world0 [1; 1; 0; 0; 1; 1; 1; 1]%N in
  exists population w1,
    generate_initial_population 2 catalog4 5 w = Ok population w1 /\
    solve_knapsack (Some data) w = project_result 5 (max_by_fitness (heap w1) population) w1.
Proof.
  intros data w.
  destruct (solve_without_generations data w) as (population & w1 & Hrun & Hsolve & _).
  - discriminate.
  - simpl. lia.
  - exists population, w1. split; [exact Hrun | exact Hsolve].
Defined.

Lemma next_generation_single (x : ref) (its : list Item) (mw : Z) (cr mr : Q) (w : World) :
  next_generation [x] its mw cr mr w = Ok [x] w.
Proof. reflexivity. Qed.

Lemma generation_step_single (x : ref) (its : list Item) (mw : Z) (cr mr : Q) (w : World) :
  generation_step its mw cr mr ([x], Some x) w = Ok ([x], Some x) w.
Proof.
  unfold generation_step, bind. rewrite next_generation_single.
  unfold max_fitness, fitness_of, bind, get, ret. cbn [max_by_fitness].
  destruct (Z.gtb_spec (fitness (deref (heap w) x)) (fitness (deref (heap w) x))); [lia|].
  reflexivity.
Qed.

Lemma evolve_single (g : nat) (x : ref) (its : list Item) (mw : Z) (cr mr : Q) (w : World) :
  evolve g its mw cr mr ([x], Some x) w = Ok ([x], Some x) w.
Proof.
  induction g as [|g IH]; cbn [evolve]; [reflexivity|].
  unfold bind. rewrite generation_step_single. exact IH.
Qed.

Lemma run_search_single (its : list Item) (mw g : Z) (cr mr : Q) (w : World) :
  run_search its mw 1 g cr mr w = run_search its mw 1 0 cr mr w.
Proof.
  unfold run_search, bind.
  destruct (generate_initial_population_exact 1 its mw w)
    as (population & w1 & Hrun & Hperm & _).
  rewrite Hrun. cbn [seq Z.to_nat Pos.to_nat Pos.iter_op Nat.add] in Hperm.
  apply Permutation_singleton_r in Hperm. subst population.
  unfold max_fitness_default. cbn [max_by_fitness].
  rewrite !evolve_single. reflexivity.
Qed.

(** With [population_size = 1] the generations change nothing: the only
    candidate is its own elite, no parent is selected and no bit is
    mutated, so the answer and the final world do not depend on
    [generations]. *)
Theorem solve_single_candidate (data : Request) (g : option Z) (w : World) :
  req_population_size data = Some 1 ->
  solve_knapsack (Some (with_generations g data)) w = solve_knapsack (Some data) w.
Proof.
  intros Hsize.
  assert (Hne : forall d, req_population_size d = Some 1 -> empty_request d = false).
  { intros d Hd. unfold empty_request. rewrite Hd. destruct (req_max_weight d); reflexivity. }
  unfold solve_knapsack, try_except.
  rewrite (Hne data Hsize), (Hne (with_generations g data) Hsize).
  cbn [with_generations req_max_weight req_population_size req_generations
       req_crossover_rate req_mutation_rate req_items]. rewrite Hsize. cbn [default].
  destruct (default [] (req_items data)) as [|it cat]; [reflexivity|].
  unfold bind.
  rewrite (run_search_single (it :: cat) _ (default 100 g)).
  rewrite (run_search_single (it :: cat) _ (default 100 (req_generations data))). reflexivity.
Qed.

Lemma solve_single_candidate_witness :
  let data := mkRequest (Some 5) (Some 1) (Some 7) None None (Some catalog4) in
  solve_knapsack (Some (with_generations (Some 1000) data)) (world0 [0; 1; 0; 0]%N)
  = solve_knapsack (Some data) (world0 [0; 1; 0; 0]%N).
Proof.
  intros data. apply (solve_single_candidate data (Some 1000) (world0 [0; 1; 0; 0]%N)).
  reflexivity.
Defined.

(** Without a generation to run, or with a single candidate, the search
    returns: no parent is selected and nothing is recombined. *)
Lemma run_search_returns_without_turns (its : list Item) (mw size g : Z) (cr mr : Q)
    (w : World) :
  g <= 0 \/ size = 1 ->
  exists st w', run_search its mw size g cr mr w = Ok st w'.
Proof.
  assert (H0 : forall size', exists st w', run_search its mw size' 0 cr mr w = Ok st w').
  { intros size'. unfold run_search, bind.
    destruct (generate_initial_population_exact size' its mw w) as (population & w1 & Hrun & _).
    rewrite Hrun. eexists _, _. reflexivity. }
  intros [Hg | ->].
  - unfold run_search. replace (Z.to_nat g) with (Z.to_nat 0) by lia. apply H0.
  - rewrite run_search_single. apply H0.
Qed.

(** On a body that [request.get_json()] returns as [None] or as an
    object with values of the expected types, [solve_knapsack] always
    answers, with status 200, 400 or 500.  The status is 400 exactly when
    the body is [None], an empty object or has no items, and then nothing
    was drawn or allocated.  It is 500 only when there is a generation to
    run and either the population size is not positive or the catalog
    has a single item and the population at least two candidates. *)
Theorem solve_always_answers (data : option Request) (w : World) :
  exists resp w',
    solve_knapsack data w = Ok resp w' /\
    (status_of resp = 200 \/ status_of resp = 400 \/ status_of resp = 500) /\
    (status_of resp = 400 <->
       data = None \/ exists d, data = Some d /\ default [] (req_items d) = []) /\
    (status_of resp = 400 -> w' = w) /\
    (status_of resp = 500 ->
       exists d, data = Some d /\
         1 <= default 100 (req_generations d) /\
         (length (default [] (req_items d)) = 1%nat /\
            2 <= default 6 (req_population_size d) \/
          default 6 (req_population_size d) <= 0)).
Proof.
  unfold solve_knapsack, try_except.
  destruct data as [d|].
  2:{ eexists _, _. split; [reflexivity|]. cbn [status_of].
      split; [auto|]. split; [|split; [reflexivity | discriminate]].
      split; auto. }
  destruct (empty_request d) eqn:Hempty.
  { eexists _, _. split; [reflexivity|]. cbn [status_of].
    split; [auto|]. split; [|split; [reflexivity | discriminate]].
    split; [|reflexivity]. intros _. right. exists d. split; [reflexivity|].
    unfold empty_request in Hempty.
    destruct (req_max_weight d), (req_population_size d), (req_generations d),
      (req_crossover_rate d), (req_mutation_rate d), (req_items d); try discriminate.
    reflexivity. }
  destruct (default [] (req_items d)) as [|it cat'] eqn:Ecat.
  { eexists _, _. split; [reflexivity|]. cbn [status_of].
    split; [auto|]. split; [|split; [reflexivity | discriminate]].
    split; [|reflexivity]. intros _. right. exists d. auto. }
  set (cat := it :: cat') in *.
  set (size := default 6 (req_population_size d)).
  set (g := default 100 (req_generations d)).
  set (E := length cat = 1%nat \/ size <= 0).
  assert (Hpost : holds E (run_search cat (default 15 (req_max_weight d)) size g
                (default default_crossover_rate (req_crossover_rate d))
                (default default_mutation_rate (req_mutation_rate d)) w)
                (fun st w' => inv cat (default 15 (req_max_weight d)) (length (heap w)) w' /\
                              state_ok (length (heap w)) w' st /\
                              Z.of_nat (length (fst st)) = Z.max 0 size)).
  { apply run_search_post.
    - intros Hlt. left. unfold cat in *. simpl in *. lia.
    - intros Hle. right. exact Hle. }
  assert (Hnot400 : ~ (None = Some d \/ exists d0, Some d = Some d0 /\ default [] (req_items d0) = [])).
  { intros [H | (d0 & [= <-] & H)]; [discriminate|]. rewrite Ecat in H. discriminate. }
  unfold bind.
  destruct (run_search cat _ size g _ _ w) as [st w1|e w1|] eqn:Hrun; cbn [holds] in Hpost.
  - destruct Hpost as (Hinv & [_ Hbest] & _).
    destruct (project_result_shape cat _ _ (snd st) w1 Hinv Hbest)
      as (sel & tv & tw & Hproj & _).
    rewrite Hproj. eexists _, _. split; [reflexivity|]. cbn [status_of].
    split; [auto|]. split; [|split; discriminate].
    split; [discriminate|]. intros H. exfalso. apply Hnot400.
    destruct H as [H | H]; [discriminate H | right; exact H].
  - eexists _, _. split; [reflexivity|]. cbn [ret status_of].
    split; [auto|]. split; [|split; [discriminate|]].
    + split; [discriminate|]. intros H. exfalso. apply Hnot400.
      destruct H as [H | H]; [discriminate H | right; exact H].
    + intros _. exists d. split; [reflexivity|]. rewrite Ecat. fold cat size g.
      assert (Hturn : ~ (g <= 0 \/ size = 1)).
      { intros H.
        destruct (run_search_returns_without_turns cat (default 15 (req_max_weight d)) size g
                    (default default_crossover_rate (req_crossover_rate d))
                    (default default_mutation_rate (req_mutation_rate d)) w H)
          as (st & w' & Hok).
        rewrite Hok in Hrun. discriminate. }
      split; [lia|]. destruct Hpost as [Hone | Hsize]; [|right; exact Hsize].
      destruct (Z.le_gt_cases size 0) as [Hle|Hgt]; [right; exact Hle|].
      left. split; [exact Hone | lia].
  - destruct Hpost.
Qed.

(** * The front end *)

Lemma initialize_session_state_ok :
  ids_ok (initialize_session_state (mkSession None None None)) /\
  items_filled (initialize_session_state (mkSession None None None)).
Proof.
  split.
  - exists [], 0. repeat split; [constructor | apply Forall_nil_2].
  - exists []. split; [reflexivity | apply Forall_nil_2].
Qed.

Lemma Forall_filter_keep {A} (P Q : A -> Prop) `{!forall x, Decision (Q x)} (l : list A) :
  Forall P l -> Forall P (filter Q l).
Proof.
  intros HP. apply Forall_forall. intros x Hx.
  apply list_elem_of_filter in Hx as [_ Hx]. rewrite Forall_forall in HP. apply HP, Hx.
Qed.

Lemma truthy_str_true (s : string) : truthy_str s = true -> s <> EmptyString.
Proof. destruct s; [discriminate | intros _; discriminate]. Qed.

Lemma truthy_int_true (z : Z) : truthy_int z = true -> z <> 0.
Proof. unfold truthy_int. destruct (Z.eqb_spec z 0); [discriminate | auto]. Qed.

(** Adding and deleting keep a session in order: the ids stay pairwise
    distinct and below the counter, every stored item has a name and a
    weight and value other than zero, and neither operation meets a
    missing key. *)
Theorem session_stays_in_order (s : SessionState) :
  ids_ok s -> items_filled s ->
  (forall name weight value,
     exists b s', add_item name weight value s = Some (b, s') /\
                  ids_ok s' /\ items_filled s' /\
                  (b = false -> s' = s)) /\
  (forall id, exists s', delete_item id s = Some s' /\ ids_ok s' /\ items_filled s').
Proof.
  intros (its & n & Hits & Hn & Hnd & Hlt) (its' & Hits' & Hfilled).
  rewrite Hits in Hits'. injection Hits' as <-.
  split.
  - intros name weight value. unfold add_item. rewrite Hits, Hn.
    destruct (truthy_str name) eqn:E1; cbn [andb];
      [|exists false, s; split; [reflexivity|]; split; [exists its, n; auto|];
        split; [exists its; auto | reflexivity]].
    destruct (truthy_int weight) eqn:E2; cbn [andb];
      [|exists false, s; split; [reflexivity|]; split; [exists its, n; auto|];
        split; [exists its; auto | reflexivity]].
    destruct (truthy_int value) eqn:E3;
      [|exists false, s; split; [reflexivity|]; split; [exists its, n; auto|];
        split; [exists its; auto | reflexivity]].
    eexists true, _. split; [reflexivity|]. split; [|split; [|discriminate]].
    + eexists _, _. split; [reflexivity|]. split; [reflexivity|]. split.
      * rewrite map_app. cbn [map item_id]. apply NoDup_app. split; [assumption|].
        split; [|apply NoDup_singleton].
        intros x Hx Hx'. apply list_elem_of_singleton in Hx'. subst x.
        apply list_elem_of_fmap in Hx as (it & Hid & Hit).
        rewrite Forall_forall in Hlt. specialize (Hlt it Hit). lia.
      * apply Forall_app. split.
        -- eapply Forall_impl; [exact Hlt|]. intros it Hit. simpl in Hit. lia.
        -- apply Forall_cons_2; [simpl; lia | apply Forall_nil_2].
    + eexists. split; [reflexivity|]. apply Forall_app. split; [assumption|].
      apply Forall_cons_2; [|apply Forall_nil_2]. cbn [item_name item_weight item_value].
      split; [apply truthy_str_true, E1|]. split; apply truthy_int_true; assumption.
  - intros id. unfold delete_item. rewrite Hits. eexists. split; [reflexivity|]. split.
    + eexists _, n. split; [reflexivity|]. split; [exact Hn|]. split.
      * apply (NoDup_fmap_2_strong item_id).
        -- intros x y Hx Hy Hxy.
           apply list_elem_of_filter in Hx as [_ Hx]. apply list_elem_of_filter in Hy as [_ Hy].
           apply list_elem_of_lookup in Hx as [i Hi]. apply list_elem_of_lookup in Hy as [j Hj].
           assert (Hij : i = j).
           { apply (NoDup_lookup (map item_id its) i j (item_id x)); [assumption|..];
               rewrite list_lookup_fmap; [rewrite Hi | rewrite Hj, Hxy]; reflexivity. }
           subst j. congruence.
        -- apply NoDup_filter. apply (NoDup_fmap_1 item_id). assumption.
      * apply Forall_filter_keep. assumption.
    + eexists. split; [reflexivity|]. apply Forall_filter_keep. assumption.
Qed.

Lemma session_stays_in_order_witness :
  exists b s', add_item "A" 2 3 (initialize_session_state (mkSession None None None))
               = Some (b, s') /\ ids_ok s'.
Proof.
  destruct (session_stays_in_order (initialize_session_state (mkSession None None None))
              (proj1 initialize_session_state_ok) (proj2 initialize_session_state_ok))
    as [Hadd _].
  destruct (Hadd "A"%string 2 3) as (b & s' & Hrun & Hok & _).
  exists b, s'. split; [exact Hrun | exact Hok].
Defined.

Lemma filter_keeps_all {A} (P : A -> Prop) `{!forall x, Decision (P x)} (l : list A) :
  Forall P l -> filter P l = l.
Proof.
  induction 1 as [|x l Hx _ IH]; [reflexivity|].
  rewrite filter_cons, decide_True by assumption. f_equal. exact IH.
Qed.

Lemma other_ids_of_absent (id : Z) (its : list SessionItem) :
  id ∉ map item_id its -> Forall (fun it => item_id it <> id) its.
Proof.
  intros Hnotin. apply Forall_forall. intros it Hit Hid. apply Hnotin.
  apply list_elem_of_fmap. exists it. split; [symmetry; exact Hid | exact Hit].
Qed.

Lemma filter_other_ids_length (id : Z) (its : list SessionItem) :
  NoDup (map item_id its) -> id ∈ map item_id its ->
  length its = S (length (filter (fun it => item_id it <> id) its)).
Proof.
  induction its as [|it its IH]; intros Hnd Hin; [inversion Hin|].
  cbn [map] in Hnd, Hin. apply NoDup_cons in Hnd as [Hnotin Hnd].
  rewrite filter_cons. destruct (decide (item_id it <> id)) as [Hne|Heq].
  - apply elem_of_cons in Hin as [Hid|Hin]; [congruence|].
    cbn [length]. f_equal. apply IH; assumption.
  - assert (Hid : item_id it = id) by (destruct (decide (item_id it = id)); [assumption | contradiction]).
    rewrite Hid in Hnotin. rewrite filter_keeps_all by (apply other_ids_of_absent; assumption).
    reflexivity.
Qed.

(** [delete_item] removes the item with the given id and nothing else:
    the other items stay, in order; the list gets shorter by exactly one
    when the id is present and is unchanged when it is absent; the
    counter of ids is not touched. *)
Theorem delete_item_removes_one (s : SessionState) (its : list SessionItem) (id : Z) :
  ids_ok s -> ss_items s = Some its ->
  exists s' its',
    delete_item id s = Some s' /\
    ss_items s' = Some its' /\ ss_next_id s' = ss_next_id s /\
    its' `sublist_of` its /\
    (forall it, it ∈ its' <-> it ∈ its /\ item_id it <> id) /\
    (id ∈ map item_id its -> length its = S (length its')) /\
    (id ∉ map item_id its -> its' = its).
Proof.
  intros (its0 & n & Hits0 & Hn & Hnd & Hlt) Hits.
  rewrite Hits in Hits0. injection Hits0 as <-.
  unfold delete_item. rewrite Hits. eexists _, _. split; [reflexivity|].
  cbn [ss_items ss_next_id]. split; [reflexivity|]. split; [reflexivity|].
  split; [apply sublist_filter|]. split; [|split].
  - intros it. rewrite list_elem_of_filter. tauto.
  - apply filter_other_ids_length. assumption.
  - intros Hnotin. apply filter_keeps_all, other_ids_of_absent, Hnotin.
Qed.

Lemma delete_item_removes_one_witness :
  let s := mkSession (Some [mkSessionItem 0 "A" 2 3; mkSessionItem 1 "B" 3 4]) (Some 2) (Some 2) in
  exists s' its',
    delete_item 0 s = Some s' /\ ss_items s' = Some its' /\ length its' = 1%nat.
Proof.
  intros s.
  destruct (delete_item_removes_one s [mkSessionItem 0 "A" 2 3; mkSessionItem 1 "B" 3 4] 0)
    as (s' & its' & Hrun & Hits & _ & _ & _ & Hlen & _).
  - eexists _, 2. split; [reflexivity|]. split; [reflexivity|]. split.
    + cbn [map item_id]. apply NoDup_cons. split; [|apply NoDup_singleton].
      intros H. apply list_elem_of_singleton in H. discriminate.
    + apply Forall_cons_2; [simpl; lia|]. apply Forall_cons_2; [simpl; lia | apply Forall_nil_2].
  - reflexivity.
  - exists s', its'. split; [exact Hrun|]. split; [exact Hits|].
    assert (H : 2%nat = S (length its')) by (apply Hlen; cbn [map item_id]; left).
    lia.
Defined.

(** Deleting the item just added gives back the list as it was; the
    counter stays advanced, so the id is not handed out again. *)
Theorem add_then_delete_restores_items (s s1 : SessionState) (name : string) (weight value : Z) :
  ids_ok s -> add_item name weight value s = Some (true, s1) ->
  exists n s2,
    ss_next_id s = Some n /\
    delete_item n s1 = Some s2 /\
    ss_items s2 = ss_items s /\ ss_next_id s2 = Some (n + 1).
Proof.
  intros (its & n & Hits & Hn & Hnd & Hlt). unfold add_item. rewrite Hits, Hn.
  destruct (truthy_str name && truthy_int weight && truthy_int value); [|discriminate].
  intros [= <-]. exists n. unfold delete_item. cbn [ss_items ss_next_id ss_form_key].
  eexists. split; [reflexivity|]. split; [reflexivity|].
  cbn [ss_items ss_next_id]. split; [|reflexivity].
  f_equal. rewrite filter_app, filter_cons, filter_nil.
  cbn [item_id]. rewrite decide_False by (intros H; apply H; reflexivity).
  rewrite app_nil_r. apply filter_keeps_all.
  eapply Forall_impl; [exact Hlt|]. intros it Hit. simpl in Hit. lia.
Qed.

Lemma add_then_delete_restores_items_witness :
  let s := initialize_session_state (mkSession None None None) in
  exists s1 n s2,
    add_item "A" 2 3 s = Some (true, s1) /\ delete_item n s1 = Some s2 /\
    ss_items s2 = ss_items s.
Proof.
  intros s.
  assert (Hadd : add_item "A" 2 3 s
                 = Some (true, mkSession (Some [mkSessionItem 0 "A" 2 3]) (Some 1) (Some 0)))
    by reflexivity.
  destruct (add_then_delete_restores_items s _ "A" 2 3
              (proj1 initialize_session_state_ok) Hadd) as (n & s2 & _ & Hdel & Hitems & _).
  eexists _, n, s2. split; [exact Hadd|]. split; [exact Hdel | exact Hitems].
Defined.

(** The answers to a request that has items: a result within the cap,
    selected from the catalog, or an error with status 500 that needs a
    one-item catalog or an empty population. *)
Lemma solve_with_items_cases (data : Request) (w : World) :
  default [] (req_items data) <> [] ->
  let cat := default [] (req_items data) in
  let mw := default 15 (req_max_weight data) in
  exists resp w',
    solve_knapsack (Some data) w = Ok resp w' /\
    ((exists sel tv tw,
        resp = Result sel tv tw /\ sel `sublist_of` cat /\
        tv = sumZ (map value sel) /\ tw = sumZ (map weight sel) /\
        (0 <= mw -> tw <= mw)) \/
     (exists e, resp = ErrorResponse ("An error occurred: " ++ exn_str e) 500 /\
        (length cat = 1%nat \/ default 6 (req_population_size data) <= 0))).
Proof.
  intros Hitems cat mw. unfold solve_knapsack, try_except.
  assert (Hne : empty_request data = false).
  { unfold empty_request. destruct (req_items data); [|contradiction Hitems; reflexivity].
    destruct (req_max_weight data), (req_population_size data), (req_generations data),
      (req_crossover_rate data), (req_mutation_rate data); reflexivity. }
  rewrite Hne. fold cat mw.
  destruct cat as [|it cat'] eqn:Ecat; [contradiction|]. rewrite <- Ecat in *.
  set (E := length cat = 1%nat \/ default 6 (req_population_size data) <= 0).
  assert (Hpost : holds E (run_search cat mw (default 6 (req_population_size data))
                (default 100 (req_generations data))
                (default default_crossover_rate (req_crossover_rate data))
                (default default_mutation_rate (req_mutation_rate data)) w)
                (fun st w' => inv cat mw (length (heap w)) w' /\
                              state_ok (length (heap w)) w' st /\
                              Z.of_nat (length (fst st))
                              = Z.max 0 (default 6 (req_population_size data)))).
  { apply run_search_post.
    - intros Hlt. left. rewrite Ecat in *. simpl in *. lia.
    - intros Hle. right. exact Hle. }
  unfold bind.
  destruct (run_search cat mw _ _ _ _ w) as [st w1|e w1|]; cbn [holds] in Hpost.
  - destruct Hpost as (Hinv & [_ Hbest] & _).
    destruct (project_result_shape cat mw _ (snd st) w1 Hinv Hbest)
      as (sel & tv & tw & Hproj & Hsub & Htv & Htw).
    destruct (project_result_spec cat mw _ (snd st) w1 Hinv Hbest)
      as (sel' & tv' & tw' & Hproj' & Hshape).
    rewrite Hproj in Hproj'. injection Hproj' as <- <- <-.
    rewrite Hproj. eexists _, _. split; [reflexivity|]. left.
    exists sel, tv, tw. split; [reflexivity|]. split; [exact Hsub|].
    split; [exact Htv|]. split; [exact Htw|]. intros Hmw.
    destruct (snd st) as [r|].
    + destruct Hshape as [Hfit Hover].
      destruct (Z.le_gt_cases (get_total_weight (deref (heap w1) r)) mw) as [Hle|Hgt].
      * destruct (Hfit Hle) as (_ & _ & _ & Heq). rewrite Heq. exact Hle.
      * destruct (Hover Hgt) as (_ & _ & Heq). rewrite Heq. exact Hmw.
    + destruct Hshape as (_ & _ & Heq). rewrite Heq. exact Hmw.
  - eexists _, _. split; [reflexivity|]. right. eexists. split; [reflexivity | exact Hpost].
  - destruct Hpost.
Qed.

(** The solve button of the front end, for any position of the weight
    slider, with the POST answered by [solve_knapsack].  Without items
    no request is sent and nothing is drawn.  Otherwise the slider value
    and the items are sent, and what is shown is the answer: the
    message of an error answer, which has status 500, comes from an
    exception and needs a list of exactly one item; for a result with an
    empty selection, which has value 0, the warning; for any other result
    its selection and totals, a selection of the session's items in their
    order with the sums of its values and weights and a weight within the
    slider value.  The world after the click is the one the backend
    left. *)
Theorem solve_click_shows (max_weight : Z) (its : list SessionItem) (w : World) :
  5 <= max_weight <= 100 ->
  match its with
  | [] => on_solve_click max_weight its w = Ok ShowAddItemsFirst w
  | _ :: _ =>
      exists resp w',
        solve_knapsack (Some (request_of_session max_weight its)) w = Ok resp w' /\
        match resp with
        | ErrorResponse msg status =>
            on_solve_click max_weight its w = Ok (ShowError msg) w' /\
            status = 500 /\ length its = 1%nat /\
            exists e, msg = ("An error occurred: " ++ exn_str e)%string
        | Result sel tv tw =>
            sel `sublist_of` map item_payload its /\
            tv = sumZ (map value sel) /\ tw = sumZ (map weight sel) /\ tw <= max_weight /\
            (sel = [] ->
               tv = 0 /\ on_solve_click max_weight its w = Ok ShowNoValidSolution w') /\
            (sel <> [] ->
               on_solve_click max_weight its w = Ok (ShowSolution sel tv tw) w')
        end
  end.
Proof.
  intros Hmw. destruct its as [|it its'] eqn:Eits; [reflexivity|].
  rewrite <- Eits.
  destruct (solve_with_items_cases (request_of_session max_weight its) w)
    as (resp & w' & Hrun & Hcases).
  { cbn [request_of_session req_items default]. rewrite Eits. discriminate. }
  exists resp, w'. split; [exact Hrun|].
  assert (Hclick : on_solve_click max_weight its w
                   = match resp with
                     | ErrorResponse msg _ => Ok (ShowError msg) w'
                     | Result sel tv tw => Ok (display_results sel tv tw) w'
                     end).
  { unfold on_solve_click. rewrite Eits, <- Eits. unfold bind. rewrite Hrun.
    destruct resp; reflexivity. }
  clear Hrun.
  cbn [request_of_session req_items req_max_weight req_population_size default] in Hcases.
  destruct Hcases as [(sel & tv & tw & -> & Hsub & Htv & Htw & Hcap) |
                      (e & -> & [Hlen | Hsize])].
  - split; [exact Hsub|]. split; [exact Htv|]. split; [exact Htw|].
    split; [apply Hcap; simpl; lia|]. split.
    + intros ->. cbn [map sumZ foldr] in Htv. subst tv. split; [reflexivity|].
      rewrite Hclick. reflexivity.
    + intros Hsel. rewrite Hclick. unfold display_results.
      destruct sel as [|x sel]; [contradiction|]. rewrite andb_false_r. reflexivity.
  - split; [exact Hclick|]. split; [reflexivity|]. split; [|exists e; reflexivity].
    rewrite <- Hlen. symmetry. apply (length_map item_payload its).
  - simpl in Hsize. lia.
Qed.

Lemma solve_click_shows_witness :
  let its := [mkSessionItem 0 "A" 2 3; mkSessionItem 1 "B" 3 4] in
  let w := world0 [1; 1; 1; 0; 0; 1; 1; 1; 0; 0; 1; 0]%N in
  exists w',
    on_solve_click 15 its w
    = Ok (ShowSolution [mkItem "A" 2 3; mkItem "B" 3 4] 7 5) w'.
Proof.
  intros its w.
  pose proof (solve_click_shows 15 its w ltac:(lia)) as H.
  cbn [its] in H. destruct H as (resp & w' & Hrun & Hshown).
  assert (Hresp : response_of (solve_knapsack (Some (request_of_session 15 its)) w)
                  = Some (Result [mkItem "A" 2 3; mkItem "B" 3 4] 7 5))
    by (vm_compute; reflexivity).
  fold its in Hrun. rewrite Hrun in Hresp. clear Hrun.
  injection Hresp as ->.
  destruct Hshown as (_ & _ & _ & _ & _ & Hsol).
  exists w'. apply Hsol. discriminate.
Defined.

(** * Tournaments *)

(** One pick of [random.sample] takes an element out of the pool. *)
Lemma pool_pick_perm {A} (d : A) (pool : list A) (j : nat) :
  (j < length pool)%nat ->
  nth j pool d :: take (length pool - 1) (<[j := nth (length pool - 1) pool d]> pool) ≡ₚ pool.
Proof.
  destruct pool as [|a pool0] using rev_ind; [simpl; lia|]. clear IHpool0.
  rename pool0 into l. rename a into x.
  rewrite length_app. cbn [length]. intros Hj.
  replace (length l + 1 - 1)%nat with (length l) by lia.
  rewrite (nth_middle l [] x d).
  destruct (decide (j = length l)) as [->|Hne].
  - rewrite (nth_middle l [] x d).
    rewrite list_insert_id by (rewrite lookup_app_r, Nat.sub_diag by lia; reflexivity).
    rewrite take_app_length. apply Permutation_cons_append.
  - assert (Hjl : (j < length l)%nat) by lia.
    rewrite insert_app_l by assumption.
    rewrite take_app_length' by (rewrite length_insert; reflexivity).
    rewrite app_nth1 by assumption.
    destruct (nth_lookup_or_length l j d) as [Hlk|Hge]; [|lia].
    rewrite insert_take_drop by assumption.
    transitivity ((take j l ++ nth j l d :: drop (S j) l) ++ [x]);
      [|rewrite take_drop_middle by assumption; reflexivity].
    rewrite <- app_assoc. cbn [app].
    rewrite <- (Permutation_middle (take j l) (drop (S j) l ++ [x])).
    apply perm_skip.
    rewrite <- (Permutation_middle (take j l) (drop (S j) l)).
    rewrite app_assoc. apply Permutation_cons_append.
Qed.

Lemma sample_pool_sub {A} (d : A) (k : nat) :
  forall (pool : list A) (w : World),
    (k <= length pool)%nat ->
    post (sample_pool d pool k w)
         (fun l w' => l ⊆+ pool /\ length l = k /\ heap w' = heap w).
Proof.
  induction k as [|k IH]; intros pool w Hk; cbn [sample_pool].
  - unfold post. apply post_ret. split; [apply submseteq_nil_l|]. split; reflexivity.
  - unfold post. apply post_bind.
    eapply post_mono; [apply (randbelow_post True)|]. intros j w1 [Hh1 Hj].
    assert (Hj' : (j < length pool)%nat) by (apply Hj; lia).
    apply post_bind. eapply post_mono.
    + apply IH. rewrite length_take, length_insert. lia.
    + intros rest w2 (Hsub & Hlen & Hh2). apply post_ret.
      split; [|split; [simpl; lia | congruence]].
      rewrite <- (pool_pick_perm d pool j Hj') at 2.
      apply submseteq_skip. exact Hsub.
Qed.

(** The parents [selection] returns come out of tournaments.  With
    fewer than four candidates the parents are taken from distinct
    positions of the population.  With four or more, each parent is the
    winner of a tournament of four candidates taken from distinct
    positions of the population: it belongs to the tournament and no
    member of the tournament is fitter. *)
Theorem selection_tournament_winners (population parents : list ref) (w w' : World) :
  selection population w = Ok parents w' ->
  if (length population <? 4)%nat then parents ⊆+ population
  else exists p1 p2 t1 t2,
      parents = [p1; p2] /\
      t1 ⊆+ population /\ length t1 = 4%nat /\ p1 ∈ t1 /\
      (forall x, x ∈ t1 -> fitness (deref (heap w) x) <= fitness (deref (heap w) p1)) /\
      t2 ⊆+ population /\ length t2 = 4%nat /\ p2 ∈ t2 /\
      (forall x, x ∈ t2 -> fitness (deref (heap w) x) <= fitness (deref (heap w) p2)).
Proof.
  unfold selection. destruct (Nat.ltb_spec (length population) 4) as [Hlt|Hge].
  - unfold random_sample.
    destruct (Nat.ltb_spec (length population) (Nat.min 2 (length population))); [discriminate|].
    intros Hrun.
    pose proof (sample_pool_sub 0%nat (Nat.min 2 (length population)) population w) as Hs.
    rewrite Hrun in Hs. apply Hs. lia.
  - unfold bind, random_sample, max_fitness.
    destruct (Nat.ltb_spec (length population) 4) as [|_]; [lia|].
    pose proof (sample_pool_sub 0%nat 4 population w Hge) as Hs1.
    destruct (sample_pool 0%nat population 4 w) as [t1 w1| |]; try discriminate.
    destruct Hs1 as (Hsub1 & Hlen1 & Hh1).
    destruct (max_by_fitness (heap w1) t1) as [p1|] eqn:Hm1; try discriminate.
    pose proof (sample_pool_sub 0%nat 4 population w1 Hge) as Hs2.
    destruct (sample_pool 0%nat population 4 w1) as [t2 w2| |]; try discriminate.
    destruct Hs2 as (Hsub2 & Hlen2 & Hh2).
    destruct (max_by_fitness (heap w2) t2) as [p2|] eqn:Hm2; try discriminate.
    intros [= <- <-]. exists p1, p2, t1, t2.
    rewrite Hh2, Hh1 in Hm2. rewrite Hh1 in Hm1.
    apply max_by_fitness_spec in Hm1 as [Hin1 Hmax1].
    apply max_by_fitness_spec in Hm2 as [Hin2 Hmax2].
    repeat split; assumption.
Qed.

Lemma selection_tournament_winners_witness :
  let w := mkWorld (heap sample_store) (tape_of [1; 1; 1; 1; 4; 0; 0; 0]%N) 0 (fun _ => 0%N) in
  let out := selection [0; 1; 2; 3; 4]%nat w in
  out = Ok [3; 0]%nat (final_world out w) /\
  exists p1 p2 t1 t2 : _, [3; 0]%nat = [p1; p2] /\ t1 ⊆+ [0; 1; 2; 3; 4]%nat /\ p1 ∈ t1 /\
                          t2 ⊆+ [0; 1; 2; 3; 4]%nat /\ p2 ∈ t2.
Proof.
  intros w out.
  assert (Hrun : out = Ok [3; 0]%nat (final_world out w)) by (vm_compute; reflexivity).
  split; [exact Hrun|].
  pose proof (selection_tournament_winners [0; 1; 2; 3; 4]%nat [3; 0]%nat w
                (final_world out w) Hrun) as H.
  cbn [length Nat.ltb Nat.leb] in H.
  destruct H as (p1 & p2 & t1 & t2 & He & Hs1 & _ & Hi1 & _ & Hs2 & _ & Hi2 & _).
  exists p1, p2, t1, t2. repeat split; assumption.
Defined.

(** * One-item catalogs *)

Lemma crossover_one_item (parents : list ref) (cat : list Item) (mw : Z) (rate u : Q)
    (w w1 : World) :
  length cat = 1%nat -> (2 <= length parents)%nat ->
  random_random w = Ok u w1 -> Qle_bool u rate = true ->
  crossover parents cat mw rate w = Raise (ValueError_empty_range 1 1 0) w1.
Proof.
  intros Hcat Hpar Hu Hle. unfold crossover.
  destruct (Nat.ltb_spec (length parents) 2) as [Hlt|_]; [lia|].
  unfold bind. rewrite Hu, Hle, Hcat. reflexivity.
Qed.

(** The first turn of the loop of [next_generation] runs [selection]
    and [crossover] in the store it was called in, as soon as the
    population has two candidates; what [crossover] raises there leaves
    the transition. *)
Lemma next_generation_first_turn_raises (population parents : list ref) (its : list Item)
    (mw : Z) (cr mr : Q) (e : exn) (w w2 w3 : World) :
  (2 <= length population)%nat ->
  selection population w = Ok parents w2 ->
  crossover parents its mw cr w2 = Raise e w3 ->
  next_generation population its mw cr mr w = Raise e w3.
Proof.
  intros Hlen Hsel Hcross. unfold next_generation, bind at 1, sorted_by_fitness_desc.
  unfold bind at 1.
  assert (Hel : (length (take (elite_count population) (sorted_desc (heap w) population))
                 < length population)%nat).
  { rewrite length_take, (Permutation_length (sorted_desc_perm (heap w) population)).
    unfold elite_count.
    assert (length population / 10 < length population)%nat
      by (apply Nat.div_lt; lia).
    lia. }
  destruct (length population) as [|fuel] eqn:El; [lia|].
  cbn [fill_next_gen]. rewrite <- El.
  destruct (Nat.ltb_spec (length (take (elite_count population)
                                       (sorted_desc (heap w) population)))
                         (length population)) as [_|Hge]; [|lia].
  unfold bind at 1. rewrite Hsel. unfold bind at 1. rewrite Hcross. reflexivity.
Qed.

(** C9: over a catalog of one item, with two parents and a recombination
    draw not above the rate, crossover asks [random.randint] for a point
    of the empty range [1, 0] and raises.  On every one-item request with
    a population of at least two and at least one generation, whenever
    the first selection yields its parents and the recombination draw
    that follows is not above the rate, the exception leaves the
    generational loop and [solve_knapsack] answers with the message of
    the exception and status 500 instead of a result; the last part is
    such a request, with the default rates, and its answer. *)
Theorem one_item_crossover_raises :
  (forall (parents : list ref) (cat : list Item) (mw : Z) (rate u : Q) (w w1 : World),
     length cat = 1%nat -> (2 <= length parents)%nat ->
     random_random w = Ok u w1 -> Qle_bool u rate = true ->
     crossover parents cat mw rate w = Raise (ValueError_empty_range 1 1 0) w1) /\
  (forall (data : Request) (it : Item) (w : World),
     req_items data = Some [it] ->
     2 <= default 6 (req_population_size data) ->
     1 <= default 100 (req_generations data) ->
     let mw := default 15 (req_max_weight data) in
     let rate := default default_crossover_rate (req_crossover_rate data) in
     exists (population : list ref) (w1 : World),
       generate_initial_population (default 6 (req_population_size data)) [it] mw w
       = Ok population w1 /\
       forall (parents : list ref) (w2 : World) (u : Q) (w3 : World),
         selection population w1 = Ok parents w2 ->
         random_random w2 = Ok u w3 -> Qle_bool u rate = true ->
         length parents = 2%nat /\
         run_search [it] mw (default 6 (req_population_size data))
                    (default 100 (req_generations data)) rate
                    (default default_mutation_rate (req_mutation_rate data)) w
         = Raise (ValueError_empty_range 1 1 0) w3 /\
         solve_knapsack (Some data) w
         = Ok (ErrorResponse "An error occurred: empty range for randrange() (1, 1, 0)" 500) w3) /\
  (exists w' : World,
     solve_knapsack (Some (mkRequest (Some 1) (Some 2) (Some 1) None None (Some catalog1)))
                    (world0 [0; 1; 0; 0; 0]%N)
     = Ok (ErrorResponse "An error occurred: empty range for randrange() (1, 1, 0)" 500) w').
Proof.
  split; [exact crossover_one_item|]. split.
  - intros data it w Hitems Hsize Hgen mw rate.
    destruct (generate_initial_population_exact (default 6 (req_population_size data))
                [it] mw w) as (population & w1 & Hinit & Hperm & _).
    exists population, w1. split; [exact Hinit|].
    intros parents w2 u w3 Hsel Hu Hle.
    assert (Hlen : length population = Z.to_nat (default 6 (req_population_size data))).
    { rewrite (Permutation_length Hperm). apply length_seq. }
    assert (Hpar : length parents = 2%nat).
    { pose proof (selection_post True (fun _ => True) population w1 (Forall_true _ _ (fun _ => I)))
        as Hs.
      rewrite Hsel in Hs. destruct Hs as (_ & _ & Hs). rewrite Hs. lia. }
    assert (Hsearch : run_search [it] mw (default 6 (req_population_size data))
                        (default 100 (req_generations data)) rate
                        (default default_mutation_rate (req_mutation_rate data)) w
                      = Raise (ValueError_empty_range 1 1 0) w3).
    { unfold run_search, bind at 1. rewrite Hinit.
      unfold bind at 1, max_fitness_default.
      destruct (Z.to_nat (default 100 (req_generations data))) as [|g] eqn:Eg; [lia|].
      cbn [evolve]. unfold bind at 1, generation_step, bind at 1.
      rewrite (next_generation_first_turn_raises population parents [it] mw rate _
                 (ValueError_empty_range 1 1 0) w1 w2 w3); [reflexivity | lia | exact Hsel |].
      apply (crossover_one_item parents [it] mw rate u w2 w3); [reflexivity | lia | exact Hu | exact Hle]. }
    split; [exact Hpar|]. split; [exact Hsearch|].
    unfold solve_knapsack, try_except.
    assert (Hne : empty_request data = false).
    { unfold empty_request. rewrite Hitems.
      destruct (req_max_weight data), (req_population_size data), (req_generations data),
        (req_crossover_rate data), (req_mutation_rate data); reflexivity. }
    rewrite Hne, Hitems. cbn [default from_option id]. fold mw rate.
    unfold bind. rewrite Hsearch. reflexivity.
  - eexists. vm_compute. reflexivity.
Qed.

Lemma one_item_crossover_raises_witness :
  let data := mkRequest (Some 1) (Some 2) (Some 1) None None (Some catalog1) in
  exists w',
    solve_knapsack (Some data) (world0 [0; 1; 0; 0; 0]%N)
    = Ok (ErrorResponse "An error occurred: empty range for randrange() (1, 1, 0)" 500) w'.
Proof.
  intros data.
  destruct (proj1 (proj2 one_item_crossover_raises) data (mkItem "A" 1 1)
              (world0 [0; 1; 0; 0; 0]%N))
    as (population & w1 & Hinit & Hrun); [reflexivity | simpl; lia | simpl; lia |].
  assert (Hpop : generate_initial_population 2 catalog1 1 (world0 [0; 1; 0; 0; 0]%N)
                 = Ok [0; 1]%nat
                      (mkWorld [mkIndividual [0] catalog1 1; mkIndividual [1] catalog1 1]
                               (tape_of [0; 1; 0; 0; 0]%N) 2 (fun _ => 0%N)))
    by (vm_compute; reflexivity).
  change (generate_initial_population 2 catalog1 1 (world0 [0; 1; 0; 0; 0]%N)
          = Ok population w1) in Hinit.
  rewrite Hpop in Hinit. injection Hinit as <- <-.
  destruct (Hrun [0; 1]%nat
              (mkWorld [mkIndividual [0] catalog1 1; mkIndividual [1] catalog1 1]
                       (tape_of [0; 1; 0; 0; 0]%N) 4 (fun _ => 0%N))
              (0 # 2 ^ 53)
              (mkWorld [mkIndividual [0] catalog1 1; mkIndividual [1] catalog1 1]
                       (tape_of [0; 1; 0; 0; 0]%N) 5 (fun _ => 0%N)))
    as (_ & _ & Hsolve); [vm_compute; reflexivity | reflexivity | reflexivity |].
  eexists. exact Hsolve.
Defined.

(** * Objects of earlier calls *)

(** A call that starts in a store holding the objects [pre] of earlier
    calls does what it does in an empty store, with its references moved
    behind [pre]: it never reads or writes the earlier objects. *)

Section Lift.

Variable pre : list Individual.

Lemma deref_shift (h : list Individual) (r : ref) :
  deref (pre ++ h) (shift pre r) = deref h r.
Proof. unfold deref, shift. apply app_nth2_plus. Qed.

Lemma nth_map_shift (l : list ref) (j : nat) :
  (j < length l)%nat -> nth j (map (shift pre) l) 0%nat = shift pre (nth j l 0%nat).
Proof.
  intros Hj. rewrite (nth_indep _ 0%nat (shift pre 0%nat)) by (rewrite length_map; exact Hj).
  apply map_nth.
Qed.

Lemma elem_of_map_shift (r : ref) (l : list ref) :
  shift pre r ∈ map (shift pre) l <-> r ∈ l.
Proof.
  split.
  - intros H. apply list_elem_of_fmap in H as (x & Hx & Hin).
    unfold shift in Hx. assert (r = x) by lia. subst x. exact Hin.
  - intros H. apply list_elem_of_fmap. exists r. split; [reflexivity | exact H].
Qed.

Lemma set_add_shift (r : ref) (s : list ref) :
  set_add (shift pre r) (map (shift pre) s) = map (shift pre) (set_add r s).
Proof.
  unfold set_add.
  destruct (decide (r ∈ s)) as [Hin|Hnotin],
           (decide (shift pre r ∈ map (shift pre) s)) as [Hin'|Hnotin'].
  - reflexivity.
  - exfalso. apply Hnotin'. apply elem_of_map_shift. exact Hin.
  - exfalso. apply Hnotin. apply elem_of_map_shift. exact Hin'.
  - rewrite map_app. reflexivity.
Qed.

Lemma arrange_shift (salt : nat -> N) (k : nat) :
  forall (i : nat) (pool : list ref),
    (k <= length pool)%nat ->
    arrange 0%nat salt i (map (shift pre) pool) k
    = map (shift pre) (arrange 0%nat salt i pool k).
Proof.
  induction k as [|k IH]; intros i pool Hk; cbn [arrange]; [reflexivity|].
  rewrite length_map.
  set (j := N.to_nat (salt i mod N.of_nat (length pool))%N).
  assert (Hj : (j < length pool)%nat).
  { unfold j. rewrite N2Nat.inj_mod, Nat2N.id. apply Nat.mod_upper_bound. lia. }
  rewrite nth_map_shift by exact Hj. cbn [map]. f_equal.
  rewrite firstn_map, skipn_map, <- map_app. apply IH.
  rewrite length_app, length_take, length_drop. lia.
Qed.

Lemma max_by_fitness_shift (h : list Individual) (l : list ref) :
  max_by_fitness (pre ++ h) (map (shift pre) l) = option_map (shift pre) (max_by_fitness h l).
Proof.
  induction l as [|x l IH]; cbn [map max_by_fitness]; [reflexivity|].
  rewrite IH. destruct (max_by_fitness h l) as [y|]; cbn [option_map]; [|reflexivity].
  rewrite !deref_shift. destruct (fitness (deref h y) >? fitness (deref h x)); reflexivity.
Qed.

Lemma insert_desc_shift (h : list Individual) (x : ref) (l : list ref) :
  insert_desc (pre ++ h) (shift pre x) (map (shift pre) l)
  = map (shift pre) (insert_desc h x l).
Proof.
  induction l as [|y l IH]; cbn [map insert_desc]; [reflexivity|].
  rewrite !deref_shift. destruct (fitness (deref h y) <=? fitness (deref h x)); [reflexivity|].
  cbn [map]. rewrite IH. reflexivity.
Qed.

Lemma sorted_desc_shift (h : list Individual) (l : list ref) :
  sorted_desc (pre ++ h) (map (shift pre) l) = map (shift pre) (sorted_desc h l).
Proof.
  unfold sorted_desc. induction l as [|x l IH]; cbn [map foldr]; [reflexivity|].
  rewrite IH. apply insert_desc_shift.
Qed.

Lemma lifts_ret {A B} (f : A -> B) (a : A) : lifts pre f (ret a) (ret (f a)).
Proof. intros w. reflexivity. Qed.

Lemma lifts_raise {A B} (f : A -> B) (e : exn) : lifts pre f (raise e) (raise e).
Proof. intros w. reflexivity. Qed.

Lemma lifts_bind {A A' B B'} (f : A -> A') (g : B -> B')
    (m : M A) (m' : M A') (k : A -> M B) (k' : A' -> M B') :
  lifts pre f m m' -> (forall a, lifts pre g (k a) (k' (f a))) ->
  lifts pre g (bind m k) (bind m' k').
Proof.
  intros Hm Hk w. unfold bind. rewrite Hm.
  destruct (m w) as [a w1|e w1|]; cbn [map_outcome]; [apply Hk | reflexivity | reflexivity].
Qed.

Lemma lifts_bind_id {A B B'} (g : B -> B') (m m' : M A) (k : A -> M B) (k' : A -> M B') :
  lifts pre id m m' -> (forall a, lifts pre g (k a) (k' a)) ->
  lifts pre g (bind m k) (bind m' k').
Proof. intros Hm Hk. apply (lifts_bind id g); assumption. Qed.

Lemma lifts_randbelow (n : nat) : lifts pre id (randbelow n) (randbelow n).
Proof. intros w. reflexivity. Qed.

Lemma lifts_random_random : lifts pre id random_random random_random.
Proof. intros w. reflexivity. Qed.

Lemma lifts_random_choice01 : lifts pre id random_choice01 random_choice01.
Proof. intros w. reflexivity. Qed.

Lemma lifts_random_randint (a b : Z) : lifts pre id (random_randint a b) (random_randint a b).
Proof.
  intros w. unfold random_randint. cbn zeta. destruct (0 <? b + 1 - a); reflexivity.
Qed.

Lemma lifts_replicateM {A} (n : nat) (m : M A) :
  lifts pre id m m -> lifts pre id (replicateM n m) (replicateM n m).
Proof.
  intros Hm. induction n as [|n IH]; cbn [replicateM]; [apply (lifts_ret id)|].
  apply lifts_bind_id; [exact Hm|]. intros x.
  apply lifts_bind_id; [exact IH|]. intros xs. apply (lifts_ret id).
Qed.

Lemma lifts_random_bits (its : list Item) : lifts pre id (random_bits its) (random_bits its).
Proof. apply lifts_replicateM, lifts_random_choice01. Qed.

Lemma lifts_new_Individual (bs : list Z) (its : list Item) (mw : Z) :
  lifts pre (shift pre) (new_Individual bs its mw) (new_Individual bs its mw).
Proof.
  intros w. unfold new_Individual, lift, map_outcome, shift. cbn [heap tape pos hsalt].
  rewrite length_app, <- app_assoc. reflexivity.
Qed.

Lemma lifts_get (r : ref) : lifts pre id (get r) (get (shift pre r)).
Proof.
  intros w. unfold get, map_outcome, lift. cbn [heap]. rewrite deref_shift. reflexivity.
Qed.

Lemma lifts_set_bit (r : ref) (i : nat) (v : Z) :
  lifts pre id (set_bit r i v) (set_bit (shift pre r) i v).
Proof.
  intros w. unfold set_bit, map_outcome, lift. cbn [heap tape pos hsalt].
  rewrite deref_shift. unfold shift. rewrite insert_app_r. reflexivity.
Qed.

Lemma lifts_for_each_map (l : list ref) (body body' : ref -> M unit) :
  (forall x, lifts pre id (body x) (body' (shift pre x))) ->
  lifts pre id (for_each l body) (for_each (map (shift pre) l) body').
Proof.
  intros Hb. induction l as [|x l IH]; cbn [map for_each]; [apply (lifts_ret id)|].
  apply lifts_bind_id; [apply Hb|]. intros _. exact IH.
Qed.

Lemma lifts_for_each {A} (l : list A) (body body' : A -> M unit) :
  (forall x, lifts pre id (body x) (body' x)) ->
  lifts pre id (for_each l body) (for_each l body').
Proof.
  intros Hb. induction l as [|x l IH]; cbn [for_each]; [apply (lifts_ret id)|].
  apply lifts_bind_id; [apply Hb|]. intros _. exact IH.
Qed.

Lemma lifts_sample_pool (k : nat) :
  forall pool : list ref,
    (k <= length pool)%nat ->
    lifts pre (map (shift pre)) (sample_pool 0%nat pool k)
          (sample_pool 0%nat (map (shift pre) pool) k).
Proof.
  induction k as [|k IH]; intros pool Hk; cbn [sample_pool]; [apply (lifts_ret (map (shift pre)))|].
  intros w. rewrite length_map. unfold bind at 1 3, randbelow, bind at 1 3, draw, ret at 1 3.
  cbn [lift tape pos heap hsalt].
  set (j := N.to_nat (tape w (pos w) mod N.of_nat (length pool))%N).
  assert (Hj : (j < length pool)%nat).
  { unfold j. rewrite N2Nat.inj_mod, Nat2N.id. apply Nat.mod_upper_bound. lia. }
  rewrite !nth_map_shift by lia.
  rewrite <- list_fmap_insert, firstn_map.
  set (pool' := take (length pool - 1) (<[j := nth (length pool - 1) pool 0%nat]> pool)).
  assert (Hlen : (k <= length pool')%nat).
  { unfold pool'. rewrite length_take, length_insert. lia. }
  specialize (IH pool' Hlen (mkWorld (heap w) (tape w) (S (pos w)) (hsalt w))).
  unfold lift in IH. cbn [heap tape pos hsalt] in IH.
  unfold bind. rewrite IH.
  destruct (sample_pool 0%nat pool' k _) as [rest w2|e w2|]; reflexivity.
Qed.

Lemma lifts_random_sample (population : list ref) (k : nat) :
  lifts pre (map (shift pre)) (random_sample population k)
        (random_sample (map (shift pre) population) k).
Proof.
  unfold random_sample. rewrite length_map.
  destruct (Nat.ltb_spec (length population) k) as [Hlt|Hge];
    [apply lifts_raise | apply lifts_sample_pool; exact Hge].
Qed.

Lemma lifts_list_of_set (s : list ref) :
  lifts pre (map (shift pre)) (list_of_set s) (list_of_set (map (shift pre) s)).
Proof.
  intros w. unfold list_of_set, map_outcome, lift. cbn [hsalt].
  rewrite length_map, arrange_shift by lia. reflexivity.
Qed.

Lemma lifts_init_attempts (count : Z) (its : list Item) (mw : Z) (attempts : nat) :
  forall population : list ref,
    lifts pre (map (shift pre)) (init_attempts attempts count its mw population)
          (init_attempts attempts count its mw (map (shift pre) population)).
Proof.
  induction attempts as [|a IH]; intros population; cbn [init_attempts];
    [apply (lifts_ret (map (shift pre)))|].
  rewrite length_map.
  destruct (Z.of_nat (length population) <? count); [|apply (lifts_ret (map (shift pre)))].
  apply lifts_bind_id; [apply lifts_random_bits|]. intros bs.
  apply (lifts_bind (shift pre)); [apply lifts_new_Individual|]. intros individual.
  rewrite set_add_shift. apply IH.
Qed.

Lemma lifts_init_fill (count : Z) (its : list Item) (mw : Z) (fuel : nat) :
  forall population : list ref,
    lifts pre (map (shift pre)) (init_fill fuel count its mw population)
          (init_fill fuel count its mw (map (shift pre) population)).
Proof.
  induction fuel as [|f IH]; intros population; cbn [init_fill]; rewrite length_map;
    (destruct (Z.of_nat (length population) <? count); [|apply (lifts_ret (map (shift pre)))]).
  - intros w. reflexivity.
  - apply lifts_bind_id; [apply lifts_random_bits|]. intros bs.
    apply (lifts_bind (shift pre)); [apply lifts_new_Individual|]. intros individual.
    rewrite set_add_shift. apply IH.
Qed.

Lemma lifts_generate_initial_population (count : Z) (its : list Item) (mw : Z) :
  lifts pre (map (shift pre)) (generate_initial_population count its mw)
        (generate_initial_population count its mw).
Proof.
  unfold generate_initial_population.
  apply (lifts_bind (map (shift pre))); [apply (lifts_init_attempts count its mw _ [])|].
  intros p1. apply (lifts_bind (map (shift pre))); [apply lifts_init_fill|].
  intros p2. apply lifts_list_of_set.
Qed.

Lemma lifts_max_fitness_default (l : list ref) :
  lifts pre (option_map (shift pre)) (max_fitness_default l)
        (max_fitness_default (map (shift pre) l)).
Proof.
  intros w. unfold max_fitness_default, map_outcome, lift. cbn [heap].
  rewrite max_by_fitness_shift. reflexivity.
Qed.

Lemma lifts_max_fitness (l : list ref) :
  lifts pre (shift pre) (max_fitness l) (max_fitness (map (shift pre) l)).
Proof.
  intros w. unfold max_fitness, lift. cbn [heap]. rewrite max_by_fitness_shift.
  destruct (max_by_fitness (heap w) l); reflexivity.
Qed.

Lemma lifts_selection (population : list ref) :
  lifts pre (map (shift pre)) (selection population) (selection (map (shift pre) population)).
Proof.
  unfold selection. rewrite length_map.
  destruct (length population <? 4)%nat; [apply lifts_random_sample|].
  apply (lifts_bind (map (shift pre))); [apply lifts_random_sample|]. intros t1.
  apply (lifts_bind (shift pre)); [apply lifts_max_fitness|]. intros winner1.
  apply (lifts_bind (map (shift pre))); [apply lifts_random_sample|]. intros t2.
  apply (lifts_bind (shift pre)); [apply lifts_max_fitness|]. intros winner2.
  apply (lifts_ret (map (shift pre))).
Qed.

Lemma lifts_crossover (parents : list ref) (its : list Item) (mw : Z) (rate : Q) :
  lifts pre (map (shift pre)) (crossover parents its mw rate)
        (crossover (map (shift pre) parents) its mw rate).
Proof.
  unfold crossover. rewrite length_map.
  destruct (Nat.ltb_spec (length parents) 2) as [Hlt|Hge];
    [apply (lifts_ret (map (shift pre)))|].
  apply lifts_bind_id; [apply lifts_random_random|]. intros u.
  destruct (negb (Qle_bool u rate)); [apply (lifts_ret (map (shift pre)))|].
  apply lifts_bind_id; [apply lifts_random_randint|]. intros crossover_point.
  rewrite !nth_map_shift by lia.
  apply lifts_bind_id; [apply lifts_get|]. intros parent0.
  apply lifts_bind_id; [apply lifts_get|]. intros parent1.
  apply (lifts_bind (shift pre)); [apply lifts_new_Individual|]. intros child1.
  apply (lifts_bind (shift pre)); [apply lifts_new_Individual|]. intros child2.
  apply (lifts_ret (map (shift pre))).
Qed.

Lemma lifts_mutate (individuals : list ref) (rate : Q) :
  lifts pre id (mutate individuals rate) (mutate (map (shift pre) individuals) rate).
Proof.
  unfold mutate. apply lifts_for_each_map. intros individual.
  apply lifts_bind_id; [apply lifts_get|]. intros ind.
  apply lifts_for_each. intros i.
  apply lifts_bind_id; [apply lifts_random_random|]. intros u.
  destruct (negb (Qle_bool rate u)); [|apply (lifts_ret id)].
  apply lifts_bind_id; [apply lifts_get|]. intros ind'. apply lifts_set_bit.
Qed.

Lemma lifts_fill_next_gen (population : list ref) (its : list Item) (mw : Z) (cr mr : Q)
    (fuel : nat) :
  forall next_gen : list ref,
    lifts pre (map (shift pre))
          (fill_next_gen fuel population its mw cr mr next_gen)
          (fill_next_gen fuel (map (shift pre) population) its mw cr mr
                         (map (shift pre) next_gen)).
Proof.
  induction fuel as [|f IH]; intros next_gen; cbn [fill_next_gen]; rewrite !length_map;
    (destruct (length next_gen <? length population)%nat;
     [|apply (lifts_ret (map (shift pre)))]).
  - intros w. reflexivity.
  - apply (lifts_bind (map (shift pre))); [apply lifts_selection|]. intros parents.
    apply (lifts_bind (map (shift pre))); [apply lifts_crossover|]. intros children.
    apply lifts_bind_id; [apply lifts_mutate|]. intros _.
    rewrite <- map_app. apply IH.
Qed.

Lemma lifts_next_generation (population : list ref) (its : list Item) (mw : Z) (cr mr : Q) :
  lifts pre (map (shift pre)) (next_generation population its mw cr mr)
        (next_generation (map (shift pre) population) its mw cr mr).
Proof.
  unfold next_generation, elite_count. rewrite !length_map.
  apply (lifts_bind (map (shift pre))).
  { intros w. unfold sorted_by_fitness_desc, map_outcome, lift. cbn [heap].
    rewrite sorted_desc_shift. reflexivity. }
  intros sorted_population. rewrite firstn_map.
  apply (lifts_bind (map (shift pre))); [apply lifts_fill_next_gen|]. intros next_gen.
  rewrite firstn_map. apply (lifts_ret (map (shift pre))).
Qed.

Lemma lifts_fitness_of (o : option ref) :
  lifts pre id (fitness_of o) (fitness_of (option_map (shift pre) o)).
Proof.
  destruct o as [r|]; cbn [option_map fitness_of]; [|apply lifts_raise].
  apply lifts_bind_id; [apply lifts_get|]. intros ind. apply (lifts_ret id).
Qed.

Lemma lifts_generation_step (its : list Item) (mw : Z) (cr mr : Q) (st : LoopState) :
  lifts pre (shift_state pre) (generation_step its mw cr mr st)
        (generation_step its mw cr mr (shift_state pre st)).
Proof.
  destruct st as [population best]. unfold shift_state, generation_step. cbn [fst snd].
  apply (lifts_bind (map (shift pre))); [apply lifts_next_generation|]. intros population'.
  apply (lifts_bind (shift pre)); [apply lifts_max_fitness|]. intros current_best.
  apply lifts_bind_id; [apply (lifts_fitness_of (Some current_best))|]. intros current_fitness.
  apply lifts_bind_id; [apply lifts_fitness_of|]. intros best_fitness.
  destruct (current_fitness >? best_fitness);
    apply (lifts_ret (fun st => (map (shift pre) (fst st), option_map (shift pre) (snd st)))).
Qed.

Lemma lifts_evolve (its : list Item) (mw : Z) (cr mr : Q) (g : nat) :
  forall st : LoopState,
    lifts pre (shift_state pre) (evolve g its mw cr mr st)
          (evolve g its mw cr mr (shift_state pre st)).
Proof.
  induction g as [|g IH]; intros st; cbn [evolve]; [apply (lifts_ret (shift_state pre))|].
  apply (lifts_bind (shift_state pre)); [apply lifts_generation_step|]. intros st'. apply IH.
Qed.

Lemma lifts_run_search (its : list Item) (mw size generations : Z) (cr mr : Q) :
  lifts pre (shift_state pre) (run_search its mw size generations cr mr)
        (run_search its mw size generations cr mr).
Proof.
  unfold run_search.
  apply (lifts_bind (map (shift pre))); [apply lifts_generate_initial_population|].
  intros population.
  apply (lifts_bind (option_map (shift pre))); [apply lifts_max_fitness_default|].
  intros best. apply (lifts_evolve its mw cr mr _ (population, best)).
Qed.

Lemma lifts_project_result (mw : Z) (best : option ref) :
  lifts pre id (project_result mw best) (project_result mw (option_map (shift pre) best)).
Proof.
  destruct best as [r|]; cbn [option_map project_result]; [|apply (lifts_ret id)].
  apply lifts_bind_id; [apply lifts_get|]. intros b.
  destruct (get_total_weight b <=? mw); apply (lifts_ret id).
Qed.

Lemma lifts_try_except {A} (body body' : M A) (handler : exn -> M A) :
  lifts pre id body body' -> (forall e, lifts pre id (handler e) (handler e)) ->
  lifts pre id (try_except body handler) (try_except body' handler).
Proof.
  intros Hb Hh w. unfold try_except. rewrite Hb.
  destruct (body w) as [a w1|e w1|]; cbn [map_outcome]; [reflexivity | apply Hh | reflexivity].
Qed.

Lemma lifts_solve_knapsack (data : option Request) :
  lifts pre id (solve_knapsack data) (solve_knapsack data).
Proof.
  unfold solve_knapsack. apply lifts_try_except; [|intros e; apply (lifts_ret id)].
  destruct data as [data|]; [|apply (lifts_ret id)].
  destruct (empty_request data); [apply (lifts_ret id)|].
  destruct (default [] (req_items data)) as [|it cat]; [apply (lifts_ret id)|].
  apply (lifts_bind (shift_state pre)); [apply lifts_run_search|]. intros st.
  apply lifts_project_result.
Qed.

End Lift.

Lemma lift_fresh_process (w : World) : lift (heap w) (fresh_process w) = w.
Proof. destruct w as [h t p s]. unfold lift, fresh_process. cbn. rewrite app_nil_r. reflexivity. Qed.

(** The answer in any store is the answer in an empty store; the call
    appends its objects to the store and leaves the earlier ones alone. *)
Lemma solve_knapsack_in_fresh_process (data : option Request) (w : World) :
  solve_knapsack data w
  = map_outcome id (lift (heap w)) (solve_knapsack data (fresh_process w)).
Proof.
  rewrite <- (lift_fresh_process w) at 1. apply lifts_solve_knapsack.
Qed.

(** C10, as the code has it.  [solve_knapsack] reads the process-wide
    generator and nothing that fixes its draws comes with the request.
    Two invocations on the same request whose generators deliver the same
    draws from the call on, as after seeding them alike, in processes
    with the same set iteration order, give the same answer, whatever
    objects earlier calls left in the two stores, and leave generators
    that again deliver the same draws.  The request alone does not
    determine the answer: the last part is one request answered in two
    ways under two states of the generator. *)
Theorem solve_determined_by_draws :
  (forall (data : option Request) (w1 w2 : World),
     same_draws w1 w2 ->
     response_of (solve_knapsack data w1) = response_of (solve_knapsack data w2) /\
     same_draws (final_world (solve_knapsack data w1) w1)
                (final_world (solve_knapsack data w2) w2)) /\
  (exists (data : option Request) (w1 w2 : World),
     heap w1 = heap w2 /\ (forall i, hsalt w1 i = hsalt w2 i) /\
     response_of (solve_knapsack data w1) <> response_of (solve_knapsack data w2)).
Proof.
  split.
  - intros data w1 w2 [Hsalt Htape].
    assert (Hsrc : same_source (fresh_process w1) (fresh_process w2)).
    { split; [reflexivity|]. split; [exact Hsalt | exact Htape]. }
    pose proof (respects_solve_knapsack data _ _ Hsrc) as Hs.
    rewrite (solve_knapsack_in_fresh_process data w1),
            (solve_knapsack_in_fresh_process data w2).
    destruct (solve_knapsack data (fresh_process w1)) as [r1 v1|e1 v1|],
             (solve_knapsack data (fresh_process w2)) as [r2 v2|e2 v2|];
      cbn [same_outcome] in Hs; try contradiction;
      cbn [map_outcome response_of value_of final_world].
    + destruct Hs as (-> & _ & Hs2 & Ht2). split; [reflexivity|]. split; assumption.
    + destruct Hs as (_ & _ & Hs2 & Ht2). split; [reflexivity|]. split; assumption.
    + split; [reflexivity|]. split; assumption.
  - exists (Some (mkRequest (Some 1) (Some 1) (Some 0) None None (Some catalog1))),
           (world0 [1]%N), (world0 [0]%N).
    split; [reflexivity|]. split; [reflexivity|]. vm_compute. discriminate.
Qed.

Lemma solve_determined_by_draws_witness :
  let data := Some (mkRequest (Some 5) (Some 2) (Some 3) None None (Some catalog4)) in
  let w1 := mkWorld [mkIndividual [1; 0] catalog2 2]
                    (tape_of [7; 1; 1; 0; 0; 1; 1; 1; 1]%N) 1 (fun _ => 0%N) in
  let w2 := world0 [1; 1; 0; 0; 1; 1; 1; 1]%N in
  response_of (solve_knapsack data w1) = response_of (solve_knapsack data w2).
Proof.
  intros data w1 w2.
  refine (proj1 (proj1 solve_determined_by_draws data w1 w2 _)).
  split; [reflexivity|]. intros i. reflexivity.
Defined.

(** C10 as stated fails: the same request, answered from generators in
    the same state, over the same store, gets two different answers in
    two processes that iterate the set of initial candidates in different
    orders. *)
Lemma same_seed_different_answers :
  let data := Some (mkRequest (Some 1) (Some 2) (Some 0) None None (Some catalog2)) in
  let w1 := mkWorld [] (tape_of [1; 0; 0; 1]%N) 0 (fun _ => 0%N) in
  let w2 := mkWorld [] (tape_of [1; 0; 0; 1]%N) 0 (fun _ => 1%N) in
  heap w1 = heap w2 /\ pos w1 = pos w2 /\ tape w1 = tape w2 /\
  response_of (solve_knapsack data w1) = Some (Result [mkItem "A" 1 1] 1 1) /\
  response_of (solve_knapsack data w2) = Some (Result [mkItem "B" 1 1] 1 1) /\
  response_of (solve_knapsack data w1) <> response_of (solve_knapsack data w2).
Proof.
  split; [reflexivity|]. split; [reflexivity|]. split; [reflexivity|].
  split; [vm_compute; reflexivity|]. split; [vm_compute; reflexivity|].
  vm_compute. discriminate.
Qed.
